(** * Crossword generator: constraint propagation and backtracking search

    A shallow embedding of [src/generate.py] (class [CrosswordCreator]) and
    the properties of its solver: node consistency, [revise], AC-3,
    the ordering heuristics and the backtracking search.

    Conventions of the embedding.
    - A Python [set] is a list without duplicates; the list order is the
      iteration order of the set.  A set built from another one by a
      comprehension or by a difference keeps the relative order.
    - A Python [dict] is an association list with unique keys in insertion
      order: [d[k] = v] replaces in place or appends, [d.pop(k)] deletes.
    - A Python exception is the [Raise] outcome of the [result] monad.
      Recursion and the [while] loop take a fuel argument; running out of
      fuel is the distinct outcome [OutOfFuel], which the theorems exclude. *)

From Stdlib Require Import List String Ascii Arith Bool Lia ZArith.
From Stdlib Require Import Permutation.
Import ListNotations.

Set Implicit Arguments.

(** ** Outcomes of fallible code *)

Inductive exn : Type :=
| IndexError
| KeyError
| TypeError
| ValueError.

Inductive result (A : Type) : Type :=
| Ok (a : A)
| Raise (e : exn)
| OutOfFuel.

Arguments Ok {A} a.
Arguments Raise {A} e.
Arguments OutOfFuel {A}.

Definition bind {A B : Type} (m : result A) (k : A -> result B) : result B :=
  match m with
  | Ok a => k a
  | Raise e => Raise e
  | OutOfFuel => OutOfFuel
  end.

Declare Scope result_scope.
Delimit Scope result_scope with result.
Notation "x <- m ;; k" := (bind m (fun x => k))
  (at level 61, m at next level, right associativity) : result_scope.
Notation "' pat <- m ;; k" := (bind m (fun x => match x with pat => k end))
  (at level 61, pat pattern, m at next level, right associativity) : result_scope.
Open Scope result_scope.

(** ** Variables of the puzzle

    Modelled from the spec: class [Variable] of module [crossword], which is
    not among the sources.  A slot is a start cell [(i, j)], a direction and
    a length; two slots are equal iff all fields are. *)

Inductive Direction : Type := ACROSS | DOWN.

Module Var.

Record t : Type := mk { i : nat; j : nat; direction : Direction; length : nat }.

Definition direction_eqb (d1 d2 : Direction) : bool :=
  match d1, d2 with
  | ACROSS, ACROSS | DOWN, DOWN => true
  | _, _ => false
  end.

Definition eqb (v1 v2 : t) : bool :=
  Nat.eqb (i v1) (i v2) && Nat.eqb (j v1) (j v2)
  && direction_eqb (direction v1) (direction v2)
  && Nat.eqb (length v1) (length v2).

End Var.

(** ** Sets and dictionaries *)

Definition mem_var (v : Var.t) (l : list Var.t) : bool := existsb (Var.eqb v) l.

Definition mem_str (w : string) (l : list string) : bool := existsb (String.eqb w) l.

(** [s.add(w)] on a set. *)
Definition set_add (w : string) (s : list string) : list string :=
  if mem_str w s then s else s ++ [w].

(** [s -= t] on sets. *)
Definition set_diff (s t : list string) : list string :=
  filter (fun w => negb (mem_str w t)) s.

(** [vs - {y}] on a set of variables. *)
Definition set_remove_var (vs : list Var.t) (y : Var.t) : list Var.t :=
  filter (fun v => negb (Var.eqb v y)) vs.

(** [set(ks) == vs]. *)
Definition set_eqb (ks vs : list Var.t) : bool :=
  forallb (fun k => mem_var k vs) ks && forallb (fun v => mem_var v ks) vs.

Section Dict.
Variable V : Type.

Definition dict : Type := list (Var.t * V).

Definition keys (d : dict) : list Var.t := map fst d.

(** [d.get(k)]. *)
Fixpoint lookup (d : dict) (k : Var.t) : option V :=
  match d with
  | [] => None
  | (k', v) :: d' => if Var.eqb k k' then Some v else lookup d' k
  end.

(** [d[k]]. *)
Definition getitem (d : dict) (k : Var.t) : result V :=
  match lookup d k with
  | Some v => Ok v
  | None => Raise KeyError
  end.

(** [k in d]. *)
Definition contains (d : dict) (k : Var.t) : bool := mem_var k (keys d).

(** [d[k] = v]. *)
Fixpoint setitem (d : dict) (k : Var.t) (v : V) : dict :=
  match d with
  | [] => [(k, v)]
  | (k', v') :: d' =>
      if Var.eqb k k' then (k', v) :: d' else (k', v') :: setitem d' k v
  end.

Fixpoint delete (d : dict) (k : Var.t) : dict :=
  match d with
  | [] => []
  | (k', v') :: d' => if Var.eqb k k' then d' else (k', v') :: delete d' k
  end.

(** [d.pop(k)], the popped value dropped. *)
Definition pop (d : dict) (k : Var.t) : result dict :=
  if contains d k then Ok (delete d k) else Raise KeyError.
End Dict.

(** [w[k]] on a string, for an index that is not negative. *)
Definition char_at (w : string) (k : nat) : result ascii :=
  match String.get k w with
  | Some c => Ok c
  | None => Raise IndexError
  end.

(** ** The constraint graph

    Modelled from the spec: class [Crossword] of module [crossword], which is
    not among the sources.  The generator reads its [variables], its [words],
    its [overlaps] dictionary (from an ordered pair of slots to [None] or a
    pair of character offsets) and its method [neighbors]. *)

Record Crossword : Type := {
  variables : list Var.t;
  words : list string;
  overlaps : list ((Var.t * Var.t) * option (nat * nat))
}.

Fixpoint overlaps_find (o : list ((Var.t * Var.t) * option (nat * nat)))
    (x y : Var.t) : option (option (nat * nat)) :=
  match o with
  | [] => None
  | ((x', y'), v) :: o' =>
      if Var.eqb x x' && Var.eqb y y' then Some v else overlaps_find o' x y
  end.

(** [crossword.overlaps.get((x, y))]: [None] for a missing key as for a pair
    without a shared cell. *)
Definition overlaps_get (c : Crossword) (x y : Var.t) : option (nat * nat) :=
  match overlaps_find (overlaps c) x y with
  | Some v => v
  | None => None
  end.

(** [crossword.overlaps[x, y][k]] for [k] in [{0, 1}]: the lookup raises on a
    missing key, the subscript on [None]. *)
Definition overlaps_item (c : Crossword) (x y : Var.t) : result (nat * nat) :=
  match overlaps_find (overlaps c) x y with
  | Some (Some p) => Ok p
  | Some None => Raise TypeError
  | None => Raise KeyError
  end.

(** Modelled from the spec: [neighbors(v)], all variables sharing a nonempty
    overlap with [v]. *)
Definition neighbors (c : Crossword) (var : Var.t) : list Var.t :=
  filter (fun v => match overlaps_get c v var with Some _ => true | None => false end)
         (variables c).

(** Well-formed constraint graphs, as the spec's data model requires: the
    variables form a set; an overlap relates two distinct variables of the
    graph, its offsets index into the two slots, and the reverse pair carries
    the flipped offsets. *)
Fixpoint nodup_var (l : list Var.t) : bool :=
  match l with
  | [] => true
  | v :: l' => negb (mem_var v l') && nodup_var l'
  end.

Definition overlap_ok (c : Crossword) (x y : Var.t) : bool :=
  match overlaps_get c x y with
  | None => true
  | Some (i, j) =>
      negb (Var.eqb x y)
      && Nat.ltb i (Var.length x) && Nat.ltb j (Var.length y)
      && match overlaps_get c y x with
         | Some (j', i') => Nat.eqb i i' && Nat.eqb j j'
         | None => false
         end
  end.

Definition wf_crossword (c : Crossword) : bool :=
  nodup_var (variables c)
  && forallb (fun e => mem_var (fst (fst e)) (variables c)
                       && mem_var (snd (fst e)) (variables c)) (overlaps c)
  && forallb (fun x => forallb (overlap_ok c x) (variables c)) (variables c).

(** Modelled from the spec: the overlaps are computed once from geometry.
    Two distinct slots overlap where their cell lists meet; the offsets are
    the positions of the shared cell in either slot. *)
Definition cells (v : Var.t) : list (nat * nat) :=
  map (fun k => match Var.direction v with
                | DOWN => (Var.i v + k, Var.j v)
                | ACROSS => (Var.i v, Var.j v + k)
                end)
      (seq 0 (Var.length v)).

Definition cell_eqb (p q : nat * nat) : bool :=
  Nat.eqb (fst p) (fst q) && Nat.eqb (snd p) (snd q).

Fixpoint cell_index (p : nat * nat) (l : list (nat * nat)) : option nat :=
  match l with
  | [] => None
  | q :: l' => if cell_eqb p q then Some 0
               else match cell_index p l' with
                    | Some k => Some (S k)
                    | None => None
                    end
  end.

Definition overlap_of (v1 v2 : Var.t) : option (nat * nat) :=
  match filter (fun p => existsb (cell_eqb p) (cells v2)) (cells v1) with
  | [] => None
  | p :: _ => match cell_index p (cells v1), cell_index p (cells v2) with
              | Some k1, Some k2 => Some (k1, k2)
              | _, _ => None
              end
  end.

Definition build_overlaps (vs : list Var.t)
  : list ((Var.t * Var.t) * option (nat * nat)) :=
  flat_map (fun v1 =>
    flat_map (fun v2 =>
      if Var.eqb v1 v2 then [] else [((v1, v2), overlap_of v1 v2)]) vs) vs.

Definition make_crossword (vs : list Var.t) (ws : list string) : Crossword :=
  {| variables := vs; words := ws; overlaps := build_overlaps vs |}.

(** ** The generator *)

Definition Domains : Type := dict (list string).
Definition Assignment : Type := dict string.
Definition Arc : Type := (Var.t * Var.t)%type.

Record CrosswordCreator : Type := {
  crossword : Crossword;
  domains : Domains
}.

Definition set_domains (self : CrosswordCreator) (d : Domains) : CrosswordCreator :=
  {| crossword := crossword self; domains := d |}.

(** [__init__]: every variable starts with a copy of the whole word list. *)
Definition init (c : Crossword) : CrosswordCreator :=
  {| crossword := c; domains := map (fun var => (var, words c)) (variables c) |}.

(** [enforce_node_consistency]: every entry of the dictionary is replaced by
    the words of the slot's length. *)
Definition enforce_node_consistency (self : CrosswordCreator) : CrosswordCreator :=
  set_domains self
    (map (fun e => (fst e,
                    filter (fun word => Nat.eqb (String.length word) (Var.length (fst e)))
                           (snd e)))
         (domains self)).

(** [any(word_y[j] == word_x[i] for word_y in self.domains[y])] *)
Fixpoint any_agree (word_x : string) (i j : nat) (dy : list string) : result bool :=
  match dy with
  | [] => Ok false
  | word_y :: dy' =>
      cy <- char_at word_y j ;;
      cx <- char_at word_x i ;;
      if Ascii.eqb cy cx then Ok true else any_agree word_x i j dy'
  end.

(** The [for word_x in self.domains[x]] loop of [revise]. *)
Fixpoint revise_loop (self : CrosswordCreator) (y : Var.t) (i j : nat)
    (dx : list string) (to_remove : list string) (revised : bool)
  : result (list string * bool) :=
  match dx with
  | [] => Ok (to_remove, revised)
  | word_x :: dx' =>
      dy <- getitem (domains self) y ;;
      found <- any_agree word_x i j dy ;;
      if found then revise_loop self y i j dx' to_remove revised
      else revise_loop self y i j dx' (set_add word_x to_remove) true
  end.

Definition revise (self : CrosswordCreator) (x y : Var.t)
  : result (bool * CrosswordCreator) :=
  match overlaps_get (crossword self) x y with
  | Some (i, j) =>
      dx <- getitem (domains self) x ;;
      '(to_remove, revised) <- revise_loop self y i j dx [] false ;;
      dx0 <- getitem (domains self) x ;;
      Ok (revised,
          set_domains self (setitem (domains self) x (set_diff dx0 to_remove)))
  | None => Ok (false, self)
  end.

(** [arcs.pop()]: the last element and the list without it. *)
Fixpoint pop_last (A : Type) (l : list A) : option (list A * A) :=
  match l with
  | [] => None
  | a :: l' => match pop_last l' with
               | None => Some ([], a)
               | Some (r, b) => Some (a :: r, b)
               end
  end.

(** The [while arcs] loop of [ac3]. *)
Fixpoint ac3_loop (fuel : nat) (self : CrosswordCreator) (arcs : list Arc)
  : result (bool * CrosswordCreator) :=
  match pop_last arcs with
  | None => Ok (true, self)
  | Some (arcs', (x, y)) =>
      match fuel with
      | 0 => OutOfFuel
      | S fuel' =>
          '(revised, self') <- revise self x y ;;
          if revised then
            dx <- getitem (domains self') x ;;
            match dx with
            | [] => Ok (false, self')
            | _ :: _ =>
                ac3_loop fuel' self'
                  (arcs' ++ map (fun z => (z, x))
                                (set_remove_var (neighbors (crossword self') x) y))
            end
          else ac3_loop fuel' self' arcs'
      end
  end.

Definition all_arcs (self : CrosswordCreator) : list Arc :=
  flat_map (fun x => map (fun y => (x, y)) (neighbors (crossword self) x))
           (keys (domains self)).

Definition domain_size (d : Domains) : nat :=
  list_sum (map (fun e => List.length (snd e)) d).

(** Enough iterations for the loop: every iteration pops an arc, and pushes
    at most one arc per variable only when it has removed a word. *)
Definition ac3_fuel (self : CrosswordCreator) (arcs : list Arc) : nat :=
  List.length arcs
  + domain_size (domains self) * List.length (variables (crossword self)).

Definition ac3 (self : CrosswordCreator) (arcs : option (list Arc))
  : result (bool * CrosswordCreator) :=
  let arcs := match arcs with
              | None => all_arcs self
              | Some a => a
              end in
  ac3_loop (ac3_fuel self arcs) self arcs.

Definition assignment_complete (self : CrosswordCreator) (assignment : Assignment)
  : bool :=
  set_eqb (keys assignment) (variables (crossword self)).

(** The [for neighbor in self.crossword.neighbors(var)] loop of [consistent];
    [Ok false] is the early [return False]. *)
Fixpoint consistent_neighbors (self : CrosswordCreator) (assignment : Assignment)
    (var : Var.t) (word : string) (ns : list Var.t) : result bool :=
  match ns with
  | [] => Ok true
  | neighbor :: ns' =>
      if contains assignment neighbor then
        match overlaps_get (crossword self) var neighbor with
        | Some (i, j) =>
            cw <- char_at word i ;;
            wn <- getitem assignment neighbor ;;
            cn <- char_at wn j ;;
            if Ascii.eqb cw cn
            then consistent_neighbors self assignment var word ns'
            else Ok false
        | None => consistent_neighbors self assignment var word ns'
        end
      else consistent_neighbors self assignment var word ns'
  end.

(** The [for var, word in assignment.items()] loop of [consistent]. *)
Fixpoint consistent_items (self : CrosswordCreator) (assignment : Assignment)
    (items : list (Var.t * string)) : result bool :=
  match items with
  | [] => Ok true
  | (var, word) :: items' =>
      if negb (Nat.eqb (String.length word) (Var.length var)) then Ok false
      else
        ok <- consistent_neighbors self assignment var word
                (neighbors (crossword self) var) ;;
        if ok then consistent_items self assignment items' else Ok false
  end.

Definition consistent (self : CrosswordCreator) (assignment : Assignment)
  : result bool :=
  consistent_items self assignment assignment.

(** [any(value[overlaps[var, neighbor][0]] != word[overlaps[var, neighbor][1]]
         for word in self.domains[neighbor])] *)
Fixpoint any_conflict (self : CrosswordCreator) (var neighbor : Var.t)
    (value : string) (dn : list string) : result bool :=
  match dn with
  | [] => Ok false
  | word :: dn' =>
      p0 <- overlaps_item (crossword self) var neighbor ;;
      cv <- char_at value (fst p0) ;;
      p1 <- overlaps_item (crossword self) var neighbor ;;
      cw <- char_at word (snd p1) ;;
      if negb (Ascii.eqb cv cw) then Ok true
      else any_conflict self var neighbor value dn'
  end.

(** [count_conflicts(value)]: the sum over the neighbors of [var]. *)
Fixpoint count_conflicts_over (self : CrosswordCreator) (var : Var.t)
    (assignment : Assignment) (value : string) (ns : list Var.t) : result nat :=
  match ns with
  | [] => Ok 0
  | neighbor :: ns' =>
      if negb (contains assignment neighbor) then
        dn <- getitem (domains self) neighbor ;;
        b <- any_conflict self var neighbor value dn ;;
        rest <- count_conflicts_over self var assignment value ns' ;;
        Ok (if b then S rest else rest)
      else count_conflicts_over self var assignment value ns'
  end.

Definition count_conflicts (self : CrosswordCreator) (var : Var.t)
    (assignment : Assignment) (value : string) : result nat :=
  count_conflicts_over self var assignment value (neighbors (crossword self) var).

(** [sorted(values, key=...)] is stable: a value goes before the values of
    an equal key that followed it in the input. *)
Fixpoint insert_by_key (k : nat) (w : string) (l : list (nat * string))
  : list (nat * string) :=
  match l with
  | [] => [(k, w)]
  | (k', w') :: l' =>
      if Nat.leb k k' then (k, w) :: l else (k', w') :: insert_by_key k w l'
  end.

Fixpoint sort_by_key (l : list (nat * string)) : list (nat * string) :=
  match l with
  | [] => []
  | (k, w) :: l' => insert_by_key k w (sort_by_key l')
  end.

(** The key function applied to every value, in order. *)
Fixpoint keyed (self : CrosswordCreator) (var : Var.t) (assignment : Assignment)
    (values : list string) : result (list (nat * string)) :=
  match values with
  | [] => Ok []
  | value :: values' =>
      k <- count_conflicts self var assignment value ;;
      rest <- keyed self var assignment values' ;;
      Ok ((k, value) :: rest)
  end.

Definition order_domain_values (self : CrosswordCreator) (var : Var.t)
    (assignment : Assignment) : result (list string) :=
  dv <- getitem (domains self) var ;;
  kvs <- keyed self var assignment dv ;;
  Ok (map snd (sort_by_key kvs)).

(** The key [(len(self.domains[var]), -len(self.crossword.neighbors(var)))]
    and the order of Python tuples. *)
Definition mrv_key (self : CrosswordCreator) (var : Var.t) : result (nat * Z) :=
  dv <- getitem (domains self) var ;;
  Ok (List.length dv, Z.opp (Z.of_nat (List.length (neighbors (crossword self) var)))).

Definition key_ltb (k1 k2 : nat * Z) : bool :=
  Nat.ltb (fst k1) (fst k2)
  || (Nat.eqb (fst k1) (fst k2) && Z.ltb (snd k1) (snd k2)).

(** [min(..., key=...)]: the first element of the least key. *)
Fixpoint min_by_key (self : CrosswordCreator) (best : Var.t) (kbest : nat * Z)
    (l : list Var.t) : result Var.t :=
  match l with
  | [] => Ok best
  | v :: l' =>
      k <- mrv_key self v ;;
      if key_ltb k kbest then min_by_key self v k l'
      else min_by_key self best kbest l'
  end.

Definition unassigned (self : CrosswordCreator) (assignment : Assignment)
  : list Var.t :=
  filter (fun var => negb (contains assignment var)) (variables (crossword self)).

Definition select_unassigned_variable (self : CrosswordCreator)
    (assignment : Assignment) : result Var.t :=
  match unassigned self assignment with
  | [] => Raise ValueError
  | v :: l => k <- mrv_key self v ;; min_by_key self v k l
  end.

(** [backtrack] works on one dictionary, created by [solve] and shared by
    all frames; what it returns is that dictionary or [None].  The model
    returns whether the dictionary was returned, and the dictionary's content
    when the call ends.  [rec] is the recursive call. *)
Fixpoint backtrack_loop (rec : Assignment -> result (bool * Assignment))
    (self : CrosswordCreator) (var : Var.t) (values : list string)
    (assignment : Assignment) : result (bool * Assignment) :=
  match values with
  | [] => Ok (false, assignment)
  | value :: values' =>
      let assignment1 := setitem assignment var value in
      ok <- consistent self assignment1 ;;
      if ok then
        '(found, assignment2) <- rec assignment1 ;;
        if found then Ok (true, assignment2)
        else
          assignment3 <- pop assignment2 var ;;
          backtrack_loop rec self var values' assignment3
      else
        assignment3 <- pop assignment1 var ;;
        backtrack_loop rec self var values' assignment3
  end.

Fixpoint backtrack (fuel : nat) (self : CrosswordCreator) (assignment : Assignment)
  : result (bool * Assignment) :=
  match fuel with
  | 0 => OutOfFuel
  | S fuel' =>
      if assignment_complete self assignment then Ok (true, assignment)
      else
        var <- select_unassigned_variable self assignment ;;
        values <- order_domain_values self var assignment ;;
        backtrack_loop (backtrack fuel' self) self var values assignment
  end.

(** The methods [solve] calls, in the order it calls them. *)
Inductive Call : Type :=
| CallEnforceNodeConsistency
| CallAc3
| CallBacktrack.

(** The method [backtrack] as [solve] calls it: bound to a generator and
    applied to a dictionary. *)
Definition Backtrack : Type :=
  CrosswordCreator -> Assignment -> result (bool * Assignment).

(** The body of [solve], with the method that [self.backtrack] resolves to
    as a parameter: Python looks the attribute up on [self] when the call
    is made.  What the body does with the method, whether and on what it
    calls it and what becomes of its result, is then visible in the value
    of [solve_with].  The second component lists the calls made. *)
Definition solve_with (backtrack_method : Backtrack) (self : CrosswordCreator)
  : result (option Assignment) * list Call :=
  let self1 := enforce_node_consistency self in
  match ac3 self1 None with
  | Ok (_, self2) =>
      ('(found, assignment) <- backtrack_method self2 [] ;;
       Ok (if found then Some assignment else None),
       [CallEnforceNodeConsistency; CallAc3; CallBacktrack])
  | Raise e => (Raise e, [CallEnforceNodeConsistency; CallAc3])
  | OutOfFuel => (OutOfFuel, [CallEnforceNodeConsistency; CallAc3])
  end.

(** The method [backtrack] of the class.  Its recursion is at most one
    frame per variable deep, plus the frame that finds the assignment
    complete. *)
Definition backtrack_method : Backtrack :=
  fun self assignment =>
    backtrack (S (List.length (variables (crossword self)))) self assignment.

(** [solve]: the result ([Some] assignment or [None]) and the calls made. *)
Definition solve (self : CrosswordCreator)
  : result (option Assignment) * list Call :=
  solve_with backtrack_method self.

(** ** Rendering

    Modelled from the spec: the fields [height], [width] and [structure] of
    class [Crossword], which [letter_grid] and [print] read. *)

Record Grid : Type := {
  height : nat;
  width : nat;
  structure : list (list bool)
}.

(** A grid of letters: [None] or a character in every cell. *)
Definition Letters : Type := list (list (option ascii)).

(** [l[k]] on a list, for an index that is not negative. *)
Definition list_index (A : Type) (l : list A) (k : nat) : result A :=
  match nth_error l k with
  | Some a => Ok a
  | None => Raise IndexError
  end.

(** The list [l] with [a] at position [k]. *)
Fixpoint list_set (A : Type) (l : list A) (k : nat) (a : A) : list A :=
  match l with
  | [] => []
  | b :: l' => match k with
               | 0 => a :: l'
               | S k' => b :: list_set l' k' a
               end
  end.

(** [letters[i][j] = c]: both subscripts raise out of range. *)
Definition set_cell (letters : Letters) (i j : nat) (c : ascii) : result Letters :=
  row <- list_index letters i ;;
  if Nat.ltb j (List.length row)
  then Ok (list_set letters i (list_set row j (Some c)))
  else Raise IndexError.

(** The cell of the [k]-th letter of a slot. *)
Definition cell_of (variable : Var.t) (k : nat) : nat * nat :=
  (Var.i variable + match Var.direction variable with DOWN => k | ACROSS => 0 end,
   Var.j variable + match Var.direction variable with ACROSS => k | DOWN => 0 end).

(** The [for k in range(len(word))] loop of [letter_grid]. *)
Fixpoint letter_grid_word (variable : Var.t) (word : string) (ks : list nat)
    (letters : Letters) : result Letters :=
  match ks with
  | [] => Ok letters
  | k :: ks' =>
      let i := fst (cell_of variable k) in
      let j := snd (cell_of variable k) in
      c <- char_at word k ;;
      letters' <- set_cell letters i j c ;;
      letter_grid_word variable word ks' letters'
  end.

(** The [for variable, word in assignment.items()] loop of [letter_grid]. *)
Fixpoint letter_grid_items (items : list (Var.t * string)) (letters : Letters)
  : result Letters :=
  match items with
  | [] => Ok letters
  | (variable, word) :: items' =>
      letters' <- letter_grid_word variable word (seq 0 (String.length word)) letters ;;
      letter_grid_items items' letters'
  end.

Definition letter_grid (g : Grid) (assignment : Assignment) : result Letters :=
  letter_grid_items assignment (repeat (repeat None (width g)) (height g)).

(** The string literal [print] writes for a cell that is not fillable, as
    the bytes of line 44 of the source. *)
Definition blocked_glyph : string :=
  String (ascii_of_nat 195) (String (ascii_of_nat 162)
  (String (ascii_of_nat 226) (String (ascii_of_nat 128) (String (ascii_of_nat 147)
  (String (ascii_of_nat 203) (String (ascii_of_nat 134) EmptyString)))))).

Definition newline : string := String (ascii_of_nat 10) EmptyString.

(** What one iteration of the inner loop of [print] writes. *)
Definition print_cell (g : Grid) (letters : Letters) (i j : nat) : result string :=
  srow <- list_index (structure g) i ;;
  fillable <- list_index srow j ;;
  if fillable then
    lrow <- list_index letters i ;;
    letter <- list_index lrow j ;;
    Ok (match letter with
        | Some c => String c EmptyString
        | None => String (ascii_of_nat 32) EmptyString
        end)
  else Ok blocked_glyph.

(** The [for j in range(self.crossword.width)] loop and the [print()] that
    ends the line; [out] is what has been written so far. *)
Fixpoint print_cols (g : Grid) (letters : Letters) (i : nat) (js : list nat)
    (out : list string) : result (list string) :=
  match js with
  | [] => Ok (out ++ [newline])
  | j :: js' =>
      s <- print_cell g letters i j ;;
      print_cols g letters i js' (out ++ [s])
  end.

Fixpoint print_rows (g : Grid) (letters : Letters) (rows : list nat)
    (out : list string) : result (list string) :=
  match rows with
  | [] => Ok out
  | i :: rows' =>
      out' <- print_cols g letters i (seq 0 (width g)) out ;;
      print_rows g letters rows' out'
  end.

(** [print]: the strings written to the terminal, in order. *)
Definition print (g : Grid) (assignment : Assignment) : result (list string) :=
  letters <- letter_grid g assignment ;;
  print_rows g letters (seq 0 (height g)) [].

(** ** Instances *)

Module Examples.
Open Scope string_scope.

(** A slot of length 3 whose last cell is the first cell of a down slot:
<<
    ___
    ##_
    ##_
>> *)
Definition across3 : Var.t := Var.mk 0 0 ACROSS 3.
Definition down3 : Var.t := Var.mk 0 2 DOWN 3.

Definition corner : Crossword :=
  make_crossword [across3; down3] ["ABC"; "CBA"; "AAA"; "BBB"; "XYZ"; "NO"].

(** The same grid with a word list that cannot fill both slots. *)
Definition corner_fail : Crossword :=
  make_crossword [across3; down3] ["ABC"; "XY"].

(** The generator of [corner] after node consistency, after one [revise]
    and after AC-3. *)
Definition corner_node : CrosswordCreator := enforce_node_consistency (init corner).

Definition corner_revised : CrosswordCreator :=
  match revise corner_node across3 down3 with
  | Ok (_, self) => self
  | _ => corner_node
  end.

Definition corner_arc : CrosswordCreator :=
  match ac3 corner_node None with
  | Ok (_, self) => self
  | _ => corner_node
  end.

(** A slot of length 5 crossed by three down slots:
<<
    _____
    _#_#_
    ##_#_
>> *)
Definition across5 : Var.t := Var.mk 0 0 ACROSS 5.
Definition down0 : Var.t := Var.mk 0 0 DOWN 2.
Definition down2 : Var.t := Var.mk 0 2 DOWN 3.
Definition down4 : Var.t := Var.mk 0 4 DOWN 3.

Definition comb : Crossword :=
  make_crossword [across5; down0; down2; down4]
                 ["BA"; "CAT"; "DOG"; "ABCBD"; "BXXXX"].

Definition comb_node : CrosswordCreator := enforce_node_consistency (init comb).

End Examples.

(** Further instances: grids to render and states to search. *)
Module MoreExamples.
Import Examples.
Open Scope string_scope.

(** The grid of [corner]. *)
Definition corner_grid : Grid :=
  {| height := 3; width := 3;
     structure := [[true; true; true]; [false; false; true]; [false; false; true]] |}.

Definition corner_filled : Assignment := [(across3, "ABC"); (down3, "CBA")].

Definition corner_letters : Letters :=
  match letter_grid corner_grid corner_filled with
  | Ok letters => letters
  | _ => []
  end.

(** A graph without variables, and one whose words are all too short. *)
Definition no_slots : Crossword := make_crossword [] ["AB"; "ABC"].

Definition short_words : Crossword := make_crossword [across3; down3] ["AB"; "NO"].

(** The generator of [corner_fail] after node consistency and after AC-3. *)
Definition corner_fail_node : CrosswordCreator :=
  enforce_node_consistency (init corner_fail).

Definition corner_fail_arc : CrosswordCreator :=
  match ac3 corner_fail_node None with
  | Ok (_, self) => self
  | _ => corner_fail_node
  end.

End MoreExamples.

(** * Vocabulary of the specification *)

Unset Implicit Arguments.

(** [wx[i] == wy[j]], both indices in range. *)
Definition agree (wx : string) (i : nat) (wy : string) (j : nat) : Prop :=
  exists ch, String.get i wx = Some ch /\ String.get j wy = Some ch.

(** The same comparison as a test. *)
Definition agreeb (wx : string) (i : nat) (wy : string) (j : nat) : bool :=
  match String.get i wx, String.get j wy with
  | Some a, Some b => Ascii.eqb a b
  | _, _ => false
  end.

(** The index [k] is in range for every word of [ws]. *)
Definition in_range (k : nat) (ws : list string) : bool :=
  forallb (fun w => Nat.ltb k (String.length w)) ws.

(** What a well-formed graph says about an overlap [(i, j)] of [(x, y)]. *)
Record overlap_facts (c : Crossword) (x y : Var.t) (i j : nat) : Prop := {
  of_left : In x (variables c);
  of_right : In y (variables c);
  of_distinct : x <> y;
  of_i : i < Var.length x;
  of_j : j < Var.length y;
  of_sym : overlaps_get c y x = Some (j, i)
}.

(** [wx] has a partner in [dy]: the test of the inner [any]. *)
Definition supported (i j : nat) (dy : list string) (wx : string) : bool :=
  existsb (fun wy => agreeb wx i wy j) dy.

(** The set [to_remove] that the loop of [revise] builds. *)
Definition removed_by (i j : nat) (dy dx to_remove : list string) : list string :=
  fold_left (fun t w => if supported i j dy w then t else set_add w t) dx to_remove.

(** The candidate words of a variable; no words for a missing key. *)
Definition dom (self : CrosswordCreator) (v : Var.t) : list string :=
  match lookup (domains self) v with
  | Some ws => ws
  | None => []
  end.

(** Any sequence of successful [revise] calls. *)
Inductive revise_steps : CrosswordCreator -> CrosswordCreator -> Prop :=
| steps_refl : forall self, revise_steps self self
| steps_snoc : forall self self1 self2 x y b,
    revise_steps self self1 ->
    revise self1 x y = Ok (b, self2) ->
    revise_steps self self2.

(** Every word of every domain has the length of its variable. *)
Definition node_consistent (d : Domains) : bool :=
  forallb (fun e => forallb (fun word =>
                      Nat.eqb (String.length word) (Var.length (fst e))) (snd e)) d.

(** The state the solver keeps between its steps: the graph is well formed,
    the dictionary has one entry per variable and only words of the slot's
    length. *)
Record creator_ok (self : CrosswordCreator) : Prop := {
  ok_wf : wf_crossword (crossword self) = true;
  ok_keys : keys (domains self) = variables (crossword self);
  ok_node : node_consistent (domains self) = true
}.

(** The arc [(x, y)] with offsets [(i, j)] is consistent: every word left
    for [x] has a partner left for [y]. *)
Definition arc_consistent (self : CrosswordCreator) (x y : Var.t) (i j : nat) : bool :=
  forallb (supported i j (dom self y)) (dom self x).

(** An arc with an overlap is waiting in the worklist or consistent. *)
Definition arcs_inv (self : CrosswordCreator) (arcs : list Arc) : Prop :=
  forall x y i j,
    overlaps_get (crossword self) x y = Some (i, j) ->
    In (x, y) arcs \/ arc_consistent self x y i j = true.

(** Every bound word has the length of its slot and agrees with the words
    bound to the neighbors of the slot at the shared cell. *)
Definition consistentP (c : Crossword) (a : Assignment) : Prop :=
  forall var word, In (var, word) a ->
    String.length word = Var.length var
    /\ forall neighbor wn i j,
         In neighbor (neighbors c var) ->
         lookup a neighbor = Some wn ->
         overlaps_get c var neighbor = Some (i, j) ->
         agree word i wn j.

(** [a] binds no more than [s] does. *)
Definition extends (s a : Assignment) : Prop :=
  forall v w, In (v, w) a -> In (v, w) s.

(** The assignments the search builds: a dictionary over variables of the
    graph, each bound to a word of its domain. *)
Record assignment_ok (self : CrosswordCreator) (a : Assignment) : Prop := {
  aok_nodup : NoDup (keys a);
  aok_vars : incl (keys a) (variables (crossword self));
  aok_dom : forall v w, In (v, w) a -> In w (dom self v)
}.

(** The test of [count_conflicts] on one neighbor: some word left for the
    neighbor differs from [value] at the shared cell. *)
Definition conflicts_with (self : CrosswordCreator) (var : Var.t) (value : string)
    (neighbor : Var.t) : bool :=
  match overlaps_get (crossword self) var neighbor with
  | Some (i, j) => existsb (fun word => negb (agreeb value i word j)) (dom self neighbor)
  | None => false
  end.

(** The key [order_domain_values] sorts by: the unassigned neighbors of
    [var] that have a word differing from [value] at the shared cell. *)
Definition conflict_count (self : CrosswordCreator) (var : Var.t)
    (a : Assignment) (value : string) : nat :=
  List.length
    (filter (fun n => negb (contains a n) && conflicts_with self var value n)
            (neighbors (crossword self) var)).

(** The count as the specification words it: the unassigned neighbors of
    [var] that have no word agreeing with [value] at the shared cell. *)
Definition no_support (self : CrosswordCreator) (var : Var.t) (value : string)
    (neighbor : Var.t) : bool :=
  match overlaps_get (crossword self) var neighbor with
  | Some (i, j) => negb (existsb (fun word => agreeb value i word j) (dom self neighbor))
  | None => false
  end.

Definition no_support_count (self : CrosswordCreator) (var : Var.t)
    (a : Assignment) (value : string) : nat :=
  List.length
    (filter (fun n => negb (contains a n) && no_support self var value n)
            (neighbors (crossword self) var)).

(** The list of keys does not decrease. *)
Fixpoint ascending (l : list nat) : bool :=
  match l with
  | [] => true
  | a :: l' => match l' with
               | [] => true
               | b :: _ => Nat.leb a b && ascending l'
               end
  end.

(** What a call returns is complete, checked by [consistent] unless it is
    the argument itself, and extends the argument. *)
Definition returned_ok (self : CrosswordCreator) (a a' : Assignment) : Prop :=
  assignment_complete self a' = true
  /\ (a' = a \/ consistent self a' = Ok true)
  /\ exists ext, a' = a ++ ext.

(** A solution in the current domains. *)
Record solution (self : CrosswordCreator) (s : Assignment) : Prop := {
  sol_complete : assignment_complete self s = true;
  sol_nodup : NoDup (keys s);
  sol_consistent : consistentP (crossword self) s;
  sol_dom : forall v w, In (v, w) s -> In w (dom self v)
}.


(** Any sequence of [revise] and [ac3] calls that return. *)
Inductive prune_steps : CrosswordCreator -> CrosswordCreator -> Prop :=
| prune_refl : forall self, prune_steps self self
| prune_revise : forall self self1 self2 x y b,
    prune_steps self self1 ->
    revise self1 x y = Ok (b, self2) ->
    prune_steps self self2
| prune_ac3 : forall self self1 self2 arcs b,
    prune_steps self self1 ->
    ac3 self1 arcs = Ok (b, self2) ->
    prune_steps self self2.

(** [revise] raises nothing on this pair in this state: with an overlap,
    both variables have a domain and the offsets index into every word. *)
Definition revise_defined (self : CrosswordCreator) (x y : Var.t) : bool :=
  match overlaps_get (crossword self) x y with
  | None => true
  | Some (i, j) =>
      contains (domains self) x && contains (domains self) y
      && in_range i (dom self x) && in_range j (dom self y)
  end.

(** The key [select_unassigned_variable] minimises. *)
Definition mrv_key_of (self : CrosswordCreator) (v : Var.t) : nat * Z :=
  (List.length (dom self v),
   Z.opp (Z.of_nat (List.length (neighbors (crossword self) v)))).

Definition arc_eqb (a b : Arc) : bool :=
  Var.eqb (fst a) (fst b) && Var.eqb (snd a) (snd b).

(** The worklist [arcs] holds every arc [ac3] starts from by default. *)
Definition covers_all_arcs (self : CrosswordCreator) (arcs : list Arc) : bool :=
  forallb (fun a => existsb (arc_eqb a) arcs) (all_arcs self).

(** Every word the dictionary [D] lists for a variable is in the domain of
    the variable. *)
Definition included_in (D : Domains) (self : CrosswordCreator) : bool :=
  forallb (fun e => forallb (fun w => mem_str w (dom self (fst e))) (snd e)) D.

(** Every arc with an overlap is consistent. *)
Definition arc_consistent_all (self : CrosswordCreator) : bool :=
  forallb (fun e => match snd e with
                    | Some (i, j) => arc_consistent self (fst (fst e)) (snd (fst e)) i j
                    | None => true
                    end)
          (overlaps (crossword self)).

(** A family of words, some for each variable, in which every word has a
    partner across every overlap. *)
Definition ac_family (c : Crossword) (P : Var.t -> string -> Prop) : Prop :=
  forall x y i j wx,
    overlaps_get c x y = Some (i, j) -> P x wx ->
    exists wy, P y wy /\ agree wx i wy j.

(** Every bound word has the length of its slot. *)
Definition lengths_ok (a : Assignment) : bool :=
  forallb (fun e => Nat.eqb (String.length (snd e)) (Var.length (fst e))) a.

(** Every letter of every bound word falls inside the grid. *)
Definition fits (g : Grid) (a : Assignment) : bool :=
  forallb (fun e =>
             forallb (fun k => Nat.ltb (fst (cell_of (fst e) k)) (height g)
                               && Nat.ltb (snd (cell_of (fst e) k)) (width g))
                     (seq 0 (String.length (snd e))))
          a.

(** The letter in cell [(i, j)] of a grid of letters, [None] outside. *)
Definition letter_at (letters : Letters) (i j : nat) : option ascii :=
  match nth_error letters i with
  | Some row => match nth_error row j with
                | Some l => l
                | None => None
                end
  | None => None
  end.

(** The word [w] in slot [v] puts its [k]-th letter [ch] in cell [(i, j)]. *)
Definition covers (v : Var.t) (w : string) (k : nat) (i j : nat) (ch : ascii) : Prop :=
  cell_of v k = (i, j) /\ String.get k w = Some ch.

(** A grid of letters with [h] rows of [w] cells. *)
Definition grid_shape (h w : nat) (letters : Letters) : Prop :=
  List.length letters = h /\ forall row, In row letters -> List.length row = w.

(** The [k]-th letter of a word falls inside the grid. *)
Definition in_grid (g : Grid) (v : Var.t) (k : nat) : bool :=
  Nat.ltb (fst (cell_of v k)) (height g) && Nat.ltb (snd (cell_of v k)) (width g).

(** [structure[i][j]], false outside the table. *)
Definition fillable (g : Grid) (i j : nat) : bool :=
  match nth_error (structure g) i with
  | Some row => match nth_error row j with
                | Some b => b
                | None => false
                end
  | None => false
  end.

(** The table [structure] has a row for every line of the grid and an
    entry for every column. *)
Definition structure_ok (g : Grid) : bool :=
  Nat.leb (height g) (List.length (structure g))
  && forallb (fun row => Nat.leb (width g) (List.length row)) (structure g).

(** What [print] shows in a cell: the block for a cell that is not
    fillable, else the letter, or a space where there is none. *)
Definition glyph_at (g : Grid) (letters : Letters) (i j : nat) : string :=
  if fillable g i j
  then match letter_at letters i j with
       | Some c => String c EmptyString
       | None => String (ascii_of_nat 32) EmptyString
       end
  else blocked_glyph.

(** The checks of [assignment_ok], as a test. *)
Definition assignment_okb (self : CrosswordCreator) (a : Assignment) : bool :=
  nodup_var (keys a)
  && forallb (fun e => mem_var (fst e) (variables (crossword self))
                       && mem_str (snd e) (dom self (fst e))) a.

(** * Properties *)

(** ** The monad *)

Lemma bind_Ok (A B : Type) (m : result A) (k : A -> result B) (b : B) :
  bind m k = Ok b -> exists a, m = Ok a /\ k a = Ok b.
Proof.
  destruct m as [a| |]; simpl; intros H; try discriminate.
  exists a; split; [reflexivity | exact H].
Qed.

Tactic Notation "inv_bind" hyp(H) "as" ident(a) ident(E) :=
  apply bind_Ok in H; destruct H as [a [E H]].

(** ** Variables, sets and dictionaries *)

Lemma direction_eqb_eq (d1 d2 : Direction) :
  Var.direction_eqb d1 d2 = true <-> d1 = d2.
Proof. destruct d1, d2; simpl; split; congruence. Qed.

Lemma var_eqb_eq (v1 v2 : Var.t) : Var.eqb v1 v2 = true <-> v1 = v2.
Proof.
  unfold Var.eqb. destruct v1 as [i1 j1 d1 n1], v2 as [i2 j2 d2 n2]; simpl.
  rewrite !andb_true_iff, !Nat.eqb_eq, direction_eqb_eq.
  split.
  - intros [[[-> ->] ->] ->]. reflexivity.
  - intros H; injection H as -> -> -> ->. auto.
Qed.

Lemma var_eqb_refl (v : Var.t) : Var.eqb v v = true.
Proof. apply var_eqb_eq. reflexivity. Qed.

Lemma var_eqb_neq (v1 v2 : Var.t) : Var.eqb v1 v2 = false <-> v1 <> v2.
Proof.
  rewrite <- var_eqb_eq. destruct (Var.eqb v1 v2); split; congruence.
Qed.

Lemma mem_var_In (v : Var.t) (l : list Var.t) : mem_var v l = true <-> In v l.
Proof.
  unfold mem_var. rewrite existsb_exists. split.
  - intros [u [Hin He]]. apply var_eqb_eq in He. subst. exact Hin.
  - intros Hin. exists v. split; [exact Hin | apply var_eqb_refl].
Qed.

Lemma mem_var_not_In (v : Var.t) (l : list Var.t) : mem_var v l = false <-> ~ In v l.
Proof.
  rewrite <- mem_var_In. destruct (mem_var v l); split; congruence.
Qed.

Lemma mem_str_In (w : string) (l : list string) : mem_str w l = true <-> In w l.
Proof.
  unfold mem_str. rewrite existsb_exists. split.
  - intros [u [Hin He]]. apply String.eqb_eq in He. subst. exact Hin.
  - intros Hin. exists w. split; [exact Hin | apply String.eqb_refl].
Qed.

Lemma nodup_var_NoDup (l : list Var.t) : nodup_var l = true <-> NoDup l.
Proof.
  induction l as [|v l IH]; simpl.
  - split; [constructor | reflexivity].
  - rewrite andb_true_iff, negb_true_iff, mem_var_not_In, IH. split.
    + intros [H1 H2]. constructor; assumption.
    + intros H. inversion H; subst. split; assumption.
Qed.

Lemma set_eqb_spec (ks vs : list Var.t) :
  set_eqb ks vs = true <-> (incl ks vs /\ incl vs ks).
Proof.
  unfold set_eqb. rewrite andb_true_iff, !forallb_forall. unfold incl.
  split; intros [H1 H2]; split; intros v Hv.
  - apply mem_var_In, H1, Hv.
  - apply mem_var_In, H2, Hv.
  - apply mem_var_In, H1, Hv.
  - apply mem_var_In, H2, Hv.
Qed.

Section DictFacts.
Variable V : Type.
Implicit Types (d : dict V) (k : Var.t) (v : V).

Lemma lookup_In d k v : lookup d k = Some v -> In (k, v) d.
Proof.
  induction d as [|[k' v'] d IH]; simpl; [discriminate|].
  destruct (Var.eqb k k') eqn:E.
  - apply var_eqb_eq in E. subst. intros [= ->]. left. reflexivity.
  - intros H. right. apply IH, H.
Qed.

Lemma lookup_keys d k : In k (keys d) <-> exists v, lookup d k = Some v.
Proof.
  induction d as [|[k' v'] d IH]; simpl.
  - split; [intros [] | intros [v H]; discriminate].
  - destruct (Var.eqb k k') eqn:E.
    + apply var_eqb_eq in E. subst. split; [eauto | auto].
    + apply var_eqb_neq in E. rewrite <- IH. split.
      * intros [H|H]; [congruence | exact H].
      * auto.
Qed.

Lemma In_lookup d k v : NoDup (keys d) -> In (k, v) d -> lookup d k = Some v.
Proof.
  induction d as [|[k' v'] d IH]; simpl; [intros _ []|].
  intros Hnd Hin. inversion Hnd as [|? ? Hk Hnd']; subst.
  destruct Hin as [Heq|Hin].
  - injection Heq as -> ->. rewrite var_eqb_refl. reflexivity.
  - destruct (Var.eqb k k') eqn:E.
    + apply var_eqb_eq in E. subst. exfalso. apply Hk.
      change k' with (fst (k', v)). apply in_map, Hin.
    + apply IH; assumption.
Qed.

Lemma contains_In d k : contains d k = true <-> In k (keys d).
Proof. apply mem_var_In. Qed.

Lemma contains_false d k : contains d k = false <-> ~ In k (keys d).
Proof. apply mem_var_not_In. Qed.

Lemma getitem_Ok d k v : getitem d k = Ok v <-> lookup d k = Some v.
Proof.
  unfold getitem. destruct (lookup d k); split; congruence.
Qed.

Lemma lookup_setitem_same d k v : lookup (setitem d k v) k = Some v.
Proof.
  induction d as [|[k' v'] d IH]; simpl.
  - rewrite var_eqb_refl. reflexivity.
  - destruct (Var.eqb k k') eqn:E; simpl; rewrite E; [reflexivity | exact IH].
Qed.

Lemma lookup_setitem_other d k k0 v :
  k0 <> k -> lookup (setitem d k v) k0 = lookup d k0.
Proof.
  intros Hne. induction d as [|[k' v'] d IH]; simpl.
  - apply var_eqb_neq in Hne. rewrite Hne. reflexivity.
  - destruct (Var.eqb k k') eqn:E; simpl.
    + apply var_eqb_eq in E. subst. apply var_eqb_neq in Hne.
      rewrite Hne. reflexivity.
    + rewrite IH. reflexivity.
Qed.

Lemma keys_setitem_present d k v : In k (keys d) -> keys (setitem d k v) = keys d.
Proof.
  induction d as [|[k' v'] d IH]; simpl; [intros []|].
  intros Hin. destruct (Var.eqb k k') eqn:E; simpl; [reflexivity|].
  f_equal. apply IH. destruct Hin as [H|H]; [|exact H].
  apply var_eqb_neq in E. congruence.
Qed.

Lemma setitem_fresh d k v : ~ In k (keys d) -> setitem d k v = d ++ [(k, v)].
Proof.
  induction d as [|[k' v'] d IH]; simpl; [reflexivity|].
  intros Hn. destruct (Var.eqb k k') eqn:E.
  - apply var_eqb_eq in E. subst. exfalso. apply Hn. left. reflexivity.
  - f_equal. apply IH. intros H. apply Hn. right. exact H.
Qed.

Lemma delete_fresh_last d k v : ~ In k (keys d) -> delete (d ++ [(k, v)]) k = d.
Proof.
  induction d as [|[k' v'] d IH]; simpl.
  - rewrite var_eqb_refl. reflexivity.
  - intros Hn. destruct (Var.eqb k k') eqn:E.
    + apply var_eqb_eq in E. subst. exfalso. apply Hn. left. reflexivity.
    + f_equal. apply IH. intros H. apply Hn. right. exact H.
Qed.

Lemma pop_setitem_fresh d k v : ~ In k (keys d) -> pop (setitem d k v) k = Ok d.
Proof.
  intros Hn. rewrite setitem_fresh by exact Hn. unfold pop.
  replace (contains (d ++ [(k, v)]) k) with true.
  - rewrite delete_fresh_last by exact Hn. reflexivity.
  - symmetry. apply contains_In. unfold keys. rewrite map_app, in_app_iff.
    right. left. reflexivity.
Qed.
End DictFacts.

(** ** Strings *)

Lemma agreeb_spec wx i wy j : agreeb wx i wy j = true <-> agree wx i wy j.
Proof.
  unfold agreeb, agree. destruct (String.get i wx) as [a|], (String.get j wy) as [b|].
  - rewrite Ascii.eqb_eq. split.
    + intros ->. eauto.
    + intros [ch [[= ->] [= ->]]]. reflexivity.
  - split; [discriminate | intros [ch [_ H]]; discriminate].
  - split; [discriminate | intros [ch [H _]]; discriminate].
  - split; [discriminate | intros [ch [H _]]; discriminate].
Qed.

Lemma agreeb_get wx i wy j cx cy :
  String.get i wx = Some cx -> String.get j wy = Some cy ->
  agreeb wx i wy j = Ascii.eqb cx cy.
Proof. unfold agreeb. intros -> ->. reflexivity. Qed.

Lemma get_in_range (w : string) (k : nat) :
  k < String.length w -> exists ch, String.get k w = Some ch.
Proof.
  revert k. induction w as [|a w IH]; simpl; intros k Hk; [lia|].
  destruct k as [|k]; [eauto|]. apply IH. lia.
Qed.

Lemma char_at_Ok (w : string) (k : nat) (ch : ascii) :
  char_at w k = Ok ch <-> String.get k w = Some ch.
Proof. unfold char_at. destruct (String.get k w); split; congruence. Qed.

(** ** Well-formed constraint graphs *)

Lemma overlaps_find_key o x y v :
  overlaps_find o x y = Some v -> In (x, y) (map fst o).
Proof.
  induction o as [|[[x' y'] v'] o IH]; simpl; [discriminate|].
  destruct (Var.eqb x x' && Var.eqb y y') eqn:E.
  - apply andb_true_iff in E. destruct E as [E1 E2].
    apply var_eqb_eq in E1, E2. subst. intros _. left. reflexivity.
  - intros H. right. apply IH, H.
Qed.

Lemma wf_overlap (c : Crossword) (x y : Var.t) (i j : nat) :
  wf_crossword c = true -> overlaps_get c x y = Some (i, j) ->
  overlap_facts c x y i j.
Proof.
  unfold wf_crossword. rewrite !andb_true_iff. intros [[_ Hk] Hok] Hget.
  assert (Hin : In x (variables c) /\ In y (variables c)).
  { unfold overlaps_get in Hget.
    destruct (overlaps_find (overlaps c) x y) as [v|] eqn:Ef; [|discriminate].
    apply overlaps_find_key in Ef. apply in_map_iff in Ef.
    destruct Ef as [e [He Hin]]. rewrite forallb_forall in Hk.
    specialize (Hk e Hin). rewrite He in Hk. simpl in Hk.
    apply andb_true_iff in Hk. destruct Hk as [H1 H2].
    split; apply mem_var_In; assumption. }
  destruct Hin as [Hx Hy].
  rewrite forallb_forall in Hok. specialize (Hok x Hx).
  rewrite forallb_forall in Hok. specialize (Hok y Hy).
  unfold overlap_ok in Hok. rewrite Hget in Hok.
  rewrite !andb_true_iff in Hok. destruct Hok as [[[Hne Hi] Hj] Hs].
  apply negb_true_iff, var_eqb_neq in Hne.
  apply Nat.ltb_lt in Hi. apply Nat.ltb_lt in Hj.
  destruct (overlaps_get c y x) as [[j' i']|] eqn:Eyx; [|discriminate].
  apply andb_true_iff in Hs. destruct Hs as [H1 H2].
  apply Nat.eqb_eq in H1, H2. subst.
  constructor; auto.
Qed.

Lemma neighbors_spec (c : Crossword) (x y : Var.t) :
  In y (neighbors c x) <->
  In y (variables c) /\ exists p, overlaps_get c y x = Some p.
Proof.
  unfold neighbors. rewrite filter_In.
  destruct (overlaps_get c y x) as [p|]; split.
  - intros [H _]. eauto.
  - intros [H _]. auto.
  - intros [_ H]. discriminate.
  - intros [_ [p H]]. discriminate.
Qed.

Lemma neighbors_overlap (c : Crossword) (x y : Var.t) (i j : nat) :
  wf_crossword c = true -> overlaps_get c x y = Some (i, j) -> In y (neighbors c x).
Proof.
  intros Hwf Hget. destruct (wf_overlap _ _ _ _ _ Hwf Hget).
  apply neighbors_spec. eauto.
Qed.

Lemma neighbors_overlap_item (c : Crossword) (x y : Var.t) :
  wf_crossword c = true -> In y (neighbors c x) ->
  exists i j, overlaps_get c x y = Some (i, j) /\ overlaps_item c x y = Ok (i, j).
Proof.
  intros Hwf Hin. apply neighbors_spec in Hin. destruct Hin as [_ [[j i] Hget]].
  destruct (wf_overlap _ _ _ _ _ Hwf Hget) as [_ _ _ _ _ Hs].
  exists i, j. split; [exact Hs|].
  unfold overlaps_get in Hs. unfold overlaps_item.
  destruct (overlaps_find (overlaps c) x y) as [[p|]|]; congruence.
Qed.

(** ** [revise] *)

Lemma supported_spec i j dy wx :
  supported i j dy wx = true <-> exists wy, In wy dy /\ agree wx i wy j.
Proof.
  unfold supported. rewrite existsb_exists.
  split; intros [wy [H1 H2]]; exists wy; split; auto; apply agreeb_spec; exact H2.
Qed.

Lemma any_agree_Ok wx i j dy :
  i < String.length wx -> in_range j dy = true ->
  any_agree wx i j dy = Ok (supported i j dy wx).
Proof.
  intros Hi. induction dy as [|wy dy IH]; simpl; [reflexivity|].
  rewrite andb_true_iff. intros [Hj Hr]. apply Nat.ltb_lt in Hj.
  destruct (get_in_range _ _ Hi) as [cx Hcx].
  destruct (get_in_range _ _ Hj) as [cy Hcy].
  unfold char_at, agreeb. rewrite Hcx, Hcy. simpl.
  rewrite (Ascii.eqb_sym cx cy).
  destruct (Ascii.eqb cy cx); simpl; [reflexivity | apply IH, Hr].
Qed.

(** Without assumptions: what [any_agree] returns is the test. *)
Lemma any_agree_inv wx i j dy b :
  any_agree wx i j dy = Ok b -> b = supported i j dy wx.
Proof.
  revert b. induction dy as [|wy dy IH]; simpl; intros b H.
  - congruence.
  - inv_bind H as cy Ey. inv_bind H as cx Ex. apply char_at_Ok in Ey, Ex.
    unfold agreeb. rewrite Ey, Ex. rewrite (Ascii.eqb_sym cx cy).
    destruct (Ascii.eqb cy cx); simpl; [congruence | apply IH, H].
Qed.

Lemma set_add_In w s u : In u (set_add w s) <-> In u s \/ u = w.
Proof.
  unfold set_add. destruct (mem_str w s) eqn:E.
  - apply mem_str_In in E. split; [auto | intros [H| ->]; auto].
  - rewrite in_app_iff. simpl. split.
    + intros [H|[H|[]]]; auto.
    + intros [H|H]; auto.
Qed.

Lemma removed_by_In i j dy dx tr u :
  In u (removed_by i j dy dx tr) <->
  In u tr \/ (In u dx /\ supported i j dy u = false).
Proof.
  unfold removed_by. revert tr. induction dx as [|w dx IH]; simpl; intros tr.
  - split; [auto | intros [H|[[] _]]; exact H].
  - rewrite IH. destruct (supported i j dy w) eqn:E.
    + split.
      * intros [H|[H1 H2]]; auto.
      * intros [H|[[H1|H1] H2]]; auto. subst. congruence.
    + rewrite set_add_In. split.
      * intros [[H|H]|[H1 H2]]; auto. subst. auto.
      * intros [H|[[H1|H1] H2]]; auto.
Qed.

Lemma revise_loop_inv self y i j dy dx tr rev tr' rev' :
  lookup (domains self) y = Some dy ->
  revise_loop self y i j dx tr rev = Ok (tr', rev') ->
  tr' = removed_by i j dy dx tr
  /\ rev' = (rev || negb (forallb (supported i j dy) dx)).
Proof.
  intros Hy. revert tr rev. induction dx as [|wx dx IH]; simpl; intros tr rev H.
  - injection H as <- <-. rewrite orb_false_r. auto.
  - inv_bind H as dy' E. apply getitem_Ok in E. rewrite Hy in E. injection E as <-.
    inv_bind H as found E. apply any_agree_inv in E. subst found.
    destruct (supported i j dy wx) eqn:Es; simpl.
    + apply IH in H. exact H.
    + apply IH in H. destruct H as [-> ->]. split; [reflexivity|].
      rewrite orb_true_r. reflexivity.
Qed.

Lemma revise_loop_Ok self y i j dy dx tr rev :
  lookup (domains self) y = Some dy ->
  in_range i dx = true -> in_range j dy = true ->
  revise_loop self y i j dx tr rev
  = Ok (removed_by i j dy dx tr, rev || negb (forallb (supported i j dy) dx)).
Proof.
  intros Hy Hi Hj. revert tr rev.
  induction dx as [|wx dx IH]; simpl; intros tr rev.
  - rewrite orb_false_r. reflexivity.
  - simpl in Hi. apply andb_true_iff in Hi. destruct Hi as [Hi1 Hi2].
    apply Nat.ltb_lt in Hi1.
    apply getitem_Ok in Hy. rewrite Hy. simpl.
    rewrite any_agree_Ok by assumption. simpl.
    unfold removed_by. simpl.
    destruct (supported i j dy wx); simpl.
    + apply IH, Hi2.
    + rewrite IH by exact Hi2. rewrite orb_true_r. reflexivity.
Qed.

Lemma set_diff_removed i j dy dx :
  set_diff dx (removed_by i j dy dx []) = filter (supported i j dy) dx.
Proof.
  unfold set_diff. apply filter_ext_in. intros w Hw.
  destruct (supported i j dy w) eqn:Es.
  - apply negb_true_iff. destruct (mem_str w (removed_by i j dy dx [])) eqn:Em;
      [|reflexivity].
    apply mem_str_In, removed_by_In in Em. destruct Em as [[]|[_ H]]. congruence.
  - apply negb_false_iff, mem_str_In, removed_by_In. right. auto.
Qed.

(** The shape of every normal return of [revise]. *)
Lemma revise_inv self x y revised self' :
  revise self x y = Ok (revised, self') ->
  (overlaps_get (crossword self) x y = None /\ revised = false /\ self' = self)
  \/ (exists i j dx dy,
        overlaps_get (crossword self) x y = Some (i, j)
        /\ lookup (domains self) x = Some dx
        /\ (dx = [] \/ lookup (domains self) y = Some dy)
        /\ revised = negb (forallb (supported i j dy) dx)
        /\ self' = set_domains self
                     (setitem (domains self) x (filter (supported i j dy) dx))).
Proof.
  unfold revise. destruct (overlaps_get (crossword self) x y) as [[i j]|] eqn:Eo.
  - intros H. right. inv_bind H as dx0 E. apply getitem_Ok in E.
    inv_bind H as p E0. destruct p as [tr rev].
    inv_bind H as dx1 E1. apply getitem_Ok in E1.
    rewrite E in E1. injection E1 as <-.
    injection H as <- <-.
    destruct dx0 as [|wx dx].
    + simpl in E0. injection E0 as <- <-.
      exists i, j, [], []. repeat split; auto.
    + assert (Hy : exists dy, lookup (domains self) y = Some dy).
      { simpl in E0. inv_bind E0 as dy E1. apply getitem_Ok in E1. eauto. }
      destruct Hy as [dy Hy].
      destruct (revise_loop_inv _ _ _ _ _ _ _ _ _ _ Hy E0) as [-> ->].
      exists i, j, (wx :: dx), dy. rewrite set_diff_removed.
      repeat split; auto.
  - intros [= <- <-]. left. auto.
Qed.

Lemma revise_Ok self x y i j dx dy :
  overlaps_get (crossword self) x y = Some (i, j) ->
  lookup (domains self) x = Some dx ->
  lookup (domains self) y = Some dy ->
  in_range i dx = true -> in_range j dy = true ->
  revise self x y
  = Ok (negb (forallb (supported i j dy) dx),
        set_domains self (setitem (domains self) x (filter (supported i j dy) dx))).
Proof.
  intros Ho Hx Hy Hi Hj. unfold revise. rewrite Ho.
  rewrite (proj2 (getitem_Ok _ _ _ _) Hx). simpl.
  rewrite (revise_loop_Ok _ _ _ _ _ _ _ _ Hy Hi Hj). simpl.
  rewrite set_diff_removed. reflexivity.
Qed.

Lemma dom_lookup self v ws : lookup (domains self) v = Some ws -> dom self v = ws.
Proof. unfold dom. intros ->. reflexivity. Qed.

Lemma dom_set_same self d x ws :
  dom (set_domains self (setitem d x ws)) x = ws.
Proof. unfold dom. simpl. rewrite lookup_setitem_same. reflexivity. Qed.

Lemma dom_set_other self x z ws :
  z <> x -> dom (set_domains self (setitem (domains self) x ws)) z = dom self z.
Proof.
  intros Hne. unfold dom. simpl. rewrite lookup_setitem_other by exact Hne.
  reflexivity.
Qed.

(** A normal return of [revise] on an overlapping pair, in terms of the
    candidate words. *)
Lemma revise_inv_dom self x y b self' i j :
  revise self x y = Ok (b, self') ->
  overlaps_get (crossword self) x y = Some (i, j) ->
  negb (forallb (supported i j (dom self y)) (dom self x)) = b
  /\ set_domains self
       (setitem (domains self) x (filter (supported i j (dom self y)) (dom self x)))
     = self'.
Proof.
  intros H Ho. apply revise_inv in H.
  destruct H as [[Hn _] | [i' [j' [dx [dy [Ho' [Hx [Hy [-> ->]]]]]]]]]; [congruence|].
  rewrite Ho in Ho'. injection Ho' as <- <-. rewrite (dom_lookup _ _ _ Hx).
  destruct Hy as [->|Hy]; [auto|]. rewrite (dom_lookup _ _ _ Hy). auto.
Qed.

Lemma filter_length_le (A : Type) (f : A -> bool) (l : list A) :
  List.length (filter f l) <= List.length l.
Proof.
  induction l as [|a l IH]; simpl; [lia|]. destruct (f a); simpl; lia.
Qed.

Lemma filter_length_lt (A : Type) (f : A -> bool) (l : list A) :
  forallb f l = false -> List.length (filter f l) < List.length l.
Proof.
  induction l as [|a l IH]; simpl; [discriminate|].
  destruct (f a); simpl; intros H.
  - apply IH in H. lia.
  - pose proof (filter_length_le _ f l). lia.
Qed.

Lemma filter_id_forallb (A : Type) (f : A -> bool) (l : list A) :
  filter f l = l -> forallb f l = true.
Proof.
  intros H. apply filter_length_forallb. rewrite H. reflexivity.
Qed.

(** Frame and shrinkage of one successful [revise]. *)
Lemma revise_crossword self x y b self' :
  revise self x y = Ok (b, self') -> crossword self' = crossword self.
Proof.
  intros H. apply revise_inv in H.
  destruct H as [[_ [_ ->]] | [i [j [dx [dy [_ [_ [_ [_ ->]]]]]]]]]; reflexivity.
Qed.

Lemma revise_keys self x y b self' :
  revise self x y = Ok (b, self') -> keys (domains self') = keys (domains self).
Proof.
  intros H. apply revise_inv in H.
  destruct H as [[_ [_ ->]] | [i [j [dx [dy [_ [Hx [_ [_ ->]]]]]]]]]; [reflexivity|].
  simpl. apply keys_setitem_present. apply lookup_keys. eauto.
Qed.

Lemma revise_lookup_other self x y b self' z :
  revise self x y = Ok (b, self') -> z <> x ->
  lookup (domains self') z = lookup (domains self) z.
Proof.
  intros H Hne. apply revise_inv in H.
  destruct H as [[_ [_ ->]] | [i [j [dx [dy [_ [_ [_ [_ ->]]]]]]]]]; [reflexivity|].
  simpl. apply lookup_setitem_other, Hne.
Qed.

Lemma revise_dom_other self x y b self' z :
  revise self x y = Ok (b, self') -> z <> x -> dom self' z = dom self z.
Proof.
  intros H Hne. unfold dom. rewrite (revise_lookup_other _ _ _ _ _ _ H Hne). reflexivity.
Qed.

Lemma revise_dom_same self x y b self' :
  revise self x y = Ok (b, self') ->
  exists f, dom self' x = filter f (dom self x)
            /\ b = negb (forallb f (dom self x)).
Proof.
  intros H. apply revise_inv in H.
  destruct H as [[_ [-> ->]] | [i [j [dx [dy [_ [Hx [_ [-> ->]]]]]]]]].
  - exists (fun _ => true). rewrite filter_true. split; [reflexivity|].
    symmetry. apply negb_false_iff, forallb_forall. reflexivity.
  - exists (supported i j dy). rewrite dom_set_same, (dom_lookup _ _ _ Hx). auto.
Qed.

Lemma revise_shrinks self x y b self' z :
  revise self x y = Ok (b, self') ->
  incl (dom self' z) (dom self z)
  /\ List.length (dom self' z) <= List.length (dom self z).
Proof.
  intros H. destruct (Var.eqb z x) eqn:E.
  - apply var_eqb_eq in E. subst z.
    destruct (revise_dom_same _ _ _ _ _ H) as [f [-> _]].
    split; [apply incl_filter | apply filter_length_le].
  - apply var_eqb_neq in E. rewrite (revise_dom_other _ _ _ _ _ _ H E).
    split; [apply incl_refl | lia].
Qed.

Lemma revise_steps_shrink self self' z :
  revise_steps self self' ->
  incl (dom self' z) (dom self z)
  /\ List.length (dom self' z) <= List.length (dom self z).
Proof.
  induction 1 as [self | self self1 self2 x y b _ IH Hr].
  - split; [apply incl_refl | lia].
  - destruct IH as [IH1 IH2]. destruct (revise_shrinks _ _ _ _ _ z Hr) as [H1 H2].
    split; [eapply incl_tran; eassumption | lia].
Qed.

(** ** Node consistency *)

Lemma node_consistent_lookup d v ws w :
  node_consistent d = true -> lookup d v = Some ws -> In w ws ->
  String.length w = Var.length v.
Proof.
  unfold node_consistent. rewrite forallb_forall. intros H Hl Hin.
  apply lookup_In in Hl. specialize (H _ Hl). simpl in H.
  rewrite forallb_forall in H. apply Nat.eqb_eq, H, Hin.
Qed.

Lemma node_consistent_dom self v w :
  node_consistent (domains self) = true -> In w (dom self v) ->
  String.length w = Var.length v.
Proof.
  unfold dom. destruct (lookup (domains self) v) as [ws|] eqn:E; [|intros _ []].
  intros H Hin. eapply node_consistent_lookup; eassumption.
Qed.

Lemma enforce_node_consistent self :
  node_consistent (domains (enforce_node_consistency self)) = true.
Proof.
  unfold enforce_node_consistency, node_consistent. simpl.
  rewrite forallb_forall. intros e He. apply in_map_iff in He.
  destruct He as [[v ws] [<- _]]. simpl.
  rewrite forallb_forall. intros w Hw. apply filter_In in Hw. apply Hw.
Qed.

Lemma node_consistent_setitem d x ws :
  node_consistent d = true ->
  forallb (fun word => Nat.eqb (String.length word) (Var.length x)) ws = true ->
  node_consistent (setitem d x ws) = true.
Proof.
  unfold node_consistent. intros Hd Hws.
  induction d as [|[k v] d IH]; simpl.
  - rewrite Hws. reflexivity.
  - simpl in Hd. apply andb_true_iff in Hd. destruct Hd as [H1 H2].
    destruct (Var.eqb x k) eqn:E; simpl.
    + apply var_eqb_eq in E. subst. rewrite Hws, H2. reflexivity.
    + rewrite H1. simpl. apply IH, H2.
Qed.

Lemma revise_node_consistent self x y b self' :
  node_consistent (domains self) = true ->
  revise self x y = Ok (b, self') ->
  node_consistent (domains self') = true.
Proof.
  intros Hn H. apply revise_inv in H.
  destruct H as [[_ [_ ->]] | [i [j [dx [dy [_ [Hx [_ [_ ->]]]]]]]]]; [exact Hn|].
  simpl. apply node_consistent_setitem; [exact Hn|].
  rewrite forallb_forall. intros w Hw. apply filter_In in Hw.
  apply Nat.eqb_eq. eapply node_consistent_lookup; [exact Hn | exact Hx | apply Hw].
Qed.

(** ** The AC-3 loop *)

Lemma pop_last_None (A : Type) (l : list A) : pop_last l = None <-> l = [].
Proof.
  destruct l as [|a l]; simpl; [split; reflexivity|].
  destruct (pop_last l) as [[r b]|]; split; discriminate.
Qed.

Lemma pop_last_Some (A : Type) (l r : list A) (b : A) :
  pop_last l = Some (r, b) -> l = r ++ [b].
Proof.
  revert r b. induction l as [|a l IH]; simpl; intros r b; [discriminate|].
  destruct (pop_last l) as [[r' b']|] eqn:E.
  - intros [= <- <-]. simpl. f_equal. apply IH. reflexivity.
  - intros [= <- <-]. apply pop_last_None in E. subst. reflexivity.
Qed.

Lemma keys_init (c : Crossword) : keys (domains (init c)) = variables c.
Proof.
  unfold init, keys. simpl. rewrite map_map. simpl. apply map_id.
Qed.

Lemma keys_enforce self :
  keys (domains (enforce_node_consistency self)) = keys (domains self).
Proof.
  unfold enforce_node_consistency, keys. simpl. rewrite map_map. reflexivity.
Qed.

Lemma init_enforce_ok (c : Crossword) :
  wf_crossword c = true -> creator_ok (enforce_node_consistency (init c)).
Proof.
  intros Hwf. constructor.
  - exact Hwf.
  - rewrite keys_enforce. apply keys_init.
  - apply enforce_node_consistent.
Qed.

Lemma ok_lookup self v :
  creator_ok self -> In v (variables (crossword self)) ->
  lookup (domains self) v = Some (dom self v).
Proof.
  intros Hok Hin. rewrite <- (ok_keys _ Hok) in Hin.
  apply lookup_keys in Hin. destruct Hin as [ws Hws].
  rewrite (dom_lookup _ _ _ Hws). exact Hws.
Qed.

Lemma ok_in_range self v k :
  creator_ok self -> k < Var.length v -> in_range k (dom self v) = true.
Proof.
  intros Hok Hk. unfold in_range. rewrite forallb_forall. intros w Hw.
  apply Nat.ltb_lt. rewrite (node_consistent_dom self v w (ok_node _ Hok) Hw).
  exact Hk.
Qed.

(** Under the invariant [revise] does not raise, and its result is the
    filter of the inner test. *)
Lemma revise_ok_eq self x y i j :
  creator_ok self -> overlaps_get (crossword self) x y = Some (i, j) ->
  revise self x y
  = Ok (negb (forallb (supported i j (dom self y)) (dom self x)),
        set_domains self
          (setitem (domains self) x (filter (supported i j (dom self y)) (dom self x)))).
Proof.
  intros Hok Ho. destruct (wf_overlap _ _ _ _ _ (ok_wf _ Hok) Ho).
  apply revise_Ok; auto using ok_lookup, ok_in_range.
Qed.

Lemma revise_creator_ok self x y b self' :
  creator_ok self -> revise self x y = Ok (b, self') -> creator_ok self'.
Proof.
  intros Hok H. constructor.
  - rewrite (revise_crossword _ _ _ _ _ H). apply Hok.
  - rewrite (revise_keys _ _ _ _ _ H), (revise_crossword _ _ _ _ _ H). apply Hok.
  - eapply revise_node_consistent; [apply Hok | exact H].
Qed.

Lemma revise_total self x y :
  creator_ok self -> exists b self', revise self x y = Ok (b, self').
Proof.
  intros Hok. destruct (overlaps_get (crossword self) x y) as [[i j]|] eqn:Eo.
  - rewrite (revise_ok_eq _ _ _ _ _ Hok Eo). eauto.
  - unfold revise. rewrite Eo. eauto.
Qed.

Lemma revise_steps_creator_ok self self' :
  revise_steps self self' -> creator_ok self -> creator_ok self'.
Proof.
  induction 1 as [self | self self1 self2 x y b _ IH Hr]; intros Hok; [exact Hok|].
  eapply revise_creator_ok; [apply IH, Hok | exact Hr].
Qed.

Lemma revise_steps_crossword self self' :
  revise_steps self self' -> crossword self' = crossword self.
Proof.
  induction 1 as [self | self self1 self2 x y b _ IH Hr]; [reflexivity|].
  rewrite (revise_crossword _ _ _ _ _ Hr). exact IH.
Qed.

Lemma revise_steps_node_consistent self self' :
  revise_steps self self' -> node_consistent (domains self) = true ->
  node_consistent (domains self') = true.
Proof.
  induction 1 as [self | self self1 self2 x y b _ IH Hr]; intros Hn; [exact Hn|].
  eapply revise_node_consistent; [apply IH, Hn | exact Hr].
Qed.

Lemma revise_steps_trans self1 self2 self3 :
  revise_steps self1 self2 -> revise_steps self2 self3 -> revise_steps self1 self3.
Proof.
  intros H12 H23. induction H23 as [self | self selfa selfb x y b _ IH Hr].
  - exact H12.
  - eapply steps_snoc; [apply IH, H12 | exact Hr].
Qed.

(** Every normal end of the loop is reached by a sequence of [revise]
    calls. *)
Lemma ac3_loop_steps fuel : forall self arcs b self',
  ac3_loop fuel self arcs = Ok (b, self') -> revise_steps self self'.
Proof.
  induction fuel as [|fuel IH]; intros self arcs b self'; simpl.
  - destruct (pop_last arcs) as [[arcs' [x y]]|]; [discriminate|].
    intros [= _ <-]. constructor.
  - destruct (pop_last arcs) as [[arcs' [x y]]|].
    2:{ intros [= _ <-]. constructor. }
    intros H. inv_bind H as p Er. destruct p as [revised self1].
    assert (Hs : revise_steps self self1).
    { eapply steps_snoc; [apply steps_refl | exact Er]. }
    destruct revised.
    + inv_bind H as dx Ex. destruct dx as [|w dx].
      * injection H as _ <-. exact Hs.
      * apply IH in H. eapply revise_steps_trans; eassumption.
    + apply IH in H. eapply revise_steps_trans; eassumption.
Qed.

Lemma ac3_steps self arcs b self' :
  ac3 self arcs = Ok (b, self') -> revise_steps self self'.
Proof. unfold ac3. apply ac3_loop_steps. Qed.

(** *** Termination of the loop *)

Lemma domain_size_setitem (d : Domains) x old new :
  lookup d x = Some old ->
  domain_size (setitem d x new) + List.length old
  = domain_size d + List.length new.
Proof.
  unfold domain_size. induction d as [|[k v] d IH]; simpl; [discriminate|].
  destruct (Var.eqb x k) eqn:E; simpl.
  - intros [= ->]. lia.
  - intros H. apply IH in H. lia.
Qed.

Lemma revise_domain_size self x y b self' :
  revise self x y = Ok (b, self') ->
  domain_size (domains self') <= domain_size (domains self)
  /\ (b = true -> domain_size (domains self') < domain_size (domains self)).
Proof.
  intros H. apply revise_inv in H.
  destruct H as [[_ [-> ->]] | [i [j [dx [dy [_ [Hx [_ [-> ->]]]]]]]]].
  - split; [lia | discriminate].
  - simpl.
    pose proof (domain_size_setitem _ _ _ (filter (supported i j dy) dx) Hx) as Hs.
    pose proof (filter_length_le _ (supported i j dy) dx) as Hle.
    split; [lia|]. intros Hb. apply negb_true_iff in Hb.
    apply filter_length_lt in Hb. lia.
Qed.

Lemma set_remove_var_length vs y :
  List.length (set_remove_var vs y) <= List.length vs.
Proof. apply filter_length_le. Qed.

Lemma neighbors_length c x : List.length (neighbors c x) <= List.length (variables c).
Proof. apply filter_length_le. Qed.

(** The fuel [ac3] gives its loop is enough in every state. *)
Lemma bind_not_out_of_fuel (A B : Type) (m : result A) (k : A -> result B) :
  m <> OutOfFuel -> (forall a, k a <> OutOfFuel) -> bind m k <> OutOfFuel.
Proof.
  intros Hm Hk. destruct m as [a|e|]; simpl; [apply Hk | discriminate | congruence].
Qed.

Lemma getitem_not_out_of_fuel (V : Type) (d : dict V) k : getitem d k <> OutOfFuel.
Proof. unfold getitem. destruct (lookup d k); discriminate. Qed.

Lemma char_at_not_out_of_fuel w k : char_at w k <> OutOfFuel.
Proof. unfold char_at. destruct (String.get k w); discriminate. Qed.

Lemma any_agree_not_out_of_fuel wx i j dy : any_agree wx i j dy <> OutOfFuel.
Proof.
  induction dy as [|wy dy IH]; simpl; [discriminate|].
  apply bind_not_out_of_fuel; [apply char_at_not_out_of_fuel|]. intros cy.
  apply bind_not_out_of_fuel; [apply char_at_not_out_of_fuel|]. intros cx.
  destruct (Ascii.eqb cy cx); [discriminate | exact IH].
Qed.

Lemma revise_loop_not_out_of_fuel self y i j dx : forall tr rev,
  revise_loop self y i j dx tr rev <> OutOfFuel.
Proof.
  induction dx as [|wx dx IH]; simpl; intros tr rev; [discriminate|].
  apply bind_not_out_of_fuel; [apply getitem_not_out_of_fuel|]. intros dy.
  apply bind_not_out_of_fuel; [apply any_agree_not_out_of_fuel|]. intros found.
  destruct found; apply IH.
Qed.

Lemma revise_not_out_of_fuel self x y : revise self x y <> OutOfFuel.
Proof.
  unfold revise. destruct (overlaps_get (crossword self) x y) as [[i j]|];
    [|discriminate].
  apply bind_not_out_of_fuel; [apply getitem_not_out_of_fuel|]. intros dx.
  apply bind_not_out_of_fuel; [apply revise_loop_not_out_of_fuel|]. intros [tr rev].
  apply bind_not_out_of_fuel; [apply getitem_not_out_of_fuel|]. discriminate.
Qed.

Lemma ac3_loop_fuel_enough fuel : forall self arcs,
  ac3_fuel self arcs <= fuel -> ac3_loop fuel self arcs <> OutOfFuel.
Proof.
  unfold ac3_fuel.
  induction fuel as [|fuel IH]; intros self arcs Hfuel.
  - destruct arcs as [|a arcs]; [discriminate | simpl in Hfuel; lia].
  - simpl. destruct (pop_last arcs) as [[arcs' [x y]]|] eqn:Ep; [|discriminate].
    apply pop_last_Some in Ep. subst arcs.
    rewrite length_app in Hfuel. simpl in Hfuel.
    destruct (revise self x y) as [[revised self1]| |] eqn:Hr; simpl;
      [|discriminate | destruct (revise_not_out_of_fuel self x y Hr)].
    destruct (revise_domain_size _ _ _ _ _ Hr) as [Hle Hlt].
    pose proof (revise_crossword _ _ _ _ _ Hr) as Hc.
    destruct revised.
    + apply bind_not_out_of_fuel; [apply getitem_not_out_of_fuel|].
      intros [|w dx]; [discriminate|]. apply IH.
      rewrite length_app, length_map, Hc.
      pose proof (set_remove_var_length (neighbors (crossword self) x) y).
      pose proof (neighbors_length (crossword self) x).
      specialize (Hlt eq_refl). nia.
    + apply IH. rewrite Hc. nia.
Qed.

Lemma ac3_fuel_enough self arcs : ac3 self arcs <> OutOfFuel.
Proof. unfold ac3. apply ac3_loop_fuel_enough. lia. Qed.

Lemma ac3_loop_total fuel : forall self arcs,
  creator_ok self -> ac3_fuel self arcs <= fuel ->
  exists b self', ac3_loop fuel self arcs = Ok (b, self').
Proof.
  unfold ac3_fuel.
  induction fuel as [|fuel IH]; intros self arcs Hok Hfuel.
  - destruct arcs as [|a arcs]; [|simpl in Hfuel; lia].
    simpl. eauto.
  - simpl. destruct (pop_last arcs) as [[arcs' [x y]]|] eqn:Ep; [|eauto].
    apply pop_last_Some in Ep. subst arcs.
    rewrite length_app in Hfuel. simpl in Hfuel.
    destruct (revise_total self x y Hok) as [revised [self1 Hr]].
    rewrite Hr. simpl.
    pose proof (revise_creator_ok _ _ _ _ _ Hok Hr) as Hok1.
    destruct (revise_domain_size _ _ _ _ _ Hr) as [Hle Hlt].
    rewrite (revise_crossword _ _ _ _ _ Hr).
    destruct revised.
    + destruct (getitem (domains self1) x) as [dx| |] eqn:Ex.
      * simpl. destruct dx as [|w dx]; [eauto|].
        apply IH; [exact Hok1|].
        rewrite length_app, length_map, (revise_crossword _ _ _ _ _ Hr).
        pose proof (set_remove_var_length (neighbors (crossword self) x) y).
        pose proof (neighbors_length (crossword self) x).
        specialize (Hlt eq_refl). nia.
      * exfalso. apply revise_inv in Hr.
        destruct Hr as [[_ [Hf _]] | [i [j [dx [dy [_ [Hx [_ [_ ->]]]]]]]]];
          [discriminate|].
        unfold getitem in Ex. simpl in Ex.
        rewrite lookup_setitem_same in Ex. discriminate.
      * unfold getitem in Ex. destruct (lookup (domains self1) x); discriminate.
    + apply IH; [exact Hok1|].
      rewrite (revise_crossword _ _ _ _ _ Hr). nia.
Qed.

Lemma ac3_total self arcs :
  creator_ok self -> exists b self', ac3 self arcs = Ok (b, self').
Proof.
  intros Hok. unfold ac3. apply ac3_loop_total; [exact Hok | lia].
Qed.

(** When the loop gives up, the variable just revised has no word left. *)
Lemma ac3_loop_false fuel : forall self arcs self',
  ac3_loop fuel self arcs = Ok (false, self') ->
  exists x, In x (keys (domains self')) /\ dom self' x = [].
Proof.
  induction fuel as [|fuel IH]; intros self arcs self'; simpl.
  - destruct (pop_last arcs) as [[arcs' [x y]]|]; discriminate.
  - destruct (pop_last arcs) as [[arcs' [x y]]|]; [|discriminate].
    intros H. inv_bind H as p Er. destruct p as [revised self1].
    destruct revised.
    + inv_bind H as dx Ex. destruct dx as [|w dx].
      * injection H as <-. apply getitem_Ok in Ex. exists x. split.
        -- apply lookup_keys. eauto.
        -- apply dom_lookup, Ex.
      * apply IH in H. exact H.
    + apply IH in H. exact H.
Qed.

(** *** The fixed point *)

Lemma agree_sym wx i wy j : agree wx i wy j -> agree wy j wx i.
Proof. intros [ch [H1 H2]]. exists ch. auto. Qed.

Lemma forallb_incl (A : Type) (f : A -> bool) (l l' : list A) :
  incl l' l -> forallb f l = true -> forallb f l' = true.
Proof.
  rewrite !forallb_forall. intros Hi H a Ha. apply H, Hi, Ha.
Qed.

Lemma arcs_inv_all self :
  wf_crossword (crossword self) = true -> arcs_inv self (all_arcs self).
Proof.
  intros Hwf x y i j Ho.
  destruct (lookup (domains self) x) as [dx|] eqn:Ex.
  - left. unfold all_arcs. apply in_flat_map. exists x. split.
    + apply lookup_keys. eauto.
    + apply in_map. eapply neighbors_overlap; [exact Hwf | exact Ho].
  - right. unfold arc_consistent, dom. rewrite Ex. reflexivity.
Qed.

Lemma arc_eq_dec (a b : Arc) : {a = b} + {a <> b}.
Proof.
  destruct a as [x y], b as [x' y'].
  destruct (Var.eqb x x') eqn:E1; [|right].
  - destruct (Var.eqb y y') eqn:E2; [left|right].
    + apply var_eqb_eq in E1, E2. congruence.
    + apply var_eqb_neq in E2. congruence.
  - apply var_eqb_neq in E1. congruence.
Qed.

Lemma var_eq_dec (x y : Var.t) : {x = y} + {x <> y}.
Proof.
  destruct (Var.eqb x y) eqn:E; [left | right].
  - apply var_eqb_eq, E.
  - apply var_eqb_neq, E.
Qed.

Lemma revise_arcs_inv self arcs' x y b self' :
  wf_crossword (crossword self) = true ->
  arcs_inv self (arcs' ++ [(x, y)]) ->
  revise self x y = Ok (b, self') ->
  arcs_inv self'
    (if b then arcs' ++ map (fun z => (z, x))
                            (set_remove_var (neighbors (crossword self') x) y)
     else arcs').
Proof.
  intros Hwf Hinv Hr.
  destruct (overlaps_get (crossword self) x y) as [[i j]|] eqn:Eo.
  2:{ unfold revise in Hr. rewrite Eo in Hr. injection Hr as <- <-.
      intros x' y' i' j' Ho'. destruct (Hinv _ _ _ _ Ho') as [Hin|Hc]; [|auto].
      apply in_app_iff in Hin. destruct Hin as [Hin|[Heq|[]]]; [auto|].
      injection Heq as <- <-. congruence. }
  pose proof (wf_overlap _ _ _ _ _ Hwf Eo) as Hxy.
  destruct (revise_inv_dom _ _ _ _ _ _ _ Hr Eo) as [Hb Hself].
  set (dx := dom self x) in *. set (dy := dom self y) in *.
  assert (Hdx : dom self' x = filter (supported i j dy) dx).
  { rewrite <- Hself. apply dom_set_same. }
  assert (Hdz : forall z, z <> x -> dom self' z = dom self z).
  { intros z Hz. rewrite <- Hself. apply dom_set_other, Hz. }
  assert (Hc : crossword self' = crossword self) by (rewrite <- Hself; reflexivity).
  intros x' y' i' j' Ho'. rewrite Hc in Ho'. unfold arc_consistent.
  pose proof (wf_overlap _ _ _ _ _ Hwf Ho') as Hxy'.
  destruct (arc_eq_dec (x', y') (x, y)) as [Heq|Hne].
  { (* the arc just revised *)
    injection Heq as -> ->. rewrite Eo in Ho'. injection Ho' as <- <-.
    right. rewrite Hdx, (Hdz y) by (intro; subst; apply (of_distinct _ _ _ _ _ Hxy); reflexivity).
    apply forallb_filter. }
  destruct (Hinv _ _ _ _ Ho') as [Hin|Hcons].
  { left. apply in_app_iff in Hin. destruct Hin as [Hin|[Heq|[]]]; [|congruence].
    destruct b; [apply in_app_iff; left|]; exact Hin. }
  unfold arc_consistent in Hcons.
  destruct (var_eq_dec x' x) as [->|Hx'].
  { (* the revised variable lost words, its partner did not *)
    right. rewrite Hdx, (Hdz y') by (intro; subst; apply (of_distinct _ _ _ _ _ Hxy'); reflexivity).
    eapply forallb_incl; [apply incl_filter | exact Hcons]. }
  rewrite (Hdz x' Hx').
  destruct (var_eq_dec y' x) as [->|Hy']; [|right; rewrite (Hdz y' Hy'); exact Hcons].
  destruct b.
  2:{ (* nothing was removed *)
      right. rewrite Hdx. apply negb_false_iff in Hb.
      rewrite (forallb_filter_id _ _ Hb). exact Hcons. }
  destruct (var_eq_dec x' y) as [->|Hxy'ne].
  - (* the reverse arc: removed words supported nothing *)
    right. rewrite (of_sym _ _ _ _ _ Hxy) in Ho'. injection Ho' as <- <-.
    rewrite Hdx. rewrite forallb_forall in Hcons |- *. intros wy Hwy.
    specialize (Hcons wy Hwy). apply supported_spec in Hcons.
    destruct Hcons as [wx [Hwx Hag]]. apply supported_spec.
    exists wx. split; [|exact Hag]. apply filter_In. split; [exact Hwx|].
    apply supported_spec. exists wy. split; [exact Hwy | apply agree_sym, Hag].
  - (* another arc into the revised variable is pushed again *)
    left. apply in_app_iff. right. apply in_map_iff. exists x'. split; [reflexivity|].
    apply filter_In. split.
    + rewrite Hc. apply neighbors_spec. split; [apply Hxy' | eauto].
    + apply negb_true_iff, var_eqb_neq, Hxy'ne.
Qed.

Lemma ac3_loop_fixed_point fuel : forall self arcs self',
  wf_crossword (crossword self) = true -> arcs_inv self arcs ->
  ac3_loop fuel self arcs = Ok (true, self') ->
  arcs_inv self' [].
Proof.
  induction fuel as [|fuel IH]; intros self arcs self' Hwf Hinv; simpl.
  - destruct (pop_last arcs) as [[arcs' [x y]]|] eqn:Ep; [discriminate|].
    apply pop_last_None in Ep. subst. intros [= <-]. exact Hinv.
  - destruct (pop_last arcs) as [[arcs' [x y]]|] eqn:Ep.
    2:{ apply pop_last_None in Ep. subst. intros [= <-]. exact Hinv. }
    apply pop_last_Some in Ep. subst arcs.
    intros H. inv_bind H as p Er. destruct p as [revised self1].
    assert (Hwf1 : wf_crossword (crossword self1) = true).
    { rewrite (revise_crossword _ _ _ _ _ Er). exact Hwf. }
    pose proof (revise_arcs_inv _ _ _ _ _ _ Hwf Hinv Er) as Hinv1.
    destruct revised.
    + inv_bind H as dx Ex. destruct dx as [|w dx]; [discriminate|].
      eapply IH; eassumption.
    + eapply IH; eassumption.
Qed.

(** ** [consistent] *)

Lemma consistent_neighbors_true self a var word ns :
  consistent_neighbors self a var word ns = Ok true <->
  (forall neighbor wn i j,
     In neighbor ns -> lookup a neighbor = Some wn ->
     overlaps_get (crossword self) var neighbor = Some (i, j) ->
     agree word i wn j).
Proof.
  induction ns as [|n ns IH]; simpl.
  - split; [intros _ ? ? ? ? [] | reflexivity].
  - destruct (contains a n) eqn:Ec.
    + apply contains_In, lookup_keys in Ec. destruct Ec as [wn Hwn].
      destruct (overlaps_get (crossword self) var n) as [[i j]|] eqn:Eo.
      * unfold getitem. rewrite Hwn. unfold char_at. simpl.
        destruct (String.get i word) as [cw|] eqn:Ew; simpl.
        2:{ split; [discriminate|]. intros H.
            destruct (H n wn i j (or_introl eq_refl) Hwn Eo) as [ch [H1 _]].
            congruence. }
        destruct (String.get j wn) as [cn|] eqn:En; simpl.
        2:{ split; [discriminate|]. intros H.
            destruct (H n wn i j (or_introl eq_refl) Hwn Eo) as [ch [_ H2]].
            congruence. }
        destruct (Ascii.eqb cw cn) eqn:Eb.
        -- apply Ascii.eqb_eq in Eb. subst cn. rewrite IH. split.
           ++ intros H n' wn' i' j' [<-|Hin] Hl Ho; [|eauto].
              rewrite Hwn in Hl. rewrite Eo in Ho.
              injection Hl as <-. injection Ho as <- <-. exists cw. auto.
           ++ intros H n' wn' i' j' Hin. apply H. right. exact Hin.
        -- split; [discriminate|]. intros H.
           destruct (H n wn i j (or_introl eq_refl) Hwn Eo) as [ch [H1 H2]].
           apply Ascii.eqb_neq in Eb. congruence.
      * rewrite IH. split.
        -- intros H n' wn' i' j' [<-|Hin] Hl Ho; [congruence | eauto].
        -- intros H n' wn' i' j' Hin. apply H. right. exact Hin.
    + apply contains_false in Ec. rewrite IH. split.
      * intros H n' wn' i' j' [<-|Hin] Hl Ho; [|eauto].
        exfalso. apply Ec, lookup_keys. eauto.
      * intros H n' wn' i' j' Hin. apply H. right. exact Hin.
Qed.

Lemma consistent_items_true self a items :
  consistent_items self a items = Ok true <->
  (forall var word, In (var, word) items ->
     String.length word = Var.length var
     /\ forall neighbor wn i j,
          In neighbor (neighbors (crossword self) var) ->
          lookup a neighbor = Some wn ->
          overlaps_get (crossword self) var neighbor = Some (i, j) ->
          agree word i wn j).
Proof.
  induction items as [|[v w] items IH]; simpl.
  - split; [intros _ ? ? [] | reflexivity].
  - destruct (Nat.eqb (String.length w) (Var.length v)) eqn:El; simpl.
    + apply Nat.eqb_eq in El.
      destruct (consistent_neighbors self a v w (neighbors (crossword self) v))
        as [[|]| |] eqn:En; simpl.
      * pose proof (proj1 (consistent_neighbors_true _ _ _ _ _) En) as En'.
        rewrite IH. split.
        -- intros H v' w' [[= <- <-]|Hin]; [split; assumption | apply H, Hin].
        -- intros H v' w' Hin. apply H. right. exact Hin.
      * split; [discriminate|]. intros H.
        destruct (H v w (or_introl eq_refl)) as [_ Hn].
        apply (proj2 (consistent_neighbors_true self a v w _)) in Hn. congruence.
      * split; [discriminate|]. intros H.
        destruct (H v w (or_introl eq_refl)) as [_ Hn].
        apply (proj2 (consistent_neighbors_true self a v w _)) in Hn. congruence.
      * split; [discriminate|]. intros H.
        destruct (H v w (or_introl eq_refl)) as [_ Hn].
        apply (proj2 (consistent_neighbors_true self a v w _)) in Hn. congruence.
    + apply Nat.eqb_neq in El. split; [discriminate|]. intros H.
      destruct (H v w (or_introl eq_refl)) as [Hl _]. contradiction.
Qed.

Lemma consistent_true self a :
  consistent self a = Ok true <-> consistentP (crossword self) a.
Proof. apply consistent_items_true. Qed.

Lemma consistentP_restrict c s a :
  NoDup (keys s) -> extends s a -> consistentP c s -> consistentP c a.
Proof.
  intros Hnd Hext Hs var word Hin. destruct (Hs var word (Hext _ _ Hin)) as [Hl Hn].
  split; [exact Hl|]. intros n wn i j Hnb Hlk Ho.
  apply (Hn n wn i j Hnb); [|exact Ho].
  apply In_lookup; [exact Hnd|]. apply Hext, lookup_In, Hlk.
Qed.

Lemma assignment_ok_nil self : assignment_ok self [].
Proof.
  constructor; [constructor | intros v [] | intros v w []].
Qed.

Lemma assignment_ok_bind self a var value :
  assignment_ok self a ->
  In var (variables (crossword self)) -> ~ In var (keys a) ->
  In value (dom self var) ->
  assignment_ok self (a ++ [(var, value)]).
Proof.
  intros [Hnd Hv Hd] Hvar Hfresh Hval. constructor.
  - unfold keys. rewrite map_app. simpl.
    apply NoDup_app; [exact Hnd | repeat constructor; intros [] |].
    intros v Hin [<-|[]]. contradiction.
  - unfold keys. rewrite map_app. simpl. apply incl_app; [exact Hv|].
    intros v [<-|[]]. exact Hvar.
  - intros v w Hin. apply in_app_iff in Hin.
    destruct Hin as [Hin|[[= <- <-]|[]]]; [apply Hd, Hin | exact Hval].
Qed.

(** Under the invariants [consistent] does not raise. *)
Lemma consistent_neighbors_total self a var word ns :
  creator_ok self -> assignment_ok self a ->
  String.length word = Var.length var ->
  exists b, consistent_neighbors self a var word ns = Ok b.
Proof.
  intros Hok Ha Hlen. induction ns as [|n ns IH]; simpl; [eauto|].
  destruct (contains a n) eqn:Ec; [|exact IH].
  apply contains_In, lookup_keys in Ec. destruct Ec as [wn Hwn].
  destruct (overlaps_get (crossword self) var n) as [[i j]|] eqn:Eo; [|exact IH].
  destruct (wf_overlap _ _ _ _ _ (ok_wf _ Hok) Eo) as [_ _ _ Hi Hj _].
  assert (Hlen' : String.length wn = Var.length n).
  { apply (node_consistent_dom self n wn (ok_node _ Hok)).
    apply (aok_dom _ _ Ha), lookup_In, Hwn. }
  destruct (get_in_range word i) as [cw Hcw]; [lia|].
  destruct (get_in_range wn j) as [cn Hcn]; [lia|].
  unfold getitem, char_at. rewrite Hwn, Hcw. simpl. rewrite Hcn. simpl.
  destruct (Ascii.eqb cw cn); [exact IH | eauto].
Qed.

Lemma consistent_items_total self a items :
  creator_ok self -> assignment_ok self a ->
  exists b, consistent_items self a items = Ok b.
Proof.
  intros Hok Ha. induction items as [|[v w] items IH]; simpl; [eauto|].
  destruct (Nat.eqb (String.length w) (Var.length v)) eqn:El; simpl; [|eauto].
  apply Nat.eqb_eq in El.
  destruct (consistent_neighbors_total self a v w (neighbors (crossword self) v)
              Hok Ha El) as [b Hb].
  rewrite Hb. simpl. destruct b; [exact IH | eauto].
Qed.

Lemma consistent_total self a :
  creator_ok self -> assignment_ok self a -> exists b, consistent self a = Ok b.
Proof. apply consistent_items_total. Qed.

(** ** [select_unassigned_variable] *)

Lemma mrv_key_Ok self v :
  In v (keys (domains self)) ->
  mrv_key self v
  = Ok (List.length (dom self v),
        Z.opp (Z.of_nat (List.length (neighbors (crossword self) v)))).
Proof.
  intros Hin. apply lookup_keys in Hin. destruct Hin as [ws Hws].
  unfold mrv_key, getitem. rewrite Hws, (dom_lookup _ _ _ Hws). reflexivity.
Qed.

Lemma key_ltb_fst k1 k2 : key_ltb k1 k2 = true -> fst k1 <= fst k2.
Proof.
  unfold key_ltb. rewrite orb_true_iff, andb_true_iff, Nat.ltb_lt, Nat.eqb_eq. lia.
Qed.

Lemma key_ltb_fst_false k1 k2 : key_ltb k1 k2 = false -> fst k2 <= fst k1.
Proof.
  unfold key_ltb. rewrite orb_false_iff, Nat.ltb_ge. intros [H _]. exact H.
Qed.

Lemma min_by_key_In self : forall l best kbest r,
  min_by_key self best kbest l = Ok r -> In r (best :: l).
Proof.
  induction l as [|v l IH]; simpl; intros best kbest r H.
  - injection H as <-. auto.
  - inv_bind H as k Ek. destruct (key_ltb k kbest); apply IH in H.
    + right. exact H.
    + destruct H as [H|H]; auto.
Qed.

Lemma min_by_key_least self : forall l best kbest,
  (forall v, In v l -> In v (keys (domains self))) ->
  fst kbest = List.length (dom self best) ->
  exists r, min_by_key self best kbest l = Ok r
            /\ forall u, In u (best :: l) ->
                 List.length (dom self r) <= List.length (dom self u).
Proof.
  induction l as [|v l IH]; simpl; intros best kbest Hk Hb.
  - exists best. split; [reflexivity|]. intros u [<-|[]]. lia.
  - rewrite (mrv_key_Ok self v) by (apply Hk; auto). simpl.
    set (k := (List.length (dom self v),
               Z.opp (Z.of_nat (List.length (neighbors (crossword self) v))))).
    destruct (key_ltb k kbest) eqn:Elt.
    + destruct (IH v k) as [r [Hr Hmin]]; [auto | reflexivity|].
      exists r. split; [exact Hr|]. intros u [<-|Hu]; [|apply Hmin, Hu].
      apply key_ltb_fst in Elt. simpl in Elt.
      specialize (Hmin v (or_introl eq_refl)). lia.
    + destruct (IH best kbest) as [r [Hr Hmin]]; [auto | exact Hb|].
      exists r. split; [exact Hr|]. intros u [<-|[<-|Hu]].
      * apply Hmin. left. reflexivity.
      * apply key_ltb_fst_false in Elt. simpl in Elt.
        specialize (Hmin best (or_introl eq_refl)). lia.
      * apply Hmin. right. exact Hu.
Qed.

Lemma unassigned_spec self a v :
  In v (unassigned self a) <-> In v (variables (crossword self)) /\ ~ In v (keys a).
Proof.
  unfold unassigned. rewrite filter_In, negb_true_iff, contains_false. reflexivity.
Qed.

Lemma select_In self a var :
  select_unassigned_variable self a = Ok var -> In var (unassigned self a).
Proof.
  unfold select_unassigned_variable.
  destruct (unassigned self a) as [|v l]; [discriminate|].
  intros H. inv_bind H as k Ek. apply min_by_key_In in H. exact H.
Qed.

Lemma select_least self a u :
  keys (domains self) = variables (crossword self) ->
  In u (unassigned self a) ->
  exists var, select_unassigned_variable self a = Ok var
              /\ In var (unassigned self a)
              /\ forall u', In u' (unassigned self a) ->
                   List.length (dom self var) <= List.length (dom self u').
Proof.
  intros Hkeys Hu.
  assert (Hk : forall v, In v (unassigned self a) -> In v (keys (domains self))).
  { intros v Hv. rewrite Hkeys. apply unassigned_spec in Hv. apply Hv. }
  pose proof (select_In self a) as HIn.
  unfold select_unassigned_variable in *.
  destruct (unassigned self a) as [|v l]; [destruct Hu|].
  rewrite (mrv_key_Ok self v) by (apply Hk; left; reflexivity). simpl.
  destruct (min_by_key_least self l v
              (List.length (dom self v),
               Z.opp (Z.of_nat (List.length (neighbors (crossword self) v)))))
    as [r [Hr Hmin]]; [intros; apply Hk; right; assumption | reflexivity|].
  exists r. split; [exact Hr|]. split; [|exact Hmin].
  apply HIn. rewrite (mrv_key_Ok self v) by (apply Hk; left; reflexivity).
  exact Hr.
Qed.

Lemma forallb_false_ex (A : Type) (f : A -> bool) (l : list A) :
  forallb f l = false -> exists x, In x l /\ f x = false.
Proof.
  induction l as [|a l IH]; simpl; [discriminate|].
  destruct (f a) eqn:E; simpl.
  - intros H. destruct (IH H) as [x [Hx Hf]]. eauto.
  - intros _. eauto.
Qed.

Lemma incomplete_unassigned self a :
  incl (keys a) (variables (crossword self)) ->
  assignment_complete self a = false ->
  exists u, In u (unassigned self a).
Proof.
  intros Hincl Hc. unfold assignment_complete, set_eqb in Hc.
  apply andb_false_iff in Hc. destruct Hc as [Hc|Hc].
  - apply forallb_false_ex in Hc. destruct Hc as [k [Hk Hm]].
    apply mem_var_not_In in Hm. exfalso. apply Hm, Hincl, Hk.
  - apply forallb_false_ex in Hc. destruct Hc as [v [Hv Hm]].
    exists v. apply unassigned_spec. split; [exact Hv|].
    apply mem_var_not_In, Hm.
Qed.

(** ** [order_domain_values] *)

Lemma any_conflict_Ok self var n value dn i j :
  overlaps_item (crossword self) var n = Ok (i, j) ->
  i < String.length value -> in_range j dn = true ->
  any_conflict self var n value dn
  = Ok (existsb (fun word => negb (agreeb value i word j)) dn).
Proof.
  intros Ho Hi. induction dn as [|w dn IH]; simpl; [reflexivity|].
  rewrite andb_true_iff. intros [Hj Hr]. apply Nat.ltb_lt in Hj.
  rewrite Ho. simpl.
  destruct (get_in_range _ _ Hi) as [cv Hcv].
  destruct (get_in_range _ _ Hj) as [cw Hcw].
  unfold char_at. rewrite Hcv, Hcw. simpl.
  rewrite (agreeb_get _ _ _ _ _ _ Hcv Hcw).
  destruct (Ascii.eqb cv cw); simpl; [apply IH, Hr | reflexivity].
Qed.

Lemma count_conflicts_over_Ok self var a value ns :
  creator_ok self -> incl ns (neighbors (crossword self) var) ->
  String.length value = Var.length var ->
  count_conflicts_over self var a value ns
  = Ok (List.length
          (filter (fun n => negb (contains a n) && conflicts_with self var value n) ns)).
Proof.
  intros Hok Hincl Hlen. induction ns as [|n ns IH]; simpl; [reflexivity|].
  assert (Hn : In n (neighbors (crossword self) var)) by (apply Hincl; left; reflexivity).
  assert (Hns : incl ns (neighbors (crossword self) var)).
  { intros u Hu. apply Hincl. right. exact Hu. }
  specialize (IH Hns).
  destruct (contains a n); simpl; [exact IH|].
  destruct (neighbors_overlap_item _ _ _ (ok_wf _ Hok) Hn) as [i [j [Hg Hi]]].
  destruct (wf_overlap _ _ _ _ _ (ok_wf _ Hok) Hg) as [_ Hnv _ Hli Hlj _].
  rewrite (proj2 (getitem_Ok _ _ _ _) (ok_lookup self n Hok Hnv)). simpl.
  rewrite (any_conflict_Ok self var n value (dom self n) i j Hi)
    by (try lia; apply ok_in_range; assumption).
  simpl. rewrite IH. simpl. unfold conflicts_with. rewrite Hg.
  destruct (existsb _ (dom self n)); reflexivity.
Qed.

Lemma keyed_Ok self var a values :
  creator_ok self -> incl values (dom self var) ->
  keyed self var a values
  = Ok (map (fun v => (conflict_count self var a v, v)) values).
Proof.
  intros Hok Hincl. induction values as [|v values IH]; simpl; [reflexivity|].
  unfold count_conflicts.
  rewrite (count_conflicts_over_Ok self var a v _ Hok (incl_refl _)).
  - simpl. rewrite IH; [reflexivity|]. intros u Hu. apply Hincl. right. exact Hu.
  - apply (node_consistent_dom self var v (ok_node _ Hok)). apply Hincl. left. reflexivity.
Qed.

Lemma keyed_snd self var a : forall values kvs,
  keyed self var a values = Ok kvs -> map snd kvs = values.
Proof.
  induction values as [|v values IH]; simpl; intros kvs H.
  - injection H as <-. reflexivity.
  - inv_bind H as k Ek. inv_bind H as rest Er. injection H as <-.
    simpl. f_equal. apply IH, Er.
Qed.

Lemma insert_by_key_perm k w l : Permutation (insert_by_key k w l) ((k, w) :: l).
Proof.
  induction l as [|[k' w'] l IH]; simpl; [reflexivity|].
  destruct (Nat.leb k k'); [reflexivity|].
  rewrite IH. apply perm_swap.
Qed.

Lemma sort_by_key_perm l : Permutation (sort_by_key l) l.
Proof.
  induction l as [|[k w] l IH]; simpl; [reflexivity|].
  rewrite insert_by_key_perm. constructor. exact IH.
Qed.

Lemma ascending_cons2 a b l :
  ascending (a :: b :: l) = Nat.leb a b && ascending (b :: l).
Proof. reflexivity. Qed.

Lemma insert_by_key_ascending k w l :
  ascending (map fst l) = true -> ascending (map fst (insert_by_key k w l)) = true.
Proof.
  induction l as [|[k' w'] l IH]; [reflexivity|].
  intros H. cbn [insert_by_key]. destruct (Nat.leb k k') eqn:E.
  - cbn [map fst] in *. rewrite ascending_cons2, E. exact H.
  - destruct l as [|[k2 w2] l].
    + cbn. apply Nat.leb_gt in E. rewrite andb_true_r. apply Nat.leb_le. lia.
    + cbn [map fst] in H. rewrite ascending_cons2 in H.
      apply andb_true_iff in H. destruct H as [H1 H2].
      specialize (IH H2). cbn [insert_by_key] in *.
      destruct (Nat.leb k k2) eqn:E2; cbn [map fst] in *.
      * rewrite ascending_cons2. apply andb_true_iff. split; [|exact IH].
        apply Nat.leb_gt in E. apply Nat.leb_le. lia.
      * rewrite ascending_cons2, H1. exact IH.
Qed.

Lemma sort_by_key_ascending l : ascending (map fst (sort_by_key l)) = true.
Proof.
  induction l as [|[k w] l IH]; [reflexivity|].
  simpl. apply insert_by_key_ascending, IH.
Qed.

Lemma order_domain_values_perm self var a vs :
  order_domain_values self var a = Ok vs -> Permutation vs (dom self var).
Proof.
  unfold order_domain_values. intros H. inv_bind H as dv Ed. inv_bind H as kvs Ek.
  injection H as <-. apply getitem_Ok in Ed. rewrite (dom_lookup _ _ _ Ed).
  rewrite <- (keyed_snd _ _ _ _ _ Ek). apply Permutation_map, sort_by_key_perm.
Qed.

Lemma order_domain_values_Ok self var a :
  creator_ok self -> In var (variables (crossword self)) ->
  order_domain_values self var a
  = Ok (map snd (sort_by_key
                   (map (fun v => (conflict_count self var a v, v)) (dom self var)))).
Proof.
  intros Hok Hvar. unfold order_domain_values.
  rewrite (proj2 (getitem_Ok _ _ _ _) (ok_lookup self var Hok Hvar)). simpl.
  rewrite (keyed_Ok self var a _ Hok (incl_refl _)). reflexivity.
Qed.

(** ** [backtrack] *)

(** A call that returns [None] leaves the dictionary as it found it. *)
Lemma backtrack_loop_restores rec self var :
  (forall a a', rec a = Ok (false, a') -> a' = a) ->
  forall values a a',
    ~ In var (keys a) ->
    backtrack_loop rec self var values a = Ok (false, a') -> a' = a.
Proof.
  intros Hrec. induction values as [|value values IH]; simpl; intros a a' Hfresh H.
  - congruence.
  - inv_bind H as ok Ec. destruct ok.
    + inv_bind H as p Er. destruct p as [found a2]. destruct found; [discriminate|].
      apply Hrec in Er. subst a2.
      rewrite (pop_setitem_fresh _ _ _ _ Hfresh) in H. simpl in H.
      apply IH in H; assumption.
    + rewrite (pop_setitem_fresh _ _ _ _ Hfresh) in H. simpl in H.
      apply IH in H; assumption.
Qed.

Lemma backtrack_restores fuel : forall self a a',
  backtrack fuel self a = Ok (false, a') -> a' = a.
Proof.
  induction fuel as [|fuel IH]; simpl; intros self a a' H; [discriminate|].
  destruct (assignment_complete self a); [discriminate|].
  inv_bind H as var Ev. inv_bind H as values Eo.
  apply select_In, unassigned_spec in Ev. destruct Ev as [_ Hfresh].
  eapply backtrack_loop_restores; [apply IH | exact Hfresh | exact H].
Qed.

Lemma backtrack_loop_sound rec self var :
  (forall a a', rec a = Ok (false, a') -> a' = a) ->
  (forall a a', rec a = Ok (true, a') -> returned_ok self a a') ->
  forall values a a',
    ~ In var (keys a) ->
    backtrack_loop rec self var values a = Ok (true, a') ->
    assignment_complete self a' = true
    /\ consistent self a' = Ok true
    /\ exists ext, a' = a ++ ext.
Proof.
  intros Hres Hrec.
  induction values as [|value values IH]; simpl; intros a a' Hfresh H.
  - discriminate.
  - inv_bind H as ok Ec. destruct ok.
    + inv_bind H as p Er. destruct p as [found a2]. destruct found.
      * injection H as <-. destruct (Hrec _ _ Er) as [Hc [Hk [ext Hext]]].
        split; [exact Hc|]. split.
        -- destruct Hk as [->|Hk]; assumption.
        -- rewrite (setitem_fresh _ _ _ _ Hfresh) in Hext.
           exists ((var, value) :: ext). rewrite Hext, <- app_assoc. reflexivity.
      * apply Hres in Er. subst a2.
        rewrite (pop_setitem_fresh _ _ _ _ Hfresh) in H. simpl in H.
        apply IH in H; assumption.
    + rewrite (pop_setitem_fresh _ _ _ _ Hfresh) in H. simpl in H.
      apply IH in H; assumption.
Qed.

Lemma backtrack_sound fuel : forall self a a',
  backtrack fuel self a = Ok (true, a') -> returned_ok self a a'.
Proof.
  induction fuel as [|fuel IH]; simpl; intros self a a' H; [discriminate|].
  destruct (assignment_complete self a) eqn:Ec.
  - injection H as <-. split; [exact Ec|]. split; [left; reflexivity|].
    exists []. symmetry. apply app_nil_r.
  - inv_bind H as var Ev. inv_bind H as values Eo.
    apply select_In, unassigned_spec in Ev. destruct Ev as [_ Hfresh].
    destruct (backtrack_loop_sound (backtrack fuel self) self var
                (backtrack_restores fuel self) (IH self) values a a' Hfresh H)
      as [H1 [H2 H3]].
    split; [exact H1|]. split; [right; exact H2 | exact H3].
Qed.

Lemma extends_bind s a var value :
  extends s a -> In (var, value) s -> extends s (a ++ [(var, value)]).
Proof.
  intros He Hin v w H. apply in_app_iff in H.
  destruct H as [H|[[= <- <-]|[]]]; [apply He, H | exact Hin].
Qed.

Lemma backtrack_loop_total rec self var a :
  creator_ok self -> assignment_ok self a ->
  In var (variables (crossword self)) -> ~ In var (keys a) ->
  (forall a1, assignment_ok self a1 -> List.length a1 = S (List.length a) ->
     exists found a', rec a1 = Ok (found, a')
       /\ (found = false ->
           a' = a1 /\ forall s, solution self s -> extends s a1 -> False)) ->
  forall values, incl values (dom self var) ->
    exists found a', backtrack_loop rec self var values a = Ok (found, a')
      /\ (found = false ->
          forall s w, solution self s -> extends s a ->
                      In (var, w) s -> In w values -> False).
Proof.
  intros Hok Ha Hvar Hfresh Hrec.
  induction values as [|value values IH]; simpl; intros Hincl.
  - exists false, a. split; [reflexivity|]. intros _ s w _ _ _ [].
  - assert (Hval : In value (dom self var)) by (apply Hincl; left; reflexivity).
    assert (Hvals : incl values (dom self var)).
    { intros u Hu. apply Hincl. right. exact Hu. }
    destruct (IH Hvals) as [found' [a'' [Hloop Hnone]]].
    rewrite (setitem_fresh _ _ _ _ Hfresh).
    pose proof (assignment_ok_bind self a var value Ha Hvar Hfresh Hval) as Ha1.
    destruct (consistent_total self _ Hok Ha1) as [ok Ec]. rewrite Ec. simpl.
    assert (Hpop : pop (a ++ [(var, value)]) var = Ok a).
    { rewrite <- (setitem_fresh _ _ _ _ Hfresh). apply pop_setitem_fresh, Hfresh. }
    destruct ok.
    + destruct (Hrec _ Ha1) as [found [a2 [Er Hf]]].
      { rewrite length_app. simpl. lia. }
      rewrite Er. simpl. destruct found.
      * exists true, a2. split; [reflexivity | discriminate].
      * destruct (Hf eq_refl) as [-> Hno]. rewrite Hpop. simpl.
        exists found', a''. split; [exact Hloop|].
        intros Hfd s w Hs He Hin [<-|Hw].
        -- apply (Hno s Hs). apply extends_bind; assumption.
        -- apply (Hnone Hfd s w); assumption.
    + rewrite Hpop. simpl. exists found', a''. split; [exact Hloop|].
      intros Hfd s w Hs He Hin [<-|Hw].
      * assert (Hc : consistent self (a ++ [(var, value)]) = Ok true).
        { apply consistent_true.
          apply (consistentP_restrict _ s); [apply Hs | | apply Hs].
          apply extends_bind; assumption. }
        congruence.
      * apply (Hnone Hfd s w); assumption.
Qed.

(** Under the invariants and with a frame per unassigned variable the
    search returns; when it returns [None] it has restored the dictionary
    and no solution extends it. *)
Lemma backtrack_total fuel : forall self a,
  creator_ok self -> assignment_ok self a ->
  List.length (variables (crossword self)) < fuel + List.length a ->
  exists found a', backtrack fuel self a = Ok (found, a')
    /\ (found = false ->
        a' = a /\ forall s, solution self s -> extends s a -> False).
Proof.
  induction fuel as [|fuel IH]; intros self a Hok Ha Hfuel.
  - exfalso. pose proof (NoDup_incl_length (aok_nodup _ _ Ha) (aok_vars _ _ Ha)) as H.
    unfold keys in H. rewrite length_map in H. simpl in Hfuel. lia.
  - simpl. destruct (assignment_complete self a) eqn:Ec.
    { exists true, a. split; [reflexivity | discriminate]. }
    destruct (incomplete_unassigned self a (aok_vars _ _ Ha) Ec) as [u Hu].
    destruct (select_least self a u (ok_keys _ Hok) Hu) as [var [Hsel [Hvar _]]].
    rewrite Hsel. simpl. apply unassigned_spec in Hvar. destruct Hvar as [Hvar Hfresh].
    rewrite (order_domain_values_Ok self var a Hok Hvar). simpl.
    set (values := map snd (sort_by_key
                     (map (fun v => (conflict_count self var a v, v)) (dom self var)))).
    assert (Hperm : Permutation values (dom self var)).
    { apply order_domain_values_perm with (a := a).
      apply order_domain_values_Ok; assumption. }
    destruct (backtrack_loop_total (backtrack fuel self) self var a Hok Ha Hvar Hfresh)
      with (values := values) as [found [a' [Hloop Hnone]]].
    + intros a1 Ha1 Hlen. apply IH; [exact Hok | exact Ha1 | lia].
    + intros w Hw. eapply Permutation_in; eassumption.
    + exists found, a'. split; [exact Hloop|]. intros Hf. subst found. split.
      * eapply backtrack_loop_restores;
          [apply backtrack_restores | exact Hfresh | exact Hloop].
      * intros s Hs He.
        assert (Hk : In var (keys s)).
        { pose proof (sol_complete _ _ Hs) as Hc. apply set_eqb_spec in Hc.
          apply Hc, Hvar. }
        apply lookup_keys in Hk. destruct Hk as [w Hw]. apply lookup_In in Hw.
        apply (Hnone eq_refl s w Hs He Hw).
        apply Permutation_in with (l := dom self var);
          [symmetry; exact Hperm | apply (sol_dom _ _ Hs), Hw].
Qed.

(** ** Solutions survive the pruning *)

Lemma lookup_init c v :
  In v (variables c) -> lookup (domains (init c)) v = Some (words c).
Proof.
  unfold init. simpl. induction (variables c) as [|u l IH]; simpl; [intros []|].
  destruct (Var.eqb v u) eqn:E; [reflexivity|].
  apply var_eqb_neq in E. intros [H|H]; [congruence | apply IH, H].
Qed.

Lemma lookup_enforce self v ws :
  lookup (domains self) v = Some ws ->
  lookup (domains (enforce_node_consistency self)) v
  = Some (filter (fun word => Nat.eqb (String.length word) (Var.length v)) ws).
Proof.
  unfold enforce_node_consistency. simpl.
  induction (domains self) as [|[k u] d IH]; simpl; [discriminate|].
  destruct (Var.eqb v k) eqn:E.
  - apply var_eqb_eq in E. subst. intros [= ->]. reflexivity.
  - exact IH.
Qed.

Lemma dom_enforce_init c v :
  In v (variables c) ->
  dom (enforce_node_consistency (init c)) v
  = filter (fun word => Nat.eqb (String.length word) (Var.length v)) (words c).
Proof.
  intros Hv. apply dom_lookup, lookup_enforce, lookup_init, Hv.
Qed.




Lemma consistent_same_crossword self self' a :
  crossword self' = crossword self ->
  consistent self' a = Ok true -> consistent self a = Ok true.
Proof.
  intros Hc H. apply consistent_true. rewrite <- Hc. apply consistent_true, H.
Qed.

Lemma crossword_enforce self :
  crossword (enforce_node_consistency self) = crossword self.
Proof. reflexivity. Qed.

(** The shape of [solve] once AC-3 has returned. *)
Lemma solve_after_ac3 self b self2 :
  ac3 (enforce_node_consistency self) None = Ok (b, self2) ->
  solve self
  = ('(found, assignment) <-
        backtrack (S (List.length (variables (crossword self)))) self2 [] ;;
     Ok (if found then Some assignment else None),
     [CallEnforceNodeConsistency; CallAc3; CallBacktrack]).
Proof.
  intros H. unfold solve, solve_with, backtrack_method. rewrite H.
  rewrite (revise_steps_crossword _ _ (ac3_steps _ _ _ _ H)). reflexivity.
Qed.

Lemma solve_inv self a :
  fst (solve self) = Ok (Some a) ->
  exists b self2,
    ac3 (enforce_node_consistency self) None = Ok (b, self2)
    /\ backtrack (S (List.length (variables (crossword self)))) self2 [] = Ok (true, a).
Proof.
  unfold solve, solve_with, backtrack_method.
  destruct (ac3 (enforce_node_consistency self) None) as [[b self2]| |] eqn:E;
    simpl; try discriminate.
  rewrite (revise_steps_crossword _ _ (ac3_steps _ _ _ _ E)). simpl.
  intros H. inv_bind H as p Eb. destruct p as [found a']. destruct found; [|discriminate].
  injection H as <-. eauto.
Qed.

(** When AC-3 has emptied a domain, the first frame of the search picks a
    variable without candidates and returns [None]. *)
Lemma backtrack_empty_domain fuel self x :
  keys (domains self) = variables (crossword self) ->
  In x (variables (crossword self)) -> dom self x = [] ->
  backtrack (S fuel) self [] = Ok (false, []).
Proof.
  intros Hkeys Hx Hd. simpl.
  assert (Hu : In x (unassigned self [])).
  { apply unassigned_spec. split; [exact Hx | intros []]. }
  assert (Hc : assignment_complete self [] = false).
  { destruct (assignment_complete self []) eqn:E; [|reflexivity].
    apply set_eqb_spec in E. destruct E as [_ E]. destruct (E x Hx). }
  rewrite Hc.
  destruct (select_least self [] x Hkeys Hu) as [var [Hsel [Hvar Hmin]]].
  rewrite Hsel. simpl. specialize (Hmin x Hu). rewrite Hd in Hmin. simpl in Hmin.
  assert (Hdv : dom self var = []).
  { destruct (dom self var); [reflexivity | simpl in Hmin; lia]. }
  apply unassigned_spec in Hvar. destruct Hvar as [Hvar _].
  rewrite <- Hkeys in Hvar. apply lookup_keys in Hvar. destruct Hvar as [ws Hws].
  rewrite (dom_lookup _ _ _ Hws) in Hdv. subst ws.
  unfold order_domain_values, getitem. rewrite Hws. reflexivity.
Qed.

(** ** Sequences of pruning operations *)

Lemma prune_steps_revise_steps self self' :
  prune_steps self self' -> revise_steps self self'.
Proof.
  induction 1 as [self | self self1 self2 x y b _ IH Hr
                 | self self1 self2 arcs b _ IH Ha].
  - apply steps_refl.
  - eapply steps_snoc; eassumption.
  - eapply revise_steps_trans; [exact IH | eapply ac3_steps; exact Ha].
Qed.

(** What [solve] returns has passed both checks. *)
Lemma solve_sound (self : CrosswordCreator) (a : Assignment) :
  fst (solve self) = Ok (Some a) ->
  assignment_complete self a = true
  /\ incl (variables (crossword self)) (keys a)
  /\ consistent self a = Ok true
  /\ consistentP (crossword self) a.
Proof.
  intros H. apply solve_inv in H. destruct H as [b [self2 [Hac Hbt]]].
  pose proof (revise_steps_crossword _ _ (ac3_steps _ _ _ _ Hac)) as Hc.
  rewrite crossword_enforce in Hc.
  destruct (backtrack_sound _ _ _ _ Hbt) as [Hcomp [Hcons _]].
  assert (Hcomp' : assignment_complete self a = true).
  { unfold assignment_complete in *. rewrite <- Hc. exact Hcomp. }
  assert (Hcons' : consistent self a = Ok true).
  { apply (consistent_same_crossword self self2); [exact Hc|].
    destruct Hcons as [->|Hk]; [reflexivity | exact Hk]. }
  split; [exact Hcomp'|]. split; [apply set_eqb_spec in Hcomp'; apply Hcomp'|].
  split; [exact Hcons' | apply consistent_true, Hcons'].
Qed.

(** * Main results *)

Import Examples.
Open Scope string_scope.

(** C1, as stated, fails: on the grid [corner_fail] AC-3 returns false and
    [solve] still calls [backtrack]: with a method that returns the
    dictionary it is given, the body of [solve] returns that dictionary, not
    "no solution". *)
Lemma C1_backtrack_called_after_ac3_failure :
  exists self2,
    ac3 (enforce_node_consistency (init corner_fail)) None = Ok (false, self2)
    /\ fst (solve_with (fun _ assignment => Ok (true, assignment)) (init corner_fail))
       = Ok (Some [])
    /\ In CallBacktrack (snd (solve (init corner_fail))).
Proof.
  eexists. split; [reflexivity|]. split; [reflexivity|]. vm_compute. auto.
Qed.

(** C1, amended: on a well-formed graph [solve] enforces node consistency,
    runs AC-3 over all arcs, drops what AC-3 returns and always calls
    [backtrack] on the empty assignment, whose result it returns, whatever
    method [backtrack] is; AC-3 and the search both return; and when AC-3
    has returned false, some variable has an empty domain, the search
    returns [None] in its first frame and the result is no solution. *)
Theorem C1_solve_orchestration (c : Crossword) :
  wf_crossword c = true ->
  exists b self2 found a,
    ac3 (enforce_node_consistency (init c)) None = Ok (b, self2)
    /\ (forall method : Backtrack,
          solve_with method (init c)
          = ('(found', assignment) <- method self2 [] ;;
             Ok (if found' then Some assignment else None),
             [CallEnforceNodeConsistency; CallAc3; CallBacktrack]))
    /\ backtrack (S (List.length (variables c))) self2 [] = Ok (found, a)
    /\ solve (init c)
       = (Ok (if found then Some a else None),
          [CallEnforceNodeConsistency; CallAc3; CallBacktrack])
    /\ (b = false ->
        (exists x, In x (variables c) /\ dom self2 x = [])
        /\ backtrack 1 self2 [] = Ok (false, [])
        /\ found = false
        /\ solve (init c)
           = (Ok None, [CallEnforceNodeConsistency; CallAc3; CallBacktrack])).
Proof.
  intros Hwf. pose proof (init_enforce_ok c Hwf) as Hok1.
  destruct (ac3_total _ None Hok1) as [b [self2 Hac]].
  pose proof (ac3_steps _ _ _ _ Hac) as Hst.
  pose proof (revise_steps_creator_ok _ _ Hst Hok1) as Hok2.
  assert (Hc : crossword self2 = c) by apply (revise_steps_crossword _ _ Hst).
  destruct (backtrack_total (S (List.length (variables c))) self2 [] Hok2
              (assignment_ok_nil self2)) as [found [a [Hbt _]]].
  { rewrite Hc. simpl. lia. }
  assert (Hsolve : solve (init c)
                   = (Ok (if found then Some a else None),
                      [CallEnforceNodeConsistency; CallAc3; CallBacktrack])).
  { rewrite (solve_after_ac3 _ _ _ Hac). simpl crossword. rewrite Hbt. reflexivity. }
  exists b, self2, found, a. split; [exact Hac|]. split; [|split; [exact Hbt|]].
  - intros method. unfold solve_with. rewrite Hac. reflexivity.
  - split; [exact Hsolve|].
    intros ->. unfold ac3 in Hac. apply ac3_loop_false in Hac.
    destruct Hac as [x [Hx Hd]].
    assert (Hxv : In x (variables c)).
    { rewrite <- Hc, <- (ok_keys _ Hok2). exact Hx. }
    assert (Hfirst : forall fuel, backtrack (S fuel) self2 [] = Ok (false, [])).
    { intros fuel. apply (backtrack_empty_domain fuel self2 x (ok_keys _ Hok2));
        [rewrite Hc; exact Hxv | exact Hd]. }
    assert (Hfound : found = false).
    { rewrite Hfirst in Hbt. congruence. }
    split; [exists x; split; assumption|]. split; [apply Hfirst|].
    split; [exact Hfound|]. rewrite Hsolve, Hfound. reflexivity.
Qed.

Lemma C1_solve_orchestration_witness :
  wf_crossword corner_fail = true
  /\ exists b self2 found a,
       ac3 (enforce_node_consistency (init corner_fail)) None = Ok (b, self2)
       /\ (forall method : Backtrack,
             solve_with method (init corner_fail)
             = ('(found', assignment) <- method self2 [] ;;
                Ok (if found' then Some assignment else None),
                [CallEnforceNodeConsistency; CallAc3; CallBacktrack]))
       /\ backtrack (S (List.length (variables corner_fail))) self2 [] = Ok (found, a)
       /\ solve (init corner_fail)
          = (Ok (if found then Some a else None),
             [CallEnforceNodeConsistency; CallAc3; CallBacktrack])
       /\ (b = false ->
           (exists x, In x (variables corner_fail) /\ dom self2 x = [])
           /\ backtrack 1 self2 [] = Ok (false, [])
           /\ found = false
           /\ solve (init corner_fail)
              = (Ok None, [CallEnforceNodeConsistency; CallAc3; CallBacktrack])).
Proof.
  split; [reflexivity | apply (C1_solve_orchestration corner_fail); reflexivity].
Defined.

(** C2: an assignment returned by [solve] is complete (every variable of the
    graph is bound) and consistent (the check [consistent] accepts it: every
    bound word has the length of its slot, and the words of neighboring
    slots agree at the shared cell). *)
Theorem C2_solve_sound (self : CrosswordCreator) (a : Assignment) :
  fst (solve self) = Ok (Some a) ->
  assignment_complete self a = true
  /\ incl (variables (crossword self)) (keys a)
  /\ consistent self a = Ok true
  /\ consistentP (crossword self) a.
Proof. apply solve_sound. Qed.

Lemma C2_solve_sound_witness :
  fst (solve (init corner)) = Ok (Some [(across3, "ABC"); (down3, "CBA")])
  /\ assignment_complete (init corner) [(across3, "ABC"); (down3, "CBA")] = true
  /\ incl (variables (crossword (init corner)))
          (keys [(across3, "ABC"); (down3, "CBA")])
  /\ consistent (init corner) [(across3, "ABC"); (down3, "CBA")] = Ok true
  /\ consistentP (crossword (init corner)) [(across3, "ABC"); (down3, "CBA")].
Proof.
  split; [reflexivity|].
  apply (C2_solve_sound (init corner) [(across3, "ABC"); (down3, "CBA")]).
  reflexivity.
Defined.



(** C4: where [revise(x, y)] raises nothing it returns; without an overlap
    it returns false and changes nothing; with the overlap [(i, j)] a word
    [vx] is in the new domain of [x] iff it was in the old one and some [vy]
    in the domain of [y] has [vx[i] == vy[j]], and the returned boolean is
    true iff the domain of [x] changed. *)
Theorem C4_revise_spec (self : CrosswordCreator) (x y : Var.t) :
  revise_defined self x y = true ->
  exists revised self',
    revise self x y = Ok (revised, self')
    /\ match overlaps_get (crossword self) x y with
       | None => revised = false /\ self' = self
       | Some (i, j) =>
           (forall vx, In vx (dom self' x) <->
                       In vx (dom self x)
                       /\ exists vy, In vy (dom self y) /\ agree vx i vy j)
           /\ (revised = true <-> dom self' x <> dom self x)
       end.
Proof.
  unfold revise_defined.
  destruct (overlaps_get (crossword self) x y) as [[i j]|] eqn:Eo.
  2:{ intros _. exists false, self. unfold revise. rewrite Eo. auto. }
  rewrite !andb_true_iff. intros [[[Hx Hy] Hi] Hj].
  apply contains_In, lookup_keys in Hx, Hy.
  destruct Hx as [dx Hx], Hy as [dy Hy].
  rewrite (dom_lookup _ _ _ Hx) in *. rewrite (dom_lookup _ _ _ Hy) in *.
  rewrite (revise_Ok self x y i j dx dy Eo Hx Hy Hi Hj).
  eexists. eexists. split; [reflexivity|]. rewrite dom_set_same. split.
  - intros vx. rewrite filter_In, supported_spec. reflexivity.
  - rewrite negb_true_iff. split.
    + intros Hf Heq. apply filter_id_forallb in Heq. congruence.
    + intros Hne. destruct (forallb (supported i j dy) dx) eqn:Ef; [|reflexivity].
      exfalso. apply Hne, forallb_filter_id, Ef.
Qed.

Lemma C4_revise_spec_witness :
  revise_defined corner_node across3 down3 = true
  /\ exists revised self',
       revise corner_node across3 down3 = Ok (revised, self')
       /\ match overlaps_get (crossword corner_node) across3 down3 with
          | None => revised = false /\ self' = corner_node
          | Some (i, j) =>
              (forall vx, In vx (dom self' across3) <->
                          In vx (dom corner_node across3)
                          /\ exists vy, In vy (dom corner_node down3)
                                        /\ agree vx i vy j)
              /\ (revised = true <-> dom self' across3 <> dom corner_node across3)
          end.
Proof.
  split; [reflexivity | apply (C4_revise_spec corner_node across3 down3); reflexivity].
Defined.

(** C5: when [ac3], started from all arcs on a well-formed graph, returns
    true, every word left for [x] has, for every [y] overlapping [x] at
    [(i, j)], a word left for [y] with the same character at the shared
    cell. *)
Theorem C5_ac3_fixed_point (self self' : CrosswordCreator) (x y : Var.t)
    (i j : nat) (vx : string) :
  wf_crossword (crossword self) = true ->
  ac3 self None = Ok (true, self') ->
  overlaps_get (crossword self) x y = Some (i, j) ->
  In vx (dom self' x) ->
  exists vy, In vy (dom self' y) /\ agree vx i vy j.
Proof.
  intros Hwf Hac Ho Hvx.
  pose proof (revise_steps_crossword _ _ (ac3_steps _ _ _ _ Hac)) as Hc.
  unfold ac3 in Hac.
  pose proof (ac3_loop_fixed_point _ _ _ _ Hwf (arcs_inv_all self Hwf) Hac) as Hinv.
  rewrite <- Hc in Ho. destruct (Hinv x y i j Ho) as [[]|Hcons].
  unfold arc_consistent in Hcons. rewrite forallb_forall in Hcons.
  apply supported_spec, Hcons, Hvx.
Qed.

Lemma C5_ac3_fixed_point_witness :
  wf_crossword (crossword corner_node) = true
  /\ ac3 corner_node None = Ok (true, corner_arc)
  /\ overlaps_get (crossword corner_node) across3 down3 = Some (2, 0)
  /\ In "ABC" (dom corner_arc across3)
  /\ exists vy, In vy (dom corner_arc down3) /\ agree "ABC" 2 vy 0.
Proof.
  assert (H1 : wf_crossword (crossword corner_node) = true) by reflexivity.
  assert (H2 : ac3 corner_node None = Ok (true, corner_arc)) by reflexivity.
  assert (H3 : overlaps_get (crossword corner_node) across3 down3 = Some (2, 0))
    by reflexivity.
  assert (H4 : In "ABC" (dom corner_arc across3)) by (left; reflexivity).
  repeat (split; [assumption|]).
  exact (C5_ac3_fixed_point corner_node corner_arc across3 down3 2 0 "ABC"
           H1 H2 H3 H4).
Defined.

(** C6, as stated, fails: on the grid [comb] after node consistency the
    values of the long slot come out as BXXXX, ABCBD, while BXXXX leaves two
    neighbors without a compatible word and ABCBD only one. *)
Lemma C6_not_ascending_by_no_support :
  order_domain_values comb_node across5 [] = Ok ["BXXXX"; "ABCBD"]
  /\ map (no_support_count comb_node across5 []) ["BXXXX"; "ABCBD"] = [2; 1]
  /\ ascending (map (no_support_count comb_node across5 []) ["BXXXX"; "ABCBD"])
     = false.
Proof. repeat split; reflexivity. Qed.

(** C6, amended: in a state of the solver [order_domain_values(var, a)]
    returns the words of the domain of [var], each once, in ascending order
    of [conflict_count]: the number of unassigned neighbors of [var] that
    have some word differing from the value at the shared cell. *)
Theorem C6_order_domain_values (self : CrosswordCreator) (var : Var.t)
    (a : Assignment) :
  wf_crossword (crossword self) = true ->
  keys (domains self) = variables (crossword self) ->
  node_consistent (domains self) = true ->
  In var (variables (crossword self)) ->
  exists values,
    order_domain_values self var a = Ok values
    /\ Permutation values (dom self var)
    /\ ascending (map (conflict_count self var a) values) = true.
Proof.
  intros Hwf Hkeys Hnode Hvar.
  assert (Hok : creator_ok self) by (constructor; assumption).
  pose proof (order_domain_values_Ok self var a Hok Hvar) as Hodv.
  eexists. split; [exact Hodv|]. split.
  - apply (order_domain_values_perm self var a), Hodv.
  - set (kvs := map (fun v => (conflict_count self var a v, v)) (dom self var)).
    assert (Hfst : forall p, In p (sort_by_key kvs) ->
                             conflict_count self var a (snd p) = fst p).
    { intros p Hp. apply (Permutation_in _ (sort_by_key_perm kvs)) in Hp.
      apply in_map_iff in Hp. destruct Hp as [v [<- _]]. reflexivity. }
    rewrite map_map. rewrite (map_ext_in _ fst _ Hfst).
    apply sort_by_key_ascending.
Qed.

Lemma C6_order_domain_values_witness :
  wf_crossword (crossword comb_node) = true
  /\ keys (domains comb_node) = variables (crossword comb_node)
  /\ node_consistent (domains comb_node) = true
  /\ In across5 (variables (crossword comb_node))
  /\ exists values,
       order_domain_values comb_node across5 [] = Ok values
       /\ Permutation values (dom comb_node across5)
       /\ ascending (map (conflict_count comb_node across5 []) values) = true.
Proof.
  assert (H1 : wf_crossword (crossword comb_node) = true) by reflexivity.
  assert (H2 : keys (domains comb_node) = variables (crossword comb_node))
    by reflexivity.
  assert (H3 : node_consistent (domains comb_node) = true) by reflexivity.
  assert (H4 : In across5 (variables (crossword comb_node))) by (left; reflexivity).
  repeat (split; [assumption|]).
  exact (C6_order_domain_values comb_node across5 [] H1 H2 H3 H4).
Defined.

(** C7, as stated, fails: a call that succeeds returns without unbinding;
    on the grid [corner] the dictionary passed in empty holds both bindings
    when [backtrack] returns. *)
Lemma C7_bindings_kept_on_success :
  backtrack 3 corner_arc [] = Ok (true, [(across3, "ABC"); (down3, "CBA")])
  /\ [(across3, "ABC"); (down3, "CBA")] <> ([] : Assignment).
Proof. split; [reflexivity | discriminate]. Qed.

(** C7, amended: a call of [backtrack] that returns [None] has undone every
    binding it made, so the dictionary is as it was on entry and nothing
    leaks into a sibling branch or to the caller; a call that returns the
    assignment keeps its bindings: the dictionary is then complete and
    extends the one passed in. *)
Theorem C7_backtrack_bindings (fuel : nat) (self : CrosswordCreator)
    (a a' : Assignment) (found : bool) :
  backtrack fuel self a = Ok (found, a') ->
  if found
  then assignment_complete self a' = true /\ exists ext, a' = (a ++ ext)%list
  else a' = a.
Proof.
  destruct found; intros H.
  - destruct (backtrack_sound _ _ _ _ H) as [Hc [_ Hext]]. auto.
  - apply (backtrack_restores _ _ _ _ H).
Qed.

Lemma C7_backtrack_bindings_witness :
  backtrack 2 corner_arc [(across3, "XYZ")] = Ok (false, [(across3, "XYZ")])
  /\ [(across3, "XYZ")] = [(across3, "XYZ")].
Proof.
  split; [reflexivity|].
  exact (C7_backtrack_bindings 2 corner_arc [(across3, "XYZ")] [(across3, "XYZ")]
           false eq_refl).
Defined.

(** C8: after [enforce_node_consistency], and after any sequence of [revise]
    and [ac3] calls that follows it, every word in the domain of a variable
    has the length of the variable. *)
Theorem C8_length_invariant (self self' : CrosswordCreator) (v : Var.t)
    (w : string) :
  prune_steps (enforce_node_consistency self) self' ->
  In w (dom self' v) ->
  String.length w = Var.length v.
Proof.
  intros Hst Hin. apply (node_consistent_dom self' v w); [|exact Hin].
  apply (revise_steps_node_consistent (enforce_node_consistency self)).
  - apply prune_steps_revise_steps, Hst.
  - apply enforce_node_consistent.
Qed.

Lemma C8_length_invariant_witness :
  prune_steps (enforce_node_consistency (init corner)) corner_arc
  /\ In "CBA" (dom corner_arc down3)
  /\ String.length "CBA" = Var.length down3.
Proof.
  assert (H1 : prune_steps (enforce_node_consistency (init corner)) corner_arc).
  { apply (prune_ac3 _ (enforce_node_consistency (init corner)) corner_arc None true).
    - apply prune_refl.
    - reflexivity. }
  assert (H2 : In "CBA" (dom corner_arc down3)) by (right; left; reflexivity).
  split; [exact H1|]. split; [exact H2|].
  exact (C8_length_invariant (init corner) corner_arc down3 "CBA" H1 H2).
Defined.

(** C9: across any sequence of [revise] calls every domain after the calls
    is included in the domain before them and is not longer, and a word
    missing at some point of the sequence is missing ever after. *)
Theorem C9_monotonic_shrinkage (self self' self'' : CrosswordCreator)
    (z : Var.t) (w : string) :
  revise_steps self self' ->
  revise_steps self' self'' ->
  incl (dom self' z) (dom self z)
  /\ List.length (dom self' z) <= List.length (dom self z)
  /\ (~ In w (dom self' z) -> ~ In w (dom self'' z)).
Proof.
  intros H1 H2. destruct (revise_steps_shrink _ _ z H1) as [Hi Hl].
  split; [exact Hi|]. split; [exact Hl|].
  intros Hn Hin. apply Hn. apply (proj1 (revise_steps_shrink _ _ z H2)), Hin.
Qed.

Lemma C9_monotonic_shrinkage_witness :
  revise_steps corner_node corner_revised
  /\ revise_steps corner_revised corner_arc
  /\ incl (dom corner_revised across3) (dom corner_node across3)
  /\ List.length (dom corner_revised across3)
     <= List.length (dom corner_node across3)
  /\ (~ In "XYZ" (dom corner_revised across3) -> ~ In "XYZ" (dom corner_arc across3)).
Proof.
  assert (H1 : revise_steps corner_node corner_revised).
  { apply (steps_snoc corner_node corner_node corner_revised across3 down3 true).
    - apply steps_refl.
    - reflexivity. }
  assert (H2 : revise_steps corner_revised corner_arc).
  { apply (steps_snoc corner_revised corner_revised corner_arc down3 across3 true).
    - apply steps_refl.
    - reflexivity. }
  split; [exact H1|]. split; [exact H2|].
  exact (C9_monotonic_shrinkage corner_node corner_revised corner_arc across3 "XYZ"
           H1 H2).
Defined.

(** C10: a call of [revise(x, y)] that returns leaves the graph and the keys
    of the dictionary as they were and the domain of every variable other
    than [x] unchanged; on a well-formed graph that includes the domain of
    [y]. *)
Theorem C10_revise_frame (self self' : CrosswordCreator) (x y : Var.t)
    (revised : bool) :
  revise self x y = Ok (revised, self') ->
  crossword self' = crossword self
  /\ keys (domains self') = keys (domains self)
  /\ (forall z, z <> x -> lookup (domains self') z = lookup (domains self) z)
  /\ (wf_crossword (crossword self) = true ->
      lookup (domains self') y = lookup (domains self) y).
Proof.
  intros H. split; [apply (revise_crossword _ _ _ _ _ H)|].
  split; [apply (revise_keys _ _ _ _ _ H)|]. split.
  - intros z Hz. apply (revise_lookup_other _ _ _ _ _ _ H Hz).
  - intros Hwf. destruct (overlaps_get (crossword self) x y) as [[i j]|] eqn:Eo.
    + apply (revise_lookup_other _ _ _ _ _ _ H).
      intros Heq. apply (of_distinct _ _ _ _ _ (wf_overlap _ _ _ _ _ Hwf Eo)).
      symmetry. exact Heq.
    + unfold revise in H. rewrite Eo in H. injection H as _ <-. reflexivity.
Qed.

Lemma C10_revise_frame_witness :
  revise corner_node across3 down3 = Ok (true, corner_revised)
  /\ crossword corner_revised = crossword corner_node
  /\ keys (domains corner_revised) = keys (domains corner_node)
  /\ (forall z, z <> across3 ->
                lookup (domains corner_revised) z = lookup (domains corner_node) z)
  /\ (wf_crossword (crossword corner_node) = true ->
      lookup (domains corner_revised) down3 = lookup (domains corner_node) down3).
Proof.
  assert (H : revise corner_node across3 down3 = Ok (true, corner_revised))
    by reflexivity.
  split; [exact H|].
  exact (C10_revise_frame corner_node corner_revised across3 down3 true H).
Defined.

(** * Further properties of the generator *)

Close Scope string_scope.

(** ** [__init__] and [enforce_node_consistency] *)

Lemma lookup_init_other c v :
  ~ In v (variables c) -> lookup (domains (init c)) v = None.
Proof.
  unfold init. simpl. induction (variables c) as [|u l IH]; simpl; [reflexivity|].
  intros Hn. destruct (Var.eqb v u) eqn:E.
  - apply var_eqb_eq in E. subst. exfalso. apply Hn. left. reflexivity.
  - apply IH. intros H. apply Hn. right. exact H.
Qed.

Lemma lookup_enforce_None self v :
  lookup (domains self) v = None ->
  lookup (domains (enforce_node_consistency self)) v = None.
Proof.
  unfold enforce_node_consistency. simpl.
  induction (domains self) as [|[k u] d IH]; simpl; [reflexivity|].
  destruct (Var.eqb v k); [discriminate | exact IH].
Qed.

Lemma dom_enforce self v :
  dom (enforce_node_consistency self) v
  = filter (fun word => Nat.eqb (String.length word) (Var.length v)) (dom self v).
Proof.
  unfold dom at 2. destruct (lookup (domains self) v) as [ws|] eqn:E.
  - apply dom_lookup, lookup_enforce, E.
  - unfold dom. rewrite (lookup_enforce_None _ _ E). reflexivity.
Qed.

Lemma filter_idem (A : Type) (f : A -> bool) (l : list A) :
  filter f (filter f l) = filter f l.
Proof.
  induction l as [|a l IH]; simpl; [reflexivity|].
  destruct (f a) eqn:E; simpl; [rewrite E, IH; reflexivity | exact IH].
Qed.

(** ** [revise] once more *)

Lemma setitem_same (V : Type) (d : dict V) k v :
  lookup d k = Some v -> setitem d k v = d.
Proof.
  induction d as [|[k' v'] d IH]; simpl; [discriminate|].
  destruct (Var.eqb k k') eqn:E.
  - intros [= ->]. reflexivity.
  - intros H. rewrite (IH H). reflexivity.
Qed.

Lemma set_domains_same self : set_domains self (domains self) = self.
Proof. destruct self. reflexivity. Qed.

Lemma revise_false_same self x y self' :
  revise self x y = Ok (false, self') -> self' = self.
Proof.
  intros H. apply revise_inv in H.
  destruct H as [[_ [_ ->]] | [i [j [dx [dy [_ [Hx [_ [Hb ->]]]]]]]]]; [reflexivity|].
  symmetry in Hb. apply negb_false_iff in Hb.
  rewrite (forallb_filter_id _ _ Hb), (setitem_same _ _ _ _ Hx).
  apply set_domains_same.
Qed.

(** A loop of [revise] that returns has evaluated the inner test on every
    word. *)
Lemma revise_loop_tests self y i j : forall dx tr rev r wx,
  revise_loop self y i j dx tr rev = Ok r -> In wx dx ->
  exists dy, lookup (domains self) y = Some dy
             /\ any_agree wx i j dy = Ok (supported i j dy wx).
Proof.
  induction dx as [|w dx IH]; simpl; intros tr rev r wx H Hin; [destruct Hin|].
  inv_bind H as dy Ey. inv_bind H as found Ef. apply getitem_Ok in Ey.
  destruct Hin as [<-|Hin].
  - exists dy. split; [exact Ey|]. rewrite Ef. f_equal.
    apply any_agree_inv, Ef.
  - destruct found; eapply IH; eassumption.
Qed.

Lemma revise_loop_supported self y i j dy : forall dx,
  lookup (domains self) y = Some dy ->
  (forall wx, In wx dx -> any_agree wx i j dy = Ok true) ->
  revise_loop self y i j dx [] false = Ok ([], false).
Proof.
  intros dx Hy. induction dx as [|w dx IH]; simpl; intros Hall; [reflexivity|].
  rewrite (proj2 (getitem_Ok _ _ _ _) Hy). simpl.
  rewrite (Hall w (or_introl eq_refl)). simpl.
  apply IH. intros wx Hwx. apply Hall. right. exact Hwx.
Qed.

Lemma set_diff_nil l : set_diff l [] = l.
Proof. unfold set_diff. apply forallb_filter_id, forallb_forall. reflexivity. Qed.

Lemma revise_twice self x y b self' :
  x <> y -> revise self x y = Ok (b, self') -> revise self' x y = Ok (false, self').
Proof.
  intros Hne H.
  pose proof (revise_crossword _ _ _ _ _ H) as Hc.
  pose proof (revise_lookup_other _ _ _ _ _ y H (not_eq_sym Hne)) as Hy'.
  destruct (overlaps_get (crossword self) x y) as [[i j]|] eqn:Eo.
  2:{ unfold revise in H |- *. rewrite Eo in H. injection H as _ <-.
      rewrite Eo. reflexivity. }
  destruct (revise_inv_dom _ _ _ _ _ _ _ H Eo) as [_ Hself].
  assert (Hx' : lookup (domains self') x
                = Some (filter (supported i j (dom self y)) (dom self x))).
  { rewrite <- Hself. simpl. apply lookup_setitem_same. }
  unfold revise in H. rewrite Eo in H.
  inv_bind H as dx Ex. apply getitem_Ok in Ex. inv_bind H as p El. clear H.
  rewrite (dom_lookup _ _ _ Ex) in Hx'.
  unfold revise. rewrite Hc, Eo. rewrite (proj2 (getitem_Ok _ _ _ _) Hx'). simpl.
  assert (Hloop : revise_loop self' y i j (filter (supported i j (dom self y)) dx)
                    [] false = Ok ([], false)).
  { destruct (filter (supported i j (dom self y)) dx) as [|w0 l0] eqn:Ef;
      [reflexivity|].
    assert (Hw0 : In w0 dx).
    { apply (incl_filter (supported i j (dom self y)) dx). rewrite Ef. left.
      reflexivity. }
    destruct (revise_loop_tests _ _ _ _ _ _ _ _ _ El Hw0) as [dy [Hy _]].
    rewrite <- Ef. apply (revise_loop_supported self' y i j dy).
    - rewrite Hy'. exact Hy.
    - intros wx Hwx. apply filter_In in Hwx. destruct Hwx as [Hwx Hs].
      destruct (revise_loop_tests _ _ _ _ _ _ _ _ _ El Hwx) as [dy' [Hy2 Ht]].
      rewrite Hy in Hy2. injection Hy2 as <-.
      rewrite (dom_lookup _ _ _ Hy) in Hs. rewrite Ht, Hs. reflexivity. }
  rewrite Hloop. simpl. rewrite set_diff_nil, (setitem_same _ _ _ _ Hx').
  rewrite set_domains_same. reflexivity.
Qed.

(** ** [ac3] once more *)

Lemma revise_steps_keys self self' :
  revise_steps self self' -> keys (domains self') = keys (domains self).
Proof.
  induction 1 as [self | self self1 self2 x y b _ IH Hr]; [reflexivity|].
  rewrite (revise_keys _ _ _ _ _ Hr). exact IH.
Qed.

(** A family in which every word has its partners loses no word. *)
Lemma revise_keeps_family self x y b self' (P : Var.t -> string -> Prop) :
  ac_family (crossword self) P ->
  (forall v w, P v w -> In w (dom self v)) ->
  revise self x y = Ok (b, self') ->
  forall v w, P v w -> In w (dom self' v).
Proof.
  intros Hac Hin Hr v w Hp.
  destruct (var_eq_dec v x) as [->|Hne];
    [|rewrite (revise_dom_other _ _ _ _ _ _ Hr Hne); apply Hin, Hp].
  destruct (overlaps_get (crossword self) x y) as [[i j]|] eqn:Eo.
  2:{ unfold revise in Hr. rewrite Eo in Hr. injection Hr as _ <-. apply Hin, Hp. }
  destruct (revise_inv_dom _ _ _ _ _ _ _ Hr Eo) as [_ <-].
  rewrite dom_set_same. apply filter_In. split; [apply Hin, Hp|].
  destruct (Hac x y i j w Eo Hp) as [wy [Hpy Hag]].
  apply supported_spec. exists wy. split; [apply Hin, Hpy | exact Hag].
Qed.

Lemma revise_steps_keep_family self self' (P : Var.t -> string -> Prop) :
  revise_steps self self' ->
  ac_family (crossword self) P ->
  (forall v w, P v w -> In w (dom self v)) ->
  forall v w, P v w -> In w (dom self' v).
Proof.
  induction 1 as [self | self self1 self2 x y b Hst IH Hr]; intros Hac Hin;
    [exact Hin|].
  eapply revise_keeps_family; [| apply IH; assumption | exact Hr].
  rewrite (revise_steps_crossword _ _ Hst). exact Hac.
Qed.

Lemma overlaps_find_In o x y v :
  overlaps_find o x y = Some v -> In ((x, y), v) o.
Proof.
  induction o as [|[[x' y'] v'] o IH]; simpl; [discriminate|].
  destruct (Var.eqb x x' && Var.eqb y y') eqn:E.
  - apply andb_true_iff in E. destruct E as [E1 E2].
    apply var_eqb_eq in E1, E2. subst. intros [= ->]. left. reflexivity.
  - intros H. right. apply IH, H.
Qed.

Lemma overlaps_get_In c x y p :
  overlaps_get c x y = Some p -> In ((x, y), Some p) (overlaps c).
Proof.
  unfold overlaps_get. destruct (overlaps_find (overlaps c) x y) as [v|] eqn:E;
    [|discriminate].
  intros ->. apply overlaps_find_In, E.
Qed.

Lemma arc_consistent_all_family self :
  arc_consistent_all self = true ->
  ac_family (crossword self) (fun v w => In w (dom self v)).
Proof.
  unfold arc_consistent_all. rewrite forallb_forall.
  intros H x y i j wx Ho Hwx. apply overlaps_get_In in Ho.
  specialize (H _ Ho). simpl in H. unfold arc_consistent in H.
  rewrite forallb_forall in H. apply supported_spec, H, Hwx.
Qed.

Lemma arcs_inv_nil_family self :
  arcs_inv self [] -> ac_family (crossword self) (fun v w => In w (dom self v)).
Proof.
  intros H x y i j wx Ho Hwx. destruct (H x y i j Ho) as [[]|Hc].
  unfold arc_consistent in Hc. rewrite forallb_forall in Hc.
  apply supported_spec, Hc, Hwx.
Qed.

Lemma included_in_spec D self :
  included_in D self = true <->
  (forall v ws w, In (v, ws) D -> In w ws -> In w (dom self v)).
Proof.
  unfold included_in. rewrite forallb_forall. split.
  - intros H v ws w He Hw. specialize (H _ He). simpl in H.
    rewrite forallb_forall in H. apply mem_str_In, H, Hw.
  - intros H [v ws] He. simpl. rewrite forallb_forall. intros w Hw.
    apply mem_str_In. eapply H; eassumption.
Qed.

(** In a run that returns true no domain with a word has lost them all. *)
Lemma ac3_loop_true_nonempty fuel : forall self arcs self' z,
  ac3_loop fuel self arcs = Ok (true, self') ->
  dom self z <> [] -> dom self' z <> [].
Proof.
  induction fuel as [|fuel IH]; intros self arcs self' z; simpl.
  - destruct (pop_last arcs) as [[arcs' [x y]]|]; [discriminate|].
    intros [= <-]. auto.
  - destruct (pop_last arcs) as [[arcs' [x y]]|]; [|intros [= <-]; auto].
    intros H Hz. inv_bind H as p Er. destruct p as [revised self1].
    destruct revised.
    + inv_bind H as dx Ex. destruct dx as [|w dx]; [discriminate|].
      apply (IH _ _ _ z H). apply getitem_Ok in Ex.
      destruct (var_eq_dec z x) as [->|Hne].
      * rewrite (dom_lookup _ _ _ Ex). discriminate.
      * rewrite (revise_dom_other _ _ _ _ _ _ Er Hne). exact Hz.
    + apply revise_false_same in Er. subst self1. apply (IH _ _ _ z H Hz).
Qed.

(** When the loop gives up, the emptied domain had a word at the start. *)
Lemma ac3_loop_false_was_nonempty fuel : forall self arcs self',
  ac3_loop fuel self arcs = Ok (false, self') ->
  exists x, In x (keys (domains self')) /\ dom self' x = [] /\ dom self x <> [].
Proof.
  induction fuel as [|fuel IH]; intros self arcs self'; simpl.
  - destruct (pop_last arcs) as [[arcs' [x y]]|]; discriminate.
  - destruct (pop_last arcs) as [[arcs' [x y]]|]; [|discriminate].
    intros H. inv_bind H as p Er. destruct p as [revised self1].
    destruct revised.
    + inv_bind H as dx Ex. destruct dx as [|w dx].
      * injection H as <-. apply getitem_Ok in Ex. exists x. split.
        -- apply lookup_keys. eauto.
        -- split; [apply dom_lookup, Ex|].
           destruct (revise_dom_same _ _ _ _ _ Er) as [f [_ Hb]].
           intros Hd. rewrite Hd in Hb. discriminate.
      * apply IH in H. destruct H as [z [H1 [H2 H3]]]. exists z.
        split; [exact H1|]. split; [exact H2|]. intros Hd. apply H3.
        destruct (revise_shrinks _ _ _ _ _ z Er) as [Hi _].
        rewrite Hd in Hi. destruct (dom self1 z) as [|w0 l0]; [reflexivity|].
        destruct (Hi w0 (or_introl eq_refl)).
    + apply revise_false_same in Er. subst self1. apply IH in H. exact H.
Qed.

(** On an arc-consistent state of the solver the loop changes nothing. *)
Lemma ac3_loop_consistent fuel : forall self arcs,
  creator_ok self -> arcs_inv self [] -> List.length arcs <= fuel ->
  ac3_loop fuel self arcs = Ok (true, self).
Proof.
  induction fuel as [|fuel IH]; intros self arcs Hok Hinv Hlen.
  - destruct arcs; [reflexivity | simpl in Hlen; lia].
  - simpl. destruct (pop_last arcs) as [[arcs' [x y]]|] eqn:Ep; [|reflexivity].
    apply pop_last_Some in Ep. subst arcs. rewrite length_app in Hlen. simpl in Hlen.
    assert (Hr : revise self x y = Ok (false, self)).
    { destruct (overlaps_get (crossword self) x y) as [[i j]|] eqn:Eo.
      - pose proof (revise_ok_eq _ _ _ _ _ Hok Eo) as Hr.
        destruct (Hinv x y i j Eo) as [[]|Hc]. unfold arc_consistent in Hc.
        rewrite Hc in Hr. simpl in Hr. rewrite Hr. f_equal. f_equal.
        apply (revise_false_same self x y). exact Hr.
      - unfold revise. rewrite Eo. reflexivity. }
    rewrite Hr. simpl. apply IH; [exact Hok | exact Hinv | lia].
Qed.

Lemma arc_eqb_eq a b : arc_eqb a b = true <-> a = b.
Proof.
  destruct a as [x y], b as [x' y']. unfold arc_eqb. simpl.
  rewrite andb_true_iff, !var_eqb_eq. split; [intros [-> ->] | intros [= -> ->]]; auto.
Qed.

Lemma covers_all_arcs_inv self arcs :
  wf_crossword (crossword self) = true ->
  covers_all_arcs self arcs = true -> arcs_inv self arcs.
Proof.
  intros Hwf Hcov x y i j Ho.
  destruct (arcs_inv_all self Hwf x y i j Ho) as [Hin|Hc]; [left | right; exact Hc].
  unfold covers_all_arcs in Hcov. rewrite forallb_forall in Hcov.
  specialize (Hcov _ Hin). apply existsb_exists in Hcov.
  destruct Hcov as [a [Ha He]]. apply arc_eqb_eq in He. subst a. exact Ha.
Qed.

(** Two runs from worklists that hold every arc agree. *)
Lemma ac3_runs_true_included self arcs1 arcs2 b1 s1 s2 :
  wf_crossword (crossword self) = true ->
  covers_all_arcs self arcs2 = true ->
  ac3 self (Some arcs1) = Ok (b1, s1) ->
  ac3 self (Some arcs2) = Ok (true, s2) ->
  forall v w, In w (dom s2 v) -> In w (dom s1 v).
Proof.
  intros Hwf Hc2 H1 H2.
  pose proof (ac3_steps _ _ _ _ H1) as St1.
  pose proof (ac3_steps _ _ _ _ H2) as St2.
  pose proof (revise_steps_crossword _ _ St2) as Hcr2.
  unfold ac3 in H2.
  pose proof (ac3_loop_fixed_point _ _ _ _ Hwf (covers_all_arcs_inv _ _ Hwf Hc2) H2)
    as Hinv2.
  apply arcs_inv_nil_family in Hinv2. rewrite Hcr2 in Hinv2.
  apply (revise_steps_keep_family self s1 (fun v w => In w (dom s2 v)) St1 Hinv2).
  intros v w Hw. apply (proj1 (revise_steps_shrink _ _ v St2)), Hw.
Qed.

(** ** [select_unassigned_variable] once more *)

Lemma key_ltb_spec k1 k2 :
  key_ltb k1 k2 = true <->
  (fst k1 < fst k2 \/ (fst k1 = fst k2 /\ (snd k1 < snd k2)%Z)).
Proof.
  unfold key_ltb. rewrite orb_true_iff, andb_true_iff, Nat.ltb_lt, Nat.eqb_eq, Z.ltb_lt.
  reflexivity.
Qed.

Lemma key_ltb_false k1 k2 :
  key_ltb k1 k2 = false <->
  (fst k2 < fst k1 \/ (fst k1 = fst k2 /\ (snd k2 <= snd k1)%Z)).
Proof.
  destruct (key_ltb k1 k2) eqn:E.
  - apply key_ltb_spec in E. split; [discriminate | lia].
  - split; [|reflexivity]. intros _.
    destruct (Nat.lt_trichotomy (fst k1) (fst k2)) as [H|[H|H]].
    + assert (key_ltb k1 k2 = true) by (apply key_ltb_spec; lia). congruence.
    + destruct (Z_lt_le_dec (snd k1) (snd k2)) as [Hz|Hz]; [|lia].
      assert (key_ltb k1 k2 = true) by (apply key_ltb_spec; lia). congruence.
    + lia.
Qed.

Lemma mrv_key_inv self v k : mrv_key self v = Ok k -> k = mrv_key_of self v.
Proof.
  unfold mrv_key, mrv_key_of. intros H. inv_bind H as dv Ed.
  apply getitem_Ok in Ed. rewrite (dom_lookup _ _ _ Ed). congruence.
Qed.

Lemma mrv_key_raises self v e : mrv_key self v = Raise e -> e = KeyError.
Proof.
  unfold mrv_key, getitem. destruct (lookup (domains self) v); simpl; congruence.
Qed.

Lemma min_by_key_raises self : forall l best kbest e,
  min_by_key self best kbest l = Raise e -> e = KeyError.
Proof.
  induction l as [|v l IH]; simpl; intros best kbest e H; [discriminate|].
  destruct (mrv_key self v) as [k|e'|] eqn:Ek; simpl in H.
  - destruct (key_ltb k kbest); eapply IH; exact H.
  - injection H as <-. eapply mrv_key_raises. exact Ek.
  - discriminate.
Qed.

(** The least key wins, and among equals the first. *)
Lemma min_by_key_split self : forall l best r pre mid,
  (forall u, In u pre ->
     key_ltb (mrv_key_of self best) (mrv_key_of self u) = true) ->
  (forall u, In u mid ->
     key_ltb (mrv_key_of self u) (mrv_key_of self best) = false) ->
  min_by_key self best (mrv_key_of self best) l = Ok r ->
  exists pre' post',
    pre ++ best :: mid ++ l = pre' ++ r :: post'
    /\ (forall u, In u pre' ->
          key_ltb (mrv_key_of self r) (mrv_key_of self u) = true)
    /\ (forall u, In u post' ->
          key_ltb (mrv_key_of self u) (mrv_key_of self r) = false).
Proof.
  induction l as [|v l IH]; simpl; intros best r pre mid Hpre Hmid H.
  - injection H as <-. exists pre, mid. rewrite app_nil_r. auto.
  - inv_bind H as k Ek. apply mrv_key_inv in Ek. subst k.
    destruct (key_ltb (mrv_key_of self v) (mrv_key_of self best)) eqn:Elt.
    + destruct (IH v r (pre ++ best :: mid) [] ) as [pre' [post' [Heq [H1 H2]]]].
      * intros u Hu. apply key_ltb_spec in Elt. apply key_ltb_spec.
        apply in_app_iff in Hu. destruct Hu as [Hu|[<-|Hu]].
        -- specialize (Hpre u Hu). apply key_ltb_spec in Hpre. lia.
        -- exact Elt.
        -- specialize (Hmid u Hu). apply key_ltb_false in Hmid. lia.
      * intros u [].
      * exact H.
      * exists pre', post'. split; [|auto].
        rewrite <- Heq, <- !app_assoc. reflexivity.
    + destruct (IH best r pre (mid ++ [v])) as [pre' [post' [Heq [H1 H2]]]].
      * exact Hpre.
      * intros u Hu. apply in_app_iff in Hu. destruct Hu as [Hu|[<-|[]]];
          [apply Hmid, Hu | exact Elt].
      * exact H.
      * exists pre', post'. split; [|auto].
        rewrite <- Heq, <- !app_assoc. reflexivity.
Qed.

Lemma unassigned_nil self a :
  unassigned self a = [] <-> incl (variables (crossword self)) (keys a).
Proof.
  split.
  - intros H v Hv. destruct (mem_var v (keys a)) eqn:E; [apply mem_var_In, E|].
    apply mem_var_not_In in E.
    assert (Hu : In v (unassigned self a)) by (apply unassigned_spec; auto).
    rewrite H in Hu. destruct Hu.
  - intros H. destruct (unassigned self a) as [|v l] eqn:E; [reflexivity|].
    assert (Hu : In v (unassigned self a)) by (rewrite E; left; reflexivity).
    apply unassigned_spec in Hu. destruct Hu as [Hv Hn]. destruct (Hn (H v Hv)).
Qed.

(** ** [consistent] once more *)

Lemma lengths_ok_In a v w :
  lengths_ok a = true -> In (v, w) a -> String.length w = Var.length v.
Proof.
  unfold lengths_ok. rewrite forallb_forall. intros H Hin.
  apply Nat.eqb_eq. apply (H _ Hin).
Qed.

Lemma consistent_neighbors_lengths self a var word ns :
  wf_crossword (crossword self) = true -> lengths_ok a = true ->
  String.length word = Var.length var ->
  exists b, consistent_neighbors self a var word ns = Ok b.
Proof.
  intros Hwf Ha Hlen. induction ns as [|n ns IH]; simpl; [eauto|].
  destruct (contains a n) eqn:Ec; [|exact IH].
  apply contains_In, lookup_keys in Ec. destruct Ec as [wn Hwn].
  destruct (overlaps_get (crossword self) var n) as [[i j]|] eqn:Eo; [|exact IH].
  destruct (wf_overlap _ _ _ _ _ Hwf Eo) as [_ _ _ Hi Hj _].
  pose proof (lengths_ok_In _ _ _ Ha (lookup_In _ _ _ _ Hwn)) as Hlen'.
  destruct (get_in_range word i) as [cw Hcw]; [lia|].
  destruct (get_in_range wn j) as [cn Hcn]; [lia|].
  unfold getitem, char_at. rewrite Hwn, Hcw. simpl. rewrite Hcn. simpl.
  destruct (Ascii.eqb cw cn); [exact IH | eauto].
Qed.

Lemma consistent_items_lengths self a items :
  wf_crossword (crossword self) = true -> lengths_ok a = true ->
  exists b, consistent_items self a items = Ok b.
Proof.
  intros Hwf Ha. induction items as [|[v w] items IH]; simpl; [eauto|].
  destruct (Nat.eqb (String.length w) (Var.length v)) eqn:El; simpl; [|eauto].
  apply Nat.eqb_eq in El.
  destruct (consistent_neighbors_lengths self a v w (neighbors (crossword self) v)
              Hwf Ha El) as [b Hb].
  rewrite Hb. simpl. destruct b; [exact IH | eauto].
Qed.

(** ** [order_domain_values] once more *)

Lemma count_conflicts_over_assigned self var a value ns :
  forallb (contains a) ns = true ->
  count_conflicts_over self var a value ns = Ok 0.
Proof.
  induction ns as [|n ns IH]; simpl; [reflexivity|].
  rewrite andb_true_iff. intros [H1 H2]. rewrite H1. simpl. apply IH, H2.
Qed.

Lemma keyed_assigned self var a values :
  forallb (contains a) (neighbors (crossword self) var) = true ->
  keyed self var a values = Ok (map (fun v => (0, v)) values).
Proof.
  intros H. induction values as [|v values IH]; simpl; [reflexivity|].
  unfold count_conflicts. rewrite (count_conflicts_over_assigned _ _ _ _ _ H).
  simpl. rewrite IH. reflexivity.
Qed.

Lemma sort_by_key_zero values :
  sort_by_key (map (fun v : string => (0, v)) values) = map (fun v => (0, v)) values.
Proof.
  induction values as [|v values IH]; simpl; [reflexivity|].
  rewrite IH. destruct values; reflexivity.
Qed.

(** ** [backtrack] once more *)

(** What a successful call has added to the dictionary. *)
Lemma backtrack_loop_bindings rec self var :
  In var (variables (crossword self)) ->
  (forall a a', rec a = Ok (false, a') -> a' = a) ->
  (forall a a', rec a = Ok (true, a') ->
     exists ext, a' = a ++ ext
       /\ (forall v w, In (v, w) ext ->
             In v (variables (crossword self)) /\ In w (dom self v))
       /\ (NoDup (keys a) -> NoDup (keys a'))) ->
  forall values a a',
    ~ In var (keys a) ->
    (forall value, In value values -> In value (dom self var)) ->
    backtrack_loop rec self var values a = Ok (true, a') ->
    exists ext, a' = a ++ ext
      /\ (forall v w, In (v, w) ext ->
            In v (variables (crossword self)) /\ In w (dom self v))
      /\ (NoDup (keys a) -> NoDup (keys a')).
Proof.
  intros Hvar Hres Hrec.
  induction values as [|value values IH]; simpl; intros a a' Hfresh Hvals H.
  - discriminate.
  - assert (Hvals' : forall v, In v values -> In v (dom self var)).
    { intros v Hv. apply Hvals. right. exact Hv. }
    inv_bind H as ok Ec. destruct ok.
    + inv_bind H as p Er. destruct p as [found a2]. destruct found.
      * injection H as <-. destruct (Hrec _ _ Er) as [ext [Hext [Hin Hnd]]].
        rewrite (setitem_fresh _ _ _ _ Hfresh) in Hext, Hnd.
        exists ((var, value) :: ext). split; [|split].
        -- rewrite Hext, <- app_assoc. reflexivity.
        -- intros v w [[= <- <-]|Hvw]; [|apply Hin, Hvw].
           split; [exact Hvar | apply Hvals; left; reflexivity].
        -- intros Ha. apply Hnd. unfold keys. rewrite map_app. simpl.
           apply NoDup_app; [exact Ha | repeat constructor; intros [] |].
           intros v Hv [<-|[]]. contradiction.
      * apply Hres in Er. subst a2.
        rewrite (pop_setitem_fresh _ _ _ _ Hfresh) in H. simpl in H.
        apply IH in H; assumption.
    + rewrite (pop_setitem_fresh _ _ _ _ Hfresh) in H. simpl in H.
      apply IH in H; assumption.
Qed.

Lemma backtrack_bindings fuel : forall self a a',
  backtrack fuel self a = Ok (true, a') ->
  exists ext, a' = a ++ ext
    /\ (forall v w, In (v, w) ext ->
          In v (variables (crossword self)) /\ In w (dom self v))
    /\ (NoDup (keys a) -> NoDup (keys a')).
Proof.
  induction fuel as [|fuel IH]; simpl; intros self a a' H; [discriminate|].
  destruct (assignment_complete self a) eqn:Ec.
  - injection H as <-. exists []. rewrite app_nil_r.
    split; [reflexivity|]. split; [intros v w [] | auto].
  - inv_bind H as var Ev. inv_bind H as values Eo.
    apply select_In, unassigned_spec in Ev. destruct Ev as [Hvar Hfresh].
    apply (backtrack_loop_bindings (backtrack fuel self) self var Hvar
             (backtrack_restores fuel self) (IH self) values a a' Hfresh); [|exact H].
    intros value Hv.
    apply (Permutation_in _ (order_domain_values_perm _ _ _ _ Eo)), Hv.
Qed.

(** ** [letter_grid] *)

Lemma list_set_length (A : Type) (l : list A) k a :
  List.length (list_set l k a) = List.length l.
Proof.
  revert k. induction l as [|b l IH]; intros k; simpl; [reflexivity|].
  destruct k; simpl; [reflexivity | rewrite IH; reflexivity].
Qed.

Lemma nth_error_list_set_same (A : Type) (l : list A) k a :
  k < List.length l -> nth_error (list_set l k a) k = Some a.
Proof.
  revert k. induction l as [|b l IH]; intros k; simpl; [lia|].
  destruct k; simpl; [reflexivity|]. intros H. apply IH. lia.
Qed.

Lemma nth_error_list_set_other (A : Type) (l : list A) k k' a :
  k' <> k -> nth_error (list_set l k a) k' = nth_error l k'.
Proof.
  revert k k'. induction l as [|b l IH]; intros k k' Hne; simpl; [reflexivity|].
  destruct k, k'; simpl; try reflexivity; [congruence|]. apply IH. congruence.
Qed.

Lemma In_list_set (A : Type) (l : list A) k a x :
  In x (list_set l k a) -> x = a \/ In x l.
Proof.
  revert k. induction l as [|b l IH]; intros k; simpl; [intros []|].
  destruct k; simpl.
  - intros [<-|H]; auto.
  - intros [<-|H]; [auto|]. destruct (IH _ H); auto.
Qed.

Lemma grid_shape_blank h w : grid_shape h w (repeat (repeat None w) h).
Proof.
  split; [apply repeat_length|]. intros row Hr.
  apply repeat_spec in Hr. subst. apply repeat_length.
Qed.

Lemma letter_at_blank h w i j : letter_at (repeat (repeat None w) h) i j = None.
Proof.
  unfold letter_at.
  destruct (nth_error (repeat (repeat None w) h) i) as [row|] eqn:E; [|reflexivity].
  apply nth_error_In, repeat_spec in E. subst row.
  destruct (nth_error (repeat None w) j) as [l|] eqn:E2; [|reflexivity].
  apply nth_error_In, repeat_spec in E2. exact E2.
Qed.

Lemma grid_shape_row h w letters i row :
  grid_shape h w letters -> nth_error letters i = Some row -> List.length row = w.
Proof. intros [_ H] Hn. apply H. eapply nth_error_In. exact Hn. Qed.

(** One write: defined exactly inside the grid; it changes one cell. *)
Lemma set_cell_Ok h w letters i j c :
  grid_shape h w letters -> i < h -> j < w ->
  exists letters', set_cell letters i j c = Ok letters'.
Proof.
  intros Hs Hi Hj. unfold set_cell, list_index.
  destruct (nth_error letters i) as [row|] eqn:E.
  - simpl. rewrite (grid_shape_row _ _ _ _ _ Hs E).
    apply Nat.ltb_lt in Hj. rewrite Hj. eauto.
  - apply nth_error_None in E. destruct Hs as [Hl _]. lia.
Qed.

Lemma set_cell_out h w letters i j c :
  grid_shape h w letters -> Nat.ltb i h && Nat.ltb j w = false ->
  set_cell letters i j c = Raise IndexError.
Proof.
  intros Hs Hout. unfold set_cell, list_index.
  destruct (nth_error letters i) as [row|] eqn:E; [|reflexivity].
  simpl. rewrite (grid_shape_row _ _ _ _ _ Hs E).
  assert (Hi : i < h).
  { destruct Hs as [<- _]. apply nth_error_Some. congruence. }
  apply Nat.ltb_lt in Hi. rewrite Hi in Hout. simpl in Hout. rewrite Hout.
  reflexivity.
Qed.

Lemma set_cell_inv h w letters i j c letters' :
  grid_shape h w letters -> set_cell letters i j c = Ok letters' ->
  grid_shape h w letters'
  /\ letter_at letters' i j = Some c
  /\ (forall i' j', (i', j') <> (i, j) ->
        letter_at letters' i' j' = letter_at letters i' j').
Proof.
  intros Hs H. unfold set_cell in H. inv_bind H as row Er.
  unfold list_index in Er.
  destruct (nth_error letters i) as [row'|] eqn:E; [|discriminate].
  injection Er as ->.
  destruct (Nat.ltb j (List.length row)) eqn:Ej; [|discriminate].
  injection H as <-. apply Nat.ltb_lt in Ej.
  assert (Hi : i < List.length letters) by (apply nth_error_Some; congruence).
  split; [|split].
  - destruct Hs as [Hl Hr]. split; [rewrite list_set_length; exact Hl|].
    intros r Hin. apply In_list_set in Hin. destruct Hin as [->|Hin]; [|auto].
    rewrite list_set_length. apply Hr. eapply nth_error_In. exact E.
  - unfold letter_at. rewrite (nth_error_list_set_same _ _ _ _ Hi).
    rewrite (nth_error_list_set_same _ _ _ _ Ej). reflexivity.
  - intros i' j' Hne. unfold letter_at.
    destruct (Nat.eq_dec i' i) as [->|Hi'].
    + rewrite (nth_error_list_set_same _ _ _ _ Hi), E.
      rewrite nth_error_list_set_other; [reflexivity | congruence].
    + rewrite nth_error_list_set_other by exact Hi'. reflexivity.
Qed.

Lemma cell_of_inj v k k' : cell_of v k = cell_of v k' -> k = k'.
Proof.
  unfold cell_of. destruct (Var.direction v); intros H; injection H; intros; lia.
Qed.

Lemma get_Some_lt (w : string) (k : nat) (ch : ascii) :
  String.get k w = Some ch -> k < String.length w.
Proof.
  revert k. induction w as [|a w IH]; simpl; intros k; [discriminate|].
  destruct k as [|k]; [lia|]. intros H. apply IH in H. lia.
Qed.

Lemma letter_grid_word_inv h w v word : forall ks letters0 letters,
  grid_shape h w letters0 -> NoDup ks ->
  letter_grid_word v word ks letters0 = Ok letters ->
  grid_shape h w letters
  /\ (forall k i j ch, In k ks -> covers v word k i j ch ->
        letter_at letters i j = Some ch)
  /\ (forall i j, (forall k, In k ks -> cell_of v k <> (i, j)) ->
        letter_at letters i j = letter_at letters0 i j).
Proof.
  induction ks as [|k0 ks IH]; cbn [letter_grid_word]; cbv zeta;
    intros letters0 letters Hs Hnd H.
  - injection H as <-. split; [exact Hs|]. split; [intros k i j ch []|reflexivity].
  - inv_bind H as c Ec. inv_bind H as letters1 E1. apply char_at_Ok in Ec.
    inversion Hnd as [|? ? Hk0 Hnd']; subst.
    destruct (set_cell_inv _ _ _ _ _ _ _ Hs E1) as [Hs1 [Hat Hoth]].
    destruct (IH _ _ Hs1 Hnd' H) as [Hs' [Hcov Hun]].
    split; [exact Hs'|]. split.
    + intros k i j ch [<-|Hk] [Hcell Hget].
      * rewrite Hun.
        -- rewrite Hcell in Hat. simpl in Hat. congruence.
        -- intros k' Hk' Heq. rewrite <- Hcell in Heq.
           apply cell_of_inj in Heq. subst. contradiction.
      * apply (Hcov k i j ch Hk). split; assumption.
    + intros i j Hno. rewrite Hun.
      * apply Hoth. intros Heq. apply (Hno k0 (or_introl eq_refl)).
        rewrite Heq. apply surjective_pairing.
      * intros k Hk. apply Hno. right. exact Hk.
Qed.

Lemma letter_grid_word_total g v word : forall ks letters0,
  grid_shape (height g) (width g) letters0 ->
  (forall k, In k ks -> k < String.length word) ->
  if forallb (in_grid g v) ks
  then exists letters, letter_grid_word v word ks letters0 = Ok letters
  else letter_grid_word v word ks letters0 = Raise IndexError.
Proof.
  induction ks as [|k0 ks IH]; cbn [letter_grid_word forallb]; cbv zeta;
    intros letters0 Hs Hks; [eauto|].
  destruct (get_in_range word k0) as [c Hc]; [apply Hks; left; reflexivity|].
  unfold char_at. rewrite Hc. cbn [bind].
  assert (Hks' : forall k, In k ks -> k < String.length word).
  { intros k Hk. apply Hks. right. exact Hk. }
  unfold in_grid at 1. destruct (Nat.ltb (fst (cell_of v k0)) (height g)
                        && Nat.ltb (snd (cell_of v k0)) (width g)) eqn:Ein;
    cbn [andb].
  - apply andb_true_iff in Ein. destruct Ein as [H1 H2].
    apply Nat.ltb_lt in H1, H2.
    destruct (set_cell_Ok _ _ _ _ _ c Hs H1 H2) as [letters1 E1].
    rewrite E1. cbn [bind].
    destruct (set_cell_inv _ _ _ _ _ _ _ Hs E1) as [Hs1 _].
    apply (IH letters1 Hs1 Hks').
  - rewrite (set_cell_out _ _ _ _ _ c Hs Ein). reflexivity.
Qed.

Lemma seq_lt n k : In k (seq 0 n) -> k < n.
Proof. intros H. apply in_seq in H. lia. Qed.

Lemma fits_cons g v word items :
  fits g ((v, word) :: items)
  = forallb (in_grid g v) (seq 0 (String.length word)) && fits g items.
Proof. reflexivity. Qed.

Lemma letter_grid_items_total g : forall items letters0,
  grid_shape (height g) (width g) letters0 ->
  if fits g items
  then exists letters, letter_grid_items items letters0 = Ok letters
  else letter_grid_items items letters0 = Raise IndexError.
Proof.
  induction items as [|[v word] items IH]; intros letters0 Hs.
  - simpl. eauto.
  - rewrite fits_cons. cbn [letter_grid_items].
    pose proof (letter_grid_word_total g v word (seq 0 (String.length word)) letters0
                  Hs (seq_lt _)) as Hw.
    destruct (forallb (in_grid g v) (seq 0 (String.length word))); cbn [andb].
    + destruct Hw as [letters1 E1]. rewrite E1. cbn [bind].
      destruct (letter_grid_word_inv _ _ _ _ _ _ _ Hs (seq_NoDup _ _) E1) as [Hs1 _].
      apply (IH letters1 Hs1).
    + rewrite Hw. reflexivity.
Qed.

Lemma cell_eqb_eq p q : cell_eqb p q = true <-> p = q.
Proof.
  destruct p as [a b], q as [a' b']. unfold cell_eqb. simpl.
  rewrite andb_true_iff, !Nat.eqb_eq. split; [intros [-> ->] | intros [= -> ->]]; auto.
Qed.

Lemma covers_seq v word k i j ch :
  covers v word k i j ch -> In k (seq 0 (String.length word)).
Proof.
  intros [_ Hg]. apply get_Some_lt in Hg. apply in_seq. lia.
Qed.

(** Words that do not cover a cell leave it alone. *)
Lemma letter_grid_items_untouched h w : forall items letters0 letters i j,
  grid_shape h w letters0 ->
  letter_grid_items items letters0 = Ok letters ->
  (forall v word k ch, In (v, word) items -> ~ covers v word k i j ch) ->
  letter_at letters i j = letter_at letters0 i j.
Proof.
  induction items as [|[v word] items IH]; simpl; intros letters0 letters i j Hs H Hno.
  - injection H as <-. reflexivity.
  - inv_bind H as letters1 E1.
    destruct (letter_grid_word_inv _ _ _ _ _ _ _ Hs (seq_NoDup _ _) E1)
      as [Hs1 [_ Hun]].
    rewrite (IH _ _ i j Hs1 H).
    + apply Hun. intros k Hk Heq.
      destruct (get_in_range word k (seq_lt _ _ Hk)) as [ch Hch].
      apply (Hno v word k ch (or_introl eq_refl)). split; assumption.
    + intros v' w' k' ch' Hin. apply Hno. right. exact Hin.
Qed.

Lemma letter_grid_items_inv h w : forall items letters0 letters,
  grid_shape h w letters0 ->
  letter_grid_items items letters0 = Ok letters ->
  grid_shape h w letters
  /\ (forall i j ch, letter_at letters i j = Some ch ->
        (exists v word k, In (v, word) items /\ covers v word k i j ch)
        \/ letter_at letters0 i j = Some ch)
  /\ (forall pre v word post k i j ch,
        items = pre ++ (v, word) :: post ->
        covers v word k i j ch ->
        (forall v' word' k' ch', In (v', word') post -> ~ covers v' word' k' i j ch') ->
        letter_at letters i j = Some ch).
Proof.
  induction items as [|[v word] items IH]; simpl; intros letters0 letters Hs H.
  - injection H as <-. split; [exact Hs|]. split; [auto|].
    intros pre v word post k i j ch Heq. destruct pre; discriminate.
  - inv_bind H as letters1 E1.
    destruct (letter_grid_word_inv _ _ _ _ _ _ _ Hs (seq_NoDup _ _) E1)
      as [Hs1 [Hcov Hun]].
    destruct (IH _ _ Hs1 H) as [Hs' [Hfrom Hlast]].
    assert (Hdec : forall i j,
              (exists k ch, covers v word k i j ch)
              \/ (forall k, In k (seq 0 (String.length word)) -> cell_of v k <> (i, j))).
    { intros i j.
      destruct (existsb (fun k => cell_eqb (cell_of v k) (i, j))
                        (seq 0 (String.length word))) eqn:Ex.
      - left. apply existsb_exists in Ex. destruct Ex as [k [Hk Hc]].
        destruct (get_in_range word k (seq_lt _ _ Hk)) as [ch Hch].
        exists k, ch. split; [|exact Hch].
        apply cell_eqb_eq, Hc.
      - right. intros k Hk Heq.
        assert (existsb (fun k => cell_eqb (cell_of v k) (i, j))
                        (seq 0 (String.length word)) = true).
        { apply existsb_exists. exists k. split; [exact Hk|].
          apply cell_eqb_eq, Heq. }
        congruence. }
    split; [exact Hs'|]. split.
    + intros i j ch Hat. destruct (Hfrom i j ch Hat) as [[v' [w' [k [Hin Hc]]]]|H1].
      * left. exists v', w', k. auto.
      * destruct (Hdec i j) as [[k [ch' Hc]]|Hno].
        -- left. exists v, word, k. split; [left; reflexivity|].
           rewrite (Hcov k i j ch' (covers_seq _ _ _ _ _ _ Hc) Hc) in H1.
           injection H1 as <-. exact Hc.
        -- right. rewrite <- (Hun i j Hno). exact H1.
    + intros pre v0 word0 post k i j ch Heq Hc Hno.
      destruct pre as [|e pre]; simpl in Heq.
      * injection Heq as <- <- <-.
        rewrite (letter_grid_items_untouched _ _ _ _ _ i j Hs1 H Hno).
        apply (Hcov k i j ch (covers_seq _ _ _ _ _ _ Hc) Hc).
      * injection Heq as _ Hitems. eapply Hlast; [exact Hitems | exact Hc | exact Hno].
Qed.

(** ** [print] *)

Lemma print_cell_Ok g letters i j :
  structure_ok g = true -> grid_shape (height g) (width g) letters ->
  i < height g -> j < width g ->
  print_cell g letters i j = Ok (glyph_at g letters i j).
Proof.
  unfold structure_ok. rewrite andb_true_iff, Nat.leb_le, forallb_forall.
  intros [Hh Hw] [Hl Hr] Hi Hj.
  unfold print_cell, glyph_at, fillable, letter_at, list_index.
  destruct (nth_error (structure g) i) as [srow|] eqn:Es.
  2:{ apply nth_error_None in Es. lia. }
  pose proof (Hw srow (nth_error_In _ _ Es)) as Hsw. apply Nat.leb_le in Hsw.
  cbn [bind].
  destruct (nth_error srow j) as [b|] eqn:Eb.
  2:{ apply nth_error_None in Eb. lia. }
  cbn [bind]. destruct b; [|reflexivity].
  destruct (nth_error letters i) as [lrow|] eqn:El.
  2:{ apply nth_error_None in El. lia. }
  pose proof (Hr lrow (nth_error_In _ _ El)) as Hlw.
  cbn [bind].
  destruct (nth_error lrow j) as [l|] eqn:Ej.
  2:{ apply nth_error_None in Ej. lia. }
  reflexivity.
Qed.

Lemma print_cols_Ok g letters i : forall js out,
  (forall j, In j js -> print_cell g letters i j = Ok (glyph_at g letters i j)) ->
  print_cols g letters i js out
  = Ok (out ++ map (glyph_at g letters i) js ++ [newline]).
Proof.
  induction js as [|j js IH]; simpl; intros out H; [reflexivity|].
  rewrite (H j (or_introl eq_refl)). simpl. rewrite IH by auto.
  rewrite <- app_assoc. reflexivity.
Qed.

(** The line [print] writes for row [i]. *)
Lemma print_rows_Ok g letters : forall rows out,
  (forall i j, In i rows -> In j (seq 0 (width g)) ->
     print_cell g letters i j = Ok (glyph_at g letters i j)) ->
  print_rows g letters rows out
  = Ok (out ++ List.concat (map (fun i => map (glyph_at g letters i) (seq 0 (width g))
                                     ++ [newline]) rows)).
Proof.
  induction rows as [|i rows IH]; simpl; intros out H.
  - rewrite app_nil_r. reflexivity.
  - rewrite print_cols_Ok by auto. simpl. rewrite IH by auto.
    rewrite <- !app_assoc. reflexivity.
Qed.

Lemma nth_error_concat_rows (A : Type) (n : nat) : forall (rows : list (list A)) i j r,
  (forall r', In r' rows -> List.length r' = n) ->
  nth_error rows i = Some r -> j < n ->
  nth_error (List.concat rows) (i * n + j) = nth_error r j.
Proof.
  induction rows as [|r0 rows IH]; intros i j r Hlen Hi Hj.
  - destruct i; discriminate.
  - simpl List.concat. destruct i as [|i]; simpl in Hi.
    + injection Hi as ->. simpl. apply nth_error_app1.
      rewrite (Hlen r (or_introl eq_refl)). exact Hj.
    + rewrite nth_error_app2 by (rewrite (Hlen r0 (or_introl eq_refl)); simpl; lia).
      rewrite (Hlen r0 (or_introl eq_refl)).
      replace (S i * n + j - n) with (i * n + j) by (simpl; lia).
      apply IH; auto. intros r' Hr'. apply Hlen. right. exact Hr'.
Qed.

Lemma length_concat_rows (A : Type) (n : nat) : forall (rows : list (list A)),
  (forall r', In r' rows -> List.length r' = n) ->
  List.length (List.concat rows) = List.length rows * n.
Proof.
  induction rows as [|r0 rows IH]; intros Hlen; [reflexivity|].
  simpl. rewrite length_app, (Hlen r0 (or_introl eq_refl)), IH; [reflexivity|].
  intros r' Hr'. apply Hlen. right. exact Hr'.
Qed.

Lemma nth_error_map_seq (A : Type) (f : nat -> A) n : forall s i,
  i < n -> nth_error (map f (seq s n)) i = Some (f (s + i)).
Proof.
  induction n as [|n IH]; intros s i Hi; [lia|].
  destruct i as [|i]; simpl.
  - rewrite Nat.add_0_r. reflexivity.
  - rewrite IH by lia. f_equal. f_equal. lia.
Qed.

(** * Further results *)

Import MoreExamples.

(** X1: [__init__] gives the dictionary one entry per variable, in the order
    of the variables, each holding the whole word list, and no entry for
    anything else. *)
Theorem X1_init_domains (c : Crossword) (v : Var.t) :
  keys (domains (init c)) = variables c
  /\ lookup (domains (init c)) v
     = if mem_var v (variables c) then Some (words c) else None.
Proof.
  split; [apply keys_init|].
  destruct (mem_var v (variables c)) eqn:E.
  - apply lookup_init, mem_var_In, E.
  - apply lookup_init_other, mem_var_not_In, E.
Qed.

(** X2: [enforce_node_consistency] keeps the graph and the keys, and a word
    is in the new domain of a variable iff it was in the old one and has the
    length of the variable. *)
Theorem X2_enforce_characterised (self : CrosswordCreator) (v : Var.t) (w : string) :
  crossword (enforce_node_consistency self) = crossword self
  /\ keys (domains (enforce_node_consistency self)) = keys (domains self)
  /\ (In w (dom (enforce_node_consistency self) v)
      <-> In w (dom self v) /\ String.length w = Var.length v).
Proof.
  split; [reflexivity|]. split; [apply keys_enforce|].
  rewrite dom_enforce, filter_In, Nat.eqb_eq. reflexivity.
Qed.

(** X3: [enforce_node_consistency] is idempotent. *)
Theorem X3_enforce_idempotent (self : CrosswordCreator) :
  enforce_node_consistency (enforce_node_consistency self)
  = enforce_node_consistency self.
Proof.
  unfold enforce_node_consistency, set_domains. simpl. f_equal.
  rewrite map_map. apply map_ext. intros [v ws]. simpl.
  rewrite filter_idem. reflexivity.
Qed.

(** X4: when [revise] returns false the generator is exactly as before. *)
Theorem X4_revise_false_unchanged (self self' : CrosswordCreator) (x y : Var.t) :
  revise self x y = Ok (false, self') -> self' = self.
Proof. apply revise_false_same. Qed.

Lemma X4_revise_false_unchanged_witness :
  revise corner_arc across3 down3 = Ok (false, corner_arc)
  /\ corner_arc = corner_arc.
Proof.
  assert (H : revise corner_arc across3 down3 = Ok (false, corner_arc))
    by reflexivity.
  split; [exact H|].
  exact (X4_revise_false_unchanged corner_arc corner_arc across3 down3 H).
Defined.

(** X5: [revise] is idempotent on an arc between two different variables:
    after a call that returns, the same call returns false and changes
    nothing. *)
Theorem X5_revise_idempotent (self self' : CrosswordCreator) (x y : Var.t)
    (b : bool) :
  x <> y ->
  revise self x y = Ok (b, self') ->
  revise self' x y = Ok (false, self').
Proof. apply revise_twice. Qed.

Lemma X5_revise_idempotent_witness :
  across3 <> down3
  /\ revise corner_node across3 down3 = Ok (true, corner_revised)
  /\ revise corner_revised across3 down3 = Ok (false, corner_revised).
Proof.
  assert (H1 : across3 <> down3) by discriminate.
  assert (H2 : revise corner_node across3 down3 = Ok (true, corner_revised))
    by reflexivity.
  split; [exact H1|]. split; [exact H2|].
  exact (X5_revise_idempotent corner_node corner_revised across3 down3 true H1 H2).
Defined.

(** X6: in a state of the solver (well-formed graph, one domain per
    variable, words of the right length) [ac3] returns for every worklist,
    without raising, and leaves a state of the solver. *)
Theorem X6_ac3_returns (self : CrosswordCreator) (arcs : option (list Arc)) :
  wf_crossword (crossword self) = true ->
  keys (domains self) = variables (crossword self) ->
  node_consistent (domains self) = true ->
  exists b self',
    ac3 self arcs = Ok (b, self')
    /\ wf_crossword (crossword self') = true
    /\ keys (domains self') = variables (crossword self')
    /\ node_consistent (domains self') = true.
Proof.
  intros Hwf Hkeys Hnode.
  assert (Hok : creator_ok self) by (constructor; assumption).
  destruct (ac3_total self arcs Hok) as [b [self' Hac]].
  exists b, self'. split; [exact Hac|].
  destruct (revise_steps_creator_ok _ _ (ac3_steps _ _ _ _ Hac) Hok) as [H1 H2 H3].
  auto.
Qed.

Lemma X6_ac3_returns_witness :
  wf_crossword (crossword corner_node) = true
  /\ keys (domains corner_node) = variables (crossword corner_node)
  /\ node_consistent (domains corner_node) = true
  /\ exists b self',
       ac3 corner_node (Some [(down3, across3)]) = Ok (b, self')
       /\ wf_crossword (crossword self') = true
       /\ keys (domains self') = variables (crossword self')
       /\ node_consistent (domains self') = true.
Proof.
  assert (H1 : wf_crossword (crossword corner_node) = true) by reflexivity.
  assert (H2 : keys (domains corner_node) = variables (crossword corner_node))
    by reflexivity.
  assert (H3 : node_consistent (domains corner_node) = true) by reflexivity.
  repeat (split; [assumption|]).
  exact (X6_ac3_returns corner_node (Some [(down3, across3)]) H1 H2 H3).
Defined.

(** X7: a call of [ac3] that returns leaves the graph and the keys of the
    dictionary as they were, and every domain included in what it was and
    no longer. *)
Theorem X7_ac3_frame (self self' : CrosswordCreator) (arcs : option (list Arc))
    (b : bool) (z : Var.t) :
  ac3 self arcs = Ok (b, self') ->
  crossword self' = crossword self
  /\ keys (domains self') = keys (domains self)
  /\ incl (dom self' z) (dom self z)
  /\ List.length (dom self' z) <= List.length (dom self z).
Proof.
  intros H. apply ac3_steps in H.
  split; [apply revise_steps_crossword, H|].
  split; [apply revise_steps_keys, H|].
  apply revise_steps_shrink, H.
Qed.

Lemma X7_ac3_frame_witness :
  ac3 corner_node None = Ok (true, corner_arc)
  /\ crossword corner_arc = crossword corner_node
  /\ keys (domains corner_arc) = keys (domains corner_node)
  /\ incl (dom corner_arc down3) (dom corner_node down3)
  /\ List.length (dom corner_arc down3) <= List.length (dom corner_node down3).
Proof.
  assert (H : ac3 corner_node None = Ok (true, corner_arc)) by reflexivity.
  split; [exact H|].
  exact (X7_ac3_frame corner_node corner_arc None true down3 H).
Defined.

(** X8: when [ac3] returns false, some variable of the dictionary has an
    empty domain that was not empty when [ac3] was called. *)
Theorem X8_ac3_false_empty (self self' : CrosswordCreator)
    (arcs : option (list Arc)) :
  ac3 self arcs = Ok (false, self') ->
  exists x, In x (keys (domains self'))
            /\ dom self' x = [] /\ dom self x <> [].
Proof. unfold ac3. apply ac3_loop_false_was_nonempty. Qed.

Lemma X8_ac3_false_empty_witness :
  ac3 corner_fail_node None = Ok (false, corner_fail_arc)
  /\ exists x, In x (keys (domains corner_fail_arc))
               /\ dom corner_fail_arc x = [] /\ dom corner_fail_node x <> [].
Proof.
  assert (H : ac3 corner_fail_node None = Ok (false, corner_fail_arc))
    by reflexivity.
  split; [exact H|].
  exact (X8_ac3_false_empty corner_fail_node corner_fail_arc None H).
Defined.

(** X9: when [ac3] returns true, no domain that had a word is empty. *)
Theorem X9_ac3_true_nonempty (self self' : CrosswordCreator)
    (arcs : option (list Arc)) (z : Var.t) :
  ac3 self arcs = Ok (true, self') ->
  dom self z <> [] -> dom self' z <> [].
Proof. unfold ac3. apply ac3_loop_true_nonempty. Qed.

Lemma X9_ac3_true_nonempty_witness :
  ac3 corner_node None = Ok (true, corner_arc)
  /\ dom corner_node across3 <> []
  /\ dom corner_arc across3 <> [].
Proof.
  assert (H1 : ac3 corner_node None = Ok (true, corner_arc)) by reflexivity.
  assert (H2 : dom corner_node across3 <> []) by discriminate.
  split; [exact H1|]. split; [exact H2|].
  exact (X9_ac3_true_nonempty corner_node corner_arc None across3 H1 H2).
Defined.

(** X10: [ac3] removes no word of an arc-consistent family: if the
    dictionary [D] lists, for each variable, words of its domain such that
    every arc with an overlap is consistent within [D], every word of [D] is
    still in its domain when [ac3] returns, whatever the worklist. *)
Theorem X10_ac3_keeps_consistent_family (self self' : CrosswordCreator)
    (D : Domains) (arcs : option (list Arc)) (b : bool) (v : Var.t) (w : string) :
  arc_consistent_all (set_domains self D) = true ->
  included_in D self = true ->
  ac3 self arcs = Ok (b, self') ->
  In w (dom (set_domains self D) v) ->
  In w (dom self' v).
Proof.
  intros Hac Hinc H Hw.
  apply (revise_steps_keep_family self self'
           (fun v w => In w (dom (set_domains self D) v)) (ac3_steps _ _ _ _ H)).
  - apply (arc_consistent_all_family (set_domains self D) Hac).
  - intros v0 w0 Hw0. unfold dom in Hw0. simpl in Hw0.
    destruct (lookup D v0) as [ws|] eqn:E; [|destruct Hw0].
    apply (proj1 (included_in_spec D self) Hinc v0 ws w0 (lookup_In _ _ _ _ E) Hw0).
  - exact Hw.
Qed.

Lemma X10_ac3_keeps_consistent_family_witness :
  arc_consistent_all (set_domains corner_node [(across3, ["ABC"]); (down3, ["CBA"])])
  = true
  /\ included_in [(across3, ["ABC"]); (down3, ["CBA"])] corner_node = true
  /\ ac3 corner_node None = Ok (true, corner_arc)
  /\ In "CBA" (dom (set_domains corner_node [(across3, ["ABC"]); (down3, ["CBA"])])
                   down3)
  /\ In "CBA" (dom corner_arc down3).
Proof.
  assert (H1 : arc_consistent_all
                 (set_domains corner_node [(across3, ["ABC"]); (down3, ["CBA"])])
               = true) by reflexivity.
  assert (H2 : included_in [(across3, ["ABC"]); (down3, ["CBA"])] corner_node = true)
    by reflexivity.
  assert (H3 : ac3 corner_node None = Ok (true, corner_arc)) by reflexivity.
  assert (H4 : In "CBA" (dom (set_domains corner_node
                                [(across3, ["ABC"]); (down3, ["CBA"])]) down3))
    by (left; reflexivity).
  repeat (split; [assumption|]).
  exact (X10_ac3_keeps_consistent_family corner_node corner_arc
           [(across3, ["ABC"]); (down3, ["CBA"])] None true down3 "CBA"
           H1 H2 H3 H4).
Defined.

(** X11: [ac3] is idempotent: in the state a run over all arcs has left
    when it returned true, [ac3] returns true for every worklist and changes
    nothing. *)
Theorem X11_ac3_idempotent (self self' : CrosswordCreator)
    (arcs : option (list Arc)) :
  wf_crossword (crossword self) = true ->
  keys (domains self) = variables (crossword self) ->
  node_consistent (domains self) = true ->
  ac3 self None = Ok (true, self') ->
  ac3 self' arcs = Ok (true, self').
Proof.
  intros Hwf Hkeys Hnode Hac.
  assert (Hok : creator_ok self) by (constructor; assumption).
  pose proof (revise_steps_creator_ok _ _ (ac3_steps _ _ _ _ Hac) Hok) as Hok'.
  unfold ac3 in Hac.
  pose proof (ac3_loop_fixed_point _ _ _ _ Hwf (arcs_inv_all self Hwf) Hac) as Hinv.
  unfold ac3. apply ac3_loop_consistent; [exact Hok' | exact Hinv|].
  unfold ac3_fuel. lia.
Qed.

Lemma X11_ac3_idempotent_witness :
  wf_crossword (crossword corner_node) = true
  /\ keys (domains corner_node) = variables (crossword corner_node)
  /\ node_consistent (domains corner_node) = true
  /\ ac3 corner_node None = Ok (true, corner_arc)
  /\ ac3 corner_arc None = Ok (true, corner_arc).
Proof.
  assert (H1 : wf_crossword (crossword corner_node) = true) by reflexivity.
  assert (H2 : keys (domains corner_node) = variables (crossword corner_node))
    by reflexivity.
  assert (H3 : node_consistent (domains corner_node) = true) by reflexivity.
  assert (H4 : ac3 corner_node None = Ok (true, corner_arc)) by reflexivity.
  repeat (split; [assumption|]).
  exact (X11_ac3_idempotent corner_node corner_arc None H1 H2 H3 H4).
Defined.

(** X12: the order of the worklist does not matter: two runs of [ac3] from
    worklists that both hold every arc, if both return, return the same
    boolean, and when it is true they leave the same words in every
    domain. *)
Theorem X12_ac3_order_independent (self s1 s2 : CrosswordCreator)
    (arcs1 arcs2 : list Arc) (b1 b2 : bool) :
  wf_crossword (crossword self) = true ->
  covers_all_arcs self arcs1 = true ->
  covers_all_arcs self arcs2 = true ->
  ac3 self (Some arcs1) = Ok (b1, s1) ->
  ac3 self (Some arcs2) = Ok (b2, s2) ->
  b1 = b2
  /\ (b1 = true -> forall v w, In w (dom s1 v) <-> In w (dom s2 v)).
Proof.
  intros Hwf Hc1 Hc2 H1 H2.
  assert (Hcontra : forall arcsA arcsB sA sB,
            covers_all_arcs self arcsB = true ->
            ac3 self (Some arcsA) = Ok (false, sA) ->
            ac3 self (Some arcsB) = Ok (true, sB) -> False).
  { intros arcsA arcsB sA sB HcB HA HB.
    pose proof (ac3_runs_true_included self arcsA arcsB false sA sB Hwf HcB HA HB)
      as Hincl.
    unfold ac3 in HA. apply ac3_loop_false_was_nonempty in HA.
    destruct HA as [x [_ [Hempty Hne]]].
    unfold ac3 in HB. apply (ac3_loop_true_nonempty _ _ _ _ x HB) in Hne.
    destruct (dom sB x) as [|w0 l0] eqn:E; [congruence|].
    specialize (Hincl x w0). rewrite E, Hempty in Hincl.
    destruct (Hincl (or_introl eq_refl)). }
  destruct b1, b2.
  - split; [reflexivity|]. intros _ v w. split.
    + apply (ac3_runs_true_included self arcs2 arcs1 true s2 s1 Hwf Hc1 H2 H1).
    + apply (ac3_runs_true_included self arcs1 arcs2 true s1 s2 Hwf Hc2 H1 H2).
  - destruct (Hcontra arcs2 arcs1 s2 s1 Hc1 H2 H1).
  - destruct (Hcontra arcs1 arcs2 s1 s2 Hc2 H1 H2).
  - split; [reflexivity | discriminate].
Qed.

Lemma X12_ac3_order_independent_witness :
  wf_crossword (crossword corner_node) = true
  /\ covers_all_arcs corner_node [(across3, down3); (down3, across3)] = true
  /\ covers_all_arcs corner_node [(down3, across3); (across3, down3)] = true
  /\ ac3 corner_node (Some [(across3, down3); (down3, across3)])
     = Ok (true, corner_arc)
  /\ ac3 corner_node (Some [(down3, across3); (across3, down3)])
     = Ok (true, corner_arc)
  /\ true = true
  /\ (true = true ->
      forall v w, In w (dom corner_arc v) <-> In w (dom corner_arc v)).
Proof.
  assert (H1 : wf_crossword (crossword corner_node) = true) by reflexivity.
  assert (H2 : covers_all_arcs corner_node [(across3, down3); (down3, across3)]
               = true) by reflexivity.
  assert (H3 : covers_all_arcs corner_node [(down3, across3); (across3, down3)]
               = true) by reflexivity.
  assert (H4 : ac3 corner_node (Some [(across3, down3); (down3, across3)])
               = Ok (true, corner_arc)) by reflexivity.
  assert (H5 : ac3 corner_node (Some [(down3, across3); (across3, down3)])
               = Ok (true, corner_arc)) by reflexivity.
  do 5 (split; [assumption|]).
  exact (X12_ac3_order_independent corner_node corner_arc corner_arc
           [(across3, down3); (down3, across3)] [(down3, across3); (across3, down3)]
           true true H1 H2 H3 H4 H5).
Defined.

(** X13: [select_unassigned_variable] raises [ValueError] exactly when every
    variable is assigned (its [min] is then taken over an empty list). *)
Theorem X13_select_value_error (self : CrosswordCreator) (a : Assignment) :
  select_unassigned_variable self a = Raise ValueError
  <-> incl (variables (crossword self)) (keys a).
Proof.
  rewrite <- unassigned_nil. unfold select_unassigned_variable.
  destruct (unassigned self a) as [|v l]; [split; reflexivity|].
  split; [|discriminate]. intros H. exfalso.
  destruct (mrv_key self v) as [k|e|] eqn:Ek; simpl in H.
  - apply min_by_key_raises in H. discriminate.
  - injection H as ->. apply mrv_key_raises in Ek. discriminate.
  - discriminate.
Qed.

(** X14: the variable [select_unassigned_variable] returns is unassigned;
    no unassigned variable has fewer words left, or as many words and more
    neighbors; and every unassigned variable that comes before it in the
    order of the variables has more words left, or as many and fewer
    neighbors. *)
Theorem X14_select_least (self : CrosswordCreator) (a : Assignment) (var : Var.t) :
  select_unassigned_variable self a = Ok var ->
  In var (variables (crossword self)) /\ ~ In var (keys a)
  /\ exists pre post,
       unassigned self a = (pre ++ var :: post)%list
       /\ (forall u, In u pre ->
             List.length (dom self var) < List.length (dom self u)
             \/ (List.length (dom self var) = List.length (dom self u)
                 /\ List.length (neighbors (crossword self) u)
                    < List.length (neighbors (crossword self) var)))
       /\ (forall u, In u post ->
             List.length (dom self var) < List.length (dom self u)
             \/ (List.length (dom self var) = List.length (dom self u)
                 /\ List.length (neighbors (crossword self) u)
                    <= List.length (neighbors (crossword self) var))).
Proof.
  intros H. pose proof (select_In _ _ _ H) as Hin.
  apply unassigned_spec in Hin. destruct Hin as [Hv Hf].
  split; [exact Hv|]. split; [exact Hf|].
  unfold select_unassigned_variable in H.
  destruct (unassigned self a) as [|v l]; [discriminate|].
  inv_bind H as k Ek. apply mrv_key_inv in Ek. subst k.
  destruct (min_by_key_split self l v var [] []) as [pre [post [Heq [H1 H2]]]];
    [intros u [] | intros u [] | exact H |].
  exists pre, post. split; [exact Heq|]. split.
  - intros u Hu. specialize (H1 u Hu). apply key_ltb_spec in H1.
    unfold mrv_key_of in H1. simpl in H1. lia.
  - intros u Hu. specialize (H2 u Hu). apply key_ltb_false in H2.
    unfold mrv_key_of in H2. simpl in H2. lia.
Qed.

Lemma X14_select_least_witness :
  select_unassigned_variable comb_node [] = Ok down0
  /\ In down0 (variables (crossword comb_node)) /\ ~ In down0 (keys ([] : Assignment))
  /\ exists pre post,
       unassigned comb_node [] = (pre ++ down0 :: post)%list
       /\ (forall u, In u pre ->
             List.length (dom comb_node down0) < List.length (dom comb_node u)
             \/ (List.length (dom comb_node down0) = List.length (dom comb_node u)
                 /\ List.length (neighbors (crossword comb_node) u)
                    < List.length (neighbors (crossword comb_node) down0)))
       /\ (forall u, In u post ->
             List.length (dom comb_node down0) < List.length (dom comb_node u)
             \/ (List.length (dom comb_node down0) = List.length (dom comb_node u)
                 /\ List.length (neighbors (crossword comb_node) u)
                    <= List.length (neighbors (crossword comb_node) down0))).
Proof.
  assert (H : select_unassigned_variable comb_node [] = Ok down0) by reflexivity.
  split; [exact H|].
  exact (X14_select_least comb_node [] down0 H).
Defined.

(** X15: [consistent] returns true exactly when every bound word has the
    length of its slot and, for every bound neighbor of the slot with an
    overlap, both words have the same character at the shared cell. *)
Theorem X15_consistent_characterised (self : CrosswordCreator) (a : Assignment) :
  consistent self a = Ok true <-> consistentP (crossword self) a.
Proof. apply consistent_true. Qed.

(** X16: [consistent] still returns true when bindings are left out of a
    consistent dictionary. *)
Theorem X16_consistent_restrict (self : CrosswordCreator) (s a : Assignment) :
  consistent self s = Ok true ->
  nodup_var (keys s) = true ->
  incl a s ->
  consistent self a = Ok true.
Proof.
  intros Hs Hnd Hincl. apply consistent_true.
  apply (consistentP_restrict _ s).
  - apply nodup_var_NoDup, Hnd.
  - intros v w Hin. apply Hincl, Hin.
  - apply consistent_true, Hs.
Qed.

Lemma X16_consistent_restrict_witness :
  consistent corner_arc corner_filled = Ok true
  /\ nodup_var (keys corner_filled) = true
  /\ incl [(down3, "CBA"%string)] corner_filled
  /\ consistent corner_arc [(down3, "CBA"%string)] = Ok true.
Proof.
  assert (H1 : consistent corner_arc corner_filled = Ok true) by reflexivity.
  assert (H2 : nodup_var (keys corner_filled) = true) by reflexivity.
  assert (H3 : incl [(down3, "CBA"%string)] corner_filled).
  { intros e [<-|[]]. right. left. reflexivity. }
  split; [exact H1|]. split; [exact H2|]. split; [exact H3|].
  exact (X16_consistent_restrict corner_arc corner_filled [(down3, "CBA"%string)]
           H1 H2 H3).
Defined.

(** X17: on a well-formed graph [consistent] raises nothing when every bound
    word has the length of its slot. *)
Theorem X17_consistent_returns (self : CrosswordCreator) (a : Assignment) :
  wf_crossword (crossword self) = true ->
  lengths_ok a = true ->
  exists b, consistent self a = Ok b.
Proof. intros Hwf Ha. apply consistent_items_lengths; assumption. Qed.

Lemma X17_consistent_returns_witness :
  wf_crossword (crossword corner_arc) = true
  /\ lengths_ok [(across3, "QQQ"%string); (down3, "ZZZ"%string)] = true
  /\ exists b, consistent corner_arc [(across3, "QQQ"%string); (down3, "ZZZ"%string)]
               = Ok b.
Proof.
  assert (H1 : wf_crossword (crossword corner_arc) = true) by reflexivity.
  assert (H2 : lengths_ok [(across3, "QQQ"%string); (down3, "ZZZ"%string)] = true)
    by reflexivity.
  split; [exact H1|]. split; [exact H2|].
  exact (X17_consistent_returns corner_arc
           [(across3, "QQQ"%string); (down3, "ZZZ"%string)] H1 H2).
Defined.

(** X18: when every neighbor of [var] is assigned, [order_domain_values]
    returns the domain of [var] in its own order: every key is zero and the
    sort is stable. *)
Theorem X18_order_all_assigned (self : CrosswordCreator) (var : Var.t)
    (a : Assignment) (dv : list string) :
  forallb (contains a) (neighbors (crossword self) var) = true ->
  lookup (domains self) var = Some dv ->
  order_domain_values self var a = Ok dv.
Proof.
  intros Hn Hd. unfold order_domain_values.
  rewrite (proj2 (getitem_Ok _ _ _ _) Hd). simpl.
  rewrite (keyed_assigned self var a dv Hn). simpl.
  rewrite sort_by_key_zero, map_map. simpl. rewrite map_id. reflexivity.
Qed.

Lemma X18_order_all_assigned_witness :
  forallb (contains [(across3, "ABC"%string)]) (neighbors (crossword corner_arc) down3)
  = true
  /\ lookup (domains corner_arc) down3
     = Some ["ABC"%string; "CBA"%string; "AAA"%string; "BBB"%string]
  /\ order_domain_values corner_arc down3 [(across3, "ABC"%string)]
     = Ok ["ABC"%string; "CBA"%string; "AAA"%string; "BBB"%string].
Proof.
  assert (H1 : forallb (contains [(across3, "ABC"%string)])
                       (neighbors (crossword corner_arc) down3) = true)
    by reflexivity.
  assert (H2 : lookup (domains corner_arc) down3
               = Some ["ABC"%string; "CBA"%string; "AAA"%string; "BBB"%string])
    by reflexivity.
  split; [exact H1|]. split; [exact H2|].
  exact (X18_order_all_assigned corner_arc down3 [(across3, "ABC"%string)]
           ["ABC"%string; "CBA"%string; "AAA"%string; "BBB"%string] H1 H2).
Defined.

(** X19: what a successful [backtrack] adds to a dictionary without
    duplicate keys are bindings of variables of the graph that were not
    bound, each to a word of its domain, and no variable is bound twice. *)
Theorem X19_backtrack_bindings (fuel : nat) (self : CrosswordCreator)
    (a a' : Assignment) :
  backtrack fuel self a = Ok (true, a') ->
  nodup_var (keys a) = true ->
  exists ext,
    a' = (a ++ ext)%list
    /\ NoDup (keys a')
    /\ forall v w, In (v, w) ext ->
         In v (variables (crossword self)) /\ ~ In v (keys a) /\ In w (dom self v).
Proof.
  intros H Hnd. apply nodup_var_NoDup in Hnd.
  destruct (backtrack_bindings _ _ _ _ H) as [ext [Heq [Hin Hnd']]].
  specialize (Hnd' Hnd). exists ext. split; [exact Heq|]. split; [exact Hnd'|].
  intros v w Hvw. destruct (Hin v w Hvw) as [H1 H2].
  split; [exact H1|]. split; [|exact H2].
  intros Hk. rewrite Heq in Hnd'. unfold keys in Hnd'. rewrite map_app in Hnd'.
  apply NoDup_app_remove_l in Hnd' as Hext.
  assert (Hv : In v (map fst ext)).
  { change v with (fst (v, w)). apply in_map, Hvw. }
  clear -Hnd' Hk Hv. unfold keys in Hk.
  induction (map fst a) as [|k l IH]; [destruct Hk|].
  simpl in Hnd'. inversion Hnd' as [|? ? Hnk Hnd'']; subst.
  destruct Hk as [->|Hk]; [|apply IH; assumption].
  apply Hnk, in_app_iff. right. exact Hv.
Qed.

Lemma X19_backtrack_bindings_witness :
  backtrack 2 corner_arc [(across3, "ABC"%string)] = Ok (true, corner_filled)
  /\ nodup_var (keys [(across3, "ABC"%string)]) = true
  /\ exists ext,
       corner_filled = ([(across3, "ABC"%string)] ++ ext)%list
       /\ NoDup (keys corner_filled)
       /\ forall v w, In (v, w) ext ->
            In v (variables (crossword corner_arc))
            /\ ~ In v (keys [(across3, "ABC"%string)])
            /\ In w (dom corner_arc v).
Proof.
  assert (H1 : backtrack 2 corner_arc [(across3, "ABC"%string)]
               = Ok (true, corner_filled)) by reflexivity.
  assert (H2 : nodup_var (keys [(across3, "ABC"%string)]) = true) by reflexivity.
  split; [exact H1|]. split; [exact H2|].
  exact (X19_backtrack_bindings 2 corner_arc [(across3, "ABC"%string)] corner_filled
           H1 H2).
Defined.

(** X20: the assignment [solve] returns binds every variable once, to a
    word of the word list that has the length of the variable. *)
Theorem X20_solve_words (c : Crossword) (a : Assignment) :
  fst (solve (init c)) = Ok (Some a) ->
  NoDup (keys a)
  /\ forall v w, In (v, w) a ->
       In v (variables c) /\ In w (words c) /\ String.length w = Var.length v.
Proof.
  intros H. apply solve_inv in H. destruct H as [b [self2 [Hac Hbt]]].
  pose proof (ac3_steps _ _ _ _ Hac) as Hst.
  pose proof (revise_steps_crossword _ _ Hst) as Hc. simpl in Hc.
  destruct (backtrack_bindings _ _ _ _ Hbt) as [ext [Heq [Hin Hnd]]].
  simpl in Heq. subst ext. split; [apply Hnd; constructor|].
  intros v w Hvw. destruct (Hin v w Hvw) as [Hv Hw]. rewrite Hc in Hv.
  split; [exact Hv|].
  apply (proj1 (revise_steps_shrink _ _ v Hst)) in Hw.
  rewrite (dom_enforce_init c v Hv) in Hw. apply filter_In in Hw.
  destruct Hw as [Hw Hl]. apply Nat.eqb_eq in Hl. auto.
Qed.

Lemma X20_solve_words_witness :
  fst (solve (init corner)) = Ok (Some corner_filled)
  /\ NoDup (keys corner_filled)
  /\ forall v w, In (v, w) corner_filled ->
       In v (variables corner) /\ In w (words corner)
       /\ String.length w = Var.length v.
Proof.
  assert (H : fst (solve (init corner)) = Ok (Some corner_filled)) by reflexivity.
  split; [exact H|].
  exact (X20_solve_words corner corner_filled H).
Defined.

(** X21: on a graph without variables [solve] returns the empty
    assignment. *)
Theorem X21_solve_no_variables (c : Crossword) :
  variables c = [] ->
  solve (init c)
  = (Ok (Some []), [CallEnforceNodeConsistency; CallAc3; CallBacktrack]).
Proof.
  destruct c as [vs ws ov]. simpl. intros ->. reflexivity.
Qed.

Lemma X21_solve_no_variables_witness :
  variables no_slots = []
  /\ solve (init no_slots)
     = (Ok (Some []), [CallEnforceNodeConsistency; CallAc3; CallBacktrack]).
Proof.
  split; [reflexivity | apply (X21_solve_no_variables no_slots); reflexivity].
Defined.

(** X22: on a well-formed graph with a variable for which the word list has
    no word of its length, [solve] returns no solution. *)
Theorem X22_solve_missing_length (c : Crossword) (v : Var.t) :
  wf_crossword c = true ->
  In v (variables c) ->
  forallb (fun w => negb (Nat.eqb (String.length w) (Var.length v))) (words c) = true ->
  solve (init c) = (Ok None, [CallEnforceNodeConsistency; CallAc3; CallBacktrack]).
Proof.
  intros Hwf Hv Hnone. pose proof (init_enforce_ok c Hwf) as Hok1.
  destruct (ac3_total _ None Hok1) as [b [self2 Hac]].
  pose proof (ac3_steps _ _ _ _ Hac) as Hst.
  pose proof (revise_steps_creator_ok _ _ Hst Hok1) as Hok2.
  assert (Hc : crossword self2 = c) by apply (revise_steps_crossword _ _ Hst).
  assert (Hd1 : dom (enforce_node_consistency (init c)) v = []).
  { rewrite (dom_enforce_init c v Hv).
    induction (words c) as [|w ws IH]; [reflexivity|]. simpl in Hnone |- *.
    apply andb_true_iff in Hnone. destruct Hnone as [Hw Hws].
    apply negb_true_iff in Hw. rewrite Hw. apply IH, Hws. }
  assert (Hd2 : dom self2 v = []).
  { pose proof (proj1 (revise_steps_shrink _ _ v Hst)) as Hi. rewrite Hd1 in Hi.
    destruct (dom self2 v) as [|w0 l0]; [reflexivity|].
    destruct (Hi w0 (or_introl eq_refl)). }
  rewrite (solve_after_ac3 _ _ _ Hac). cbn [crossword init].
  rewrite (backtrack_empty_domain _ self2 v (ok_keys _ Hok2));
    [reflexivity | rewrite Hc; exact Hv | exact Hd2].
Qed.

Lemma X22_solve_missing_length_witness :
  wf_crossword short_words = true
  /\ In down3 (variables short_words)
  /\ forallb (fun w => negb (Nat.eqb (String.length w) (Var.length down3)))
             (words short_words) = true
  /\ solve (init short_words)
     = (Ok None, [CallEnforceNodeConsistency; CallAc3; CallBacktrack]).
Proof.
  assert (H1 : wf_crossword short_words = true) by reflexivity.
  assert (H2 : In down3 (variables short_words)) by (right; left; reflexivity).
  assert (H3 : forallb (fun w => negb (Nat.eqb (String.length w) (Var.length down3)))
                       (words short_words) = true) by reflexivity.
  split; [exact H1|]. split; [exact H2|]. split; [exact H3|].
  exact (X22_solve_missing_length short_words down3 H1 H2 H3).
Defined.

(** X23: [letter_grid] returns a grid of [height] rows of [width] cells when
    every letter of every bound word falls inside the grid, and raises
    [IndexError] otherwise. *)
Theorem X23_letter_grid_bounds (g : Grid) (a : Assignment) :
  if fits g a
  then exists letters,
         letter_grid g a = Ok letters
         /\ grid_shape (height g) (width g) letters
  else letter_grid g a = Raise IndexError.
Proof.
  unfold letter_grid.
  pose proof (letter_grid_items_total g a _ (grid_shape_blank (height g) (width g)))
    as H.
  destruct (fits g a); [|exact H].
  destruct H as [letters H]. exists letters. split; [exact H|].
  apply (letter_grid_items_inv _ _ _ _ _ (grid_shape_blank _ _) H).
Qed.

(** X24: a letter in the grid [letter_grid] returns is the letter some bound
    word puts in that cell; a cell no bound word covers holds [None]. *)
Theorem X24_letter_grid_sources (g : Grid) (a : Assignment) (letters : Letters)
    (i j : nat) (ch : ascii) :
  letter_grid g a = Ok letters ->
  letter_at letters i j = Some ch ->
  exists v word k, In (v, word) a /\ covers v word k i j ch.
Proof.
  unfold letter_grid. intros H Hat.
  destruct (letter_grid_items_inv _ _ _ _ _ (grid_shape_blank _ _) H)
    as [_ [Hfrom _]].
  destruct (Hfrom i j ch Hat) as [Hex|Hblank]; [exact Hex|].
  rewrite letter_at_blank in Hblank. discriminate.
Qed.

Lemma X24_letter_grid_sources_witness :
  letter_grid corner_grid corner_filled = Ok corner_letters
  /\ letter_at corner_letters 0 2 = Some "C"%char
  /\ exists v word k, In (v, word) corner_filled /\ covers v word k 0 2 "C"%char.
Proof.
  assert (H1 : letter_grid corner_grid corner_filled = Ok corner_letters)
    by reflexivity.
  assert (H2 : letter_at corner_letters 0 2 = Some "C"%char) by reflexivity.
  split; [exact H1|]. split; [exact H2|].
  exact (X24_letter_grid_sources corner_grid corner_filled corner_letters 0 2
           "C"%char H1 H2).
Defined.

(** X25: in the grid [letter_grid] returns, a cell holds the letter of the
    last bound word that covers it, in the order of the dictionary. *)
Theorem X25_letter_grid_last_wins (g : Grid) (pre post : Assignment)
    (v : Var.t) (word : string) (letters : Letters) (k i j : nat) (ch : ascii) :
  letter_grid g (pre ++ (v, word) :: post)%list = Ok letters ->
  covers v word k i j ch ->
  (forall v' word' k' ch', In (v', word') post -> ~ covers v' word' k' i j ch') ->
  letter_at letters i j = Some ch.
Proof.
  unfold letter_grid. intros H Hc Hno.
  destruct (letter_grid_items_inv _ _ _ _ _ (grid_shape_blank _ _) H)
    as [_ [_ Hlast]].
  apply (Hlast pre v word post k i j ch eq_refl Hc Hno).
Qed.

Lemma X25_letter_grid_last_wins_witness :
  letter_grid corner_grid ([] ++ (across3, "ABC") :: [(down3, "CBA")])%list
  = Ok corner_letters
  /\ covers across3 "ABC" 1 0 1 "B"%char
  /\ (forall v' word' k' ch',
        In (v', word') [(down3, "CBA")] -> ~ covers v' word' k' 0 1 ch')
  /\ letter_at corner_letters 0 1 = Some "B"%char.
Proof.
  assert (H1 : letter_grid corner_grid
                 ([] ++ (across3, "ABC") :: [(down3, "CBA")])%list
               = Ok corner_letters) by reflexivity.
  assert (H2 : covers across3 "ABC" 1 0 1 "B"%char) by (split; reflexivity).
  assert (H3 : forall v' word' k' ch',
             In (v', word') [(down3, "CBA")] -> ~ covers v' word' k' 0 1 ch').
  { intros v' word' k' ch' [Heq|[]] [Hcell _]. injection Heq as <- <-.
    unfold cell_of in Hcell. simpl in Hcell. discriminate. }
  split; [exact H1|]. split; [exact H2|]. split; [exact H3|].
  exact (X25_letter_grid_last_wins corner_grid [] [(down3, "CBA")] across3 "ABC"
           corner_letters 1 0 1 "B"%char H1 H2 H3).
Defined.

(** X26: when the table [structure] covers the grid and the bound words fit
    in it, [print] writes, for each row in turn, one string per column and
    then a newline: the block for a cell that is not fillable, else the
    letter of the cell, or a space where there is none. *)
Theorem X26_print_format (g : Grid) (a : Assignment) (i j : nat) :
  structure_ok g = true ->
  fits g a = true ->
  i < height g ->
  j < width g ->
  exists letters out,
    letter_grid g a = Ok letters
    /\ print g a = Ok out
    /\ List.length out = height g * S (width g)
    /\ nth_error out (i * S (width g) + j) = Some (glyph_at g letters i j)
    /\ nth_error out (i * S (width g) + width g) = Some newline.
Proof.
  intros Hst Hfit Hi Hj.
  pose proof (letter_grid_items_total g a _ (grid_shape_blank (height g) (width g)))
    as H. rewrite Hfit in H. destruct H as [letters Hl].
  pose proof (proj1 (letter_grid_items_inv _ _ _ _ _ (grid_shape_blank _ _) Hl))
    as Hshape.
  set (row := fun i => (map (glyph_at g letters i) (seq 0 (width g)) ++ [newline])%list).
  set (rows := map row (seq 0 (height g))).
  assert (Hprint : print g a = Ok (List.concat rows)).
  { unfold print, letter_grid. rewrite Hl. cbn [bind].
    rewrite print_rows_Ok; [reflexivity|].
    intros i0 j0 Hi0 Hj0. apply print_cell_Ok; auto using seq_lt. }
  assert (Hlen : forall r, In r rows -> List.length r = S (width g)).
  { intros r Hr. apply in_map_iff in Hr. destruct Hr as [i0 [<- _]].
    unfold row. rewrite length_app, length_map, length_seq. simpl. lia. }
  assert (Hrow : nth_error rows i = Some (row i)).
  { unfold rows. rewrite (nth_error_map_seq _ row (height g) 0 i Hi). reflexivity. }
  exists letters, (List.concat rows). split; [exact Hl|]. split; [exact Hprint|].
  split; [|split].
  - rewrite (length_concat_rows _ (S (width g)) rows Hlen).
    unfold rows. rewrite length_map, length_seq. reflexivity.
  - rewrite (nth_error_concat_rows _ (S (width g)) rows i j (row i) Hlen Hrow)
      by lia.
    unfold row. rewrite nth_error_app1 by (rewrite length_map, length_seq; exact Hj).
    rewrite (nth_error_map_seq _ (glyph_at g letters i) (width g) 0 j Hj).
    reflexivity.
  - rewrite (nth_error_concat_rows _ (S (width g)) rows i (width g) (row i) Hlen Hrow)
      by lia.
    unfold row. rewrite nth_error_app2 by (rewrite length_map, length_seq; lia).
    rewrite length_map, length_seq, Nat.sub_diag. reflexivity.
Qed.

Lemma X26_print_format_witness :
  structure_ok corner_grid = true
  /\ fits corner_grid corner_filled = true
  /\ 1 < height corner_grid
  /\ 2 < width corner_grid
  /\ exists letters out,
       letter_grid corner_grid corner_filled = Ok letters
       /\ print corner_grid corner_filled = Ok out
       /\ List.length out = height corner_grid * S (width corner_grid)
       /\ nth_error out (1 * S (width corner_grid) + 2)
          = Some (glyph_at corner_grid letters 1 2)
       /\ nth_error out (1 * S (width corner_grid) + width corner_grid)
          = Some newline.
Proof.
  assert (H1 : structure_ok corner_grid = true) by reflexivity.
  assert (H2 : fits corner_grid corner_filled = true) by reflexivity.
  assert (H3 : 1 < height corner_grid) by (simpl; lia).
  assert (H4 : 2 < width corner_grid) by (simpl; lia).
  split; [exact H1|]. split; [exact H2|]. split; [exact H3|]. split; [exact H4|].
  exact (X26_print_format corner_grid corner_filled 1 2 H1 H2 H3 H4).
Defined.

(** X27: in a state of the solver, on a dictionary that binds variables of
    the graph to words of their domains, [backtrack] returns when it has a
    frame per unbound variable and one more; when it returns [None], no
    complete consistent assignment over the domains extends the
    dictionary. *)
Theorem X27_backtrack_exhaustive (fuel : nat) (self : CrosswordCreator)
    (a : Assignment) :
  wf_crossword (crossword self) = true ->
  keys (domains self) = variables (crossword self) ->
  node_consistent (domains self) = true ->
  assignment_okb self a = true ->
  List.length (variables (crossword self)) < fuel + List.length a ->
  exists found a',
    backtrack fuel self a = Ok (found, a')
    /\ (found = false ->
        forall s, solution self s -> extends s a -> False).
Proof.
  intros Hwf Hkeys Hnode Ha Hfuel.
  assert (Hok : creator_ok self) by (constructor; assumption).
  assert (Ha' : assignment_ok self a).
  { unfold assignment_okb in Ha. apply andb_true_iff in Ha. destruct Ha as [H1 H2].
    rewrite forallb_forall in H2. constructor.
    - apply nodup_var_NoDup, H1.
    - intros v Hv. apply in_map_iff in Hv. destruct Hv as [e [<- He]].
      specialize (H2 e He). apply andb_true_iff in H2. apply mem_var_In, H2.
    - intros v w Hvw. specialize (H2 _ Hvw). apply andb_true_iff in H2.
      apply mem_str_In, H2. }
  destruct (backtrack_total fuel self a Hok Ha' Hfuel) as [found [a' [Hbt Hno]]].
  exists found, a'. split; [exact Hbt|]. intros Hf. apply (Hno Hf).
Qed.

Lemma X27_backtrack_exhaustive_witness :
  wf_crossword (crossword corner_arc) = true
  /\ keys (domains corner_arc) = variables (crossword corner_arc)
  /\ node_consistent (domains corner_arc) = true
  /\ assignment_okb corner_arc [(across3, "BBB")] = true
  /\ List.length (variables (crossword corner_arc))
     < 2 + List.length [(across3, "BBB")]
  /\ exists found a',
       backtrack 2 corner_arc [(across3, "BBB")] = Ok (found, a')
       /\ (found = false ->
           forall s, solution corner_arc s -> extends s [(across3, "BBB")] -> False).
Proof.
  assert (H1 : wf_crossword (crossword corner_arc) = true) by reflexivity.
  assert (H2 : keys (domains corner_arc) = variables (crossword corner_arc))
    by reflexivity.
  assert (H3 : node_consistent (domains corner_arc) = true) by reflexivity.
  assert (H4 : assignment_okb corner_arc [(across3, "BBB")] = true) by reflexivity.
  assert (H5 : List.length (variables (crossword corner_arc))
               < 2 + List.length [(across3, "BBB")]) by (simpl; lia).
  do 5 (split; [assumption|]).
  exact (X27_backtrack_exhaustive 2 corner_arc [(across3, "BBB")] H1 H2 H3 H4 H5).
Defined.

(** The sort of [order_domain_values] keeps, for every key, the values of
    that key in the order they had. *)
Lemma insert_by_key_filter k0 k w l :
  filter (fun p => Nat.eqb (fst p) k0) (insert_by_key k w l)
  = if Nat.eqb k k0
    then (k, w) :: filter (fun p => Nat.eqb (fst p) k0) l
    else filter (fun p => Nat.eqb (fst p) k0) l.
Proof.
  induction l as [|[k' w'] l IH]; [reflexivity|].
  cbn [insert_by_key]. destruct (Nat.leb k k') eqn:E; [reflexivity|].
  cbn [filter fst]. rewrite IH. apply Nat.leb_gt in E.
  destruct (Nat.eqb k k0) eqn:E1; [|reflexivity].
  apply Nat.eqb_eq in E1. subst k0.
  assert (E2 : Nat.eqb k' k = false) by (apply Nat.eqb_neq; lia).
  rewrite E2. reflexivity.
Qed.

Lemma sort_by_key_filter k0 l :
  filter (fun p => Nat.eqb (fst p) k0) (sort_by_key l)
  = filter (fun p => Nat.eqb (fst p) k0) l.
Proof.
  induction l as [|[k w] l IH]; [reflexivity|].
  cbn [sort_by_key]. rewrite insert_by_key_filter, IH. reflexivity.
Qed.

Lemma filter_map_snd_keyed (f : string -> nat) k0 (l : list (nat * string)) :
  (forall p, In p l -> f (snd p) = fst p) ->
  filter (fun v => Nat.eqb (f v) k0) (map snd l)
  = map snd (filter (fun p => Nat.eqb (fst p) k0) l).
Proof.
  induction l as [|[k w] l IH]; intros H; [reflexivity|].
  pose proof (H (k, w) (or_introl eq_refl)) as Hk. cbn [fst snd] in Hk.
  cbn [map filter snd fst]. rewrite Hk.
  rewrite IH by (intros p Hp; apply H; right; exact Hp).
  destruct (Nat.eqb k k0); reflexivity.
Qed.

(** X28: the order [order_domain_values] returns is stable: in a state of
    the solver, for every count, the values with that conflict count come
    out in the order they have in the domain. *)
Theorem X28_order_stable (self : CrosswordCreator) (var : Var.t)
    (a : Assignment) (k : nat) :
  wf_crossword (crossword self) = true ->
  keys (domains self) = variables (crossword self) ->
  node_consistent (domains self) = true ->
  In var (variables (crossword self)) ->
  exists values,
    order_domain_values self var a = Ok values
    /\ filter (fun v => Nat.eqb (conflict_count self var a v) k) values
       = filter (fun v => Nat.eqb (conflict_count self var a v) k) (dom self var).
Proof.
  intros Hwf Hkeys Hnode Hvar.
  assert (Hok : creator_ok self) by (constructor; assumption).
  rewrite (order_domain_values_Ok self var a Hok Hvar).
  eexists. split; [reflexivity|].
  set (kvs := map (fun v => (conflict_count self var a v, v)) (dom self var)).
  rewrite (filter_map_snd_keyed (conflict_count self var a) k (sort_by_key kvs)).
  - rewrite sort_by_key_filter.
    rewrite <- (filter_map_snd_keyed (conflict_count self var a) k kvs).
    + unfold kvs. rewrite map_map. simpl. rewrite map_id. reflexivity.
    + intros p Hp. apply in_map_iff in Hp. destruct Hp as [v [<- _]]. reflexivity.
  - intros p Hp. apply (Permutation_in _ (sort_by_key_perm kvs)) in Hp.
    apply in_map_iff in Hp. destruct Hp as [v [<- _]]. reflexivity.
Qed.

Lemma X28_order_stable_witness :
  wf_crossword (crossword corner_node) = true
  /\ keys (domains corner_node) = variables (crossword corner_node)
  /\ node_consistent (domains corner_node) = true
  /\ In across3 (variables (crossword corner_node))
  /\ exists values,
       order_domain_values corner_node across3 [] = Ok values
       /\ filter (fun v => Nat.eqb (conflict_count corner_node across3 [] v) 1) values
          = filter (fun v => Nat.eqb (conflict_count corner_node across3 [] v) 1)
                   (dom corner_node across3).
Proof.
  assert (H1 : wf_crossword (crossword corner_node) = true) by reflexivity.
  assert (H2 : keys (domains corner_node) = variables (crossword corner_node))
    by reflexivity.
  assert (H3 : node_consistent (domains corner_node) = true) by reflexivity.
  assert (H4 : In across3 (variables (crossword corner_node))) by (left; reflexivity).
  do 4 (split; [assumption|]).
  exact (X28_order_stable corner_node across3 [] 1 H1 H2 H3 H4).
Defined.
